(** * A shallow embedding of [allocator.c]

    The allocator manages a caller-supplied pool with a bump pointer
    ([used]) and an intrusive doubly linked free list whose links live in
    the block headers.  The model below follows the C source function by
    function on a byte-addressed memory, under the LP64 data model:
    [size_t] and pointers are 64-bit, [int] is 32-bit, so that
    [struct metadata], with members [size], [check_free], [next], [prev],
    has [size] at offset 0, [check_free] at offset 8, [next] at offset 16,
    [prev] at offset 24 and [sizeof(md) = 32].  Unsigned arithmetic wraps
    modulo [2^64], as [size_t] arithmetic does in C.  The [while] loop of
    [mymalloc] takes a fuel; the other functions are total. *)

From Stdlib Require Import ZArith List Lia Bool.
Import ListNotations.
Local Open Scope Z_scope.

(** ** Machine words and byte memory *)

Module Mem.

Definition modulus : Z := 2 ^ 64.

(** [size_t] / pointer arithmetic: every result is reduced modulo [2^64]. *)
Definition wrap (z : Z) : Z := z mod modulus.

(** Memory is a total map from byte addresses to byte values. *)
Definition mem : Type := Z -> Z.

Definition upd (m : mem) (a v : Z) : mem :=
  fun x => if Z.eqb x a then v else m x.

(** Little-endian load of [n] bytes starting at address [a]. *)
Fixpoint load (n : nat) (m : mem) (a : Z) : Z :=
  match n with
  | O => 0
  | S k => (m (wrap a)) mod 256 + 256 * load k m (a + 1)
  end.

(** Little-endian store of the low [n] bytes of [v] at address [a]. *)
Fixpoint store (n : nat) (m : mem) (a v : Z) : mem :=
  match n with
  | O => m
  | S k => store k (upd m (wrap a) (v mod 256)) (a + 1) (v / 256)
  end.

(** [memcpy]: the [n] source bytes are read, then written to [dst].  C
    defines [memcpy] for ranges that do not overlap, where the order of
    the byte copies does not matter. *)
Fixpoint read_bytes (n : nat) (m : mem) (a : Z) : list Z :=
  match n with
  | O => []
  | S k => m (wrap a) :: read_bytes k m (a + 1)
  end.

Fixpoint write_bytes (m : mem) (a : Z) (bs : list Z) : mem :=
  match bs with
  | [] => m
  | b :: r => write_bytes (upd m (wrap a) b) (a + 1) r
  end.

Definition memcpy (m : mem) (dst src n : Z) : mem :=
  write_bytes m dst (read_bytes (Z.to_nat n) m src).

End Mem.

Import Mem.

(** ** The allocator, function by function *)

Module Alloc.

(** [sizeof(md)] under LP64, and the pool capacity [128 * 1024 * 1024]
    that [mymalloc] compares against. *)
Definition sizeof_md : Z := 32.
Definition CAP : Z := 128 * 1024 * 1024.
Definition NULL : Z := 0.

(** The four members of [struct metadata], with their offsets and widths. *)
Inductive field : Type := Fsize | Fcheck_free | Fnext | Fprev.

Definition foff (f : field) : Z :=
  match f with Fsize => 0 | Fcheck_free => 8 | Fnext => 16 | Fprev => 24 end.

Definition flen (f : field) : nat :=
  match f with Fcheck_free => 4%nat | _ => 8%nat end.

(** [getf f m p] reads [p->f]; [setf f m p v] performs [p->f = v]. *)
Definition getf (f : field) (m : mem) (p : Z) : Z := load (flen f) m (p + foff f).
Definition setf (f : field) (m : mem) (p v : Z) : mem := store (flen f) m (p + foff f) v.

(** The three globals [base], [used], [free_list], and the memory. *)
Record state : Type := mkState {
  base : Z;
  used : Z;
  free_list : Z;
  memory : mem
}.

Definition with_mem (s : state) (m : mem) : state :=
  mkState (base s) (used s) (free_list s) m.

Definition allocator_init (s : state) (newbase : Z) : state :=
  mkState newbase 0 NULL (memory s).

Definition allocator_reset (s : state) : state :=
  mkState (base s) 0 NULL (memory s).

Definition insert_into_free_list (s : state) (block : Z) : state :=
  let m1 := setf Fcheck_free (memory s) block 1 in
  let m2 := setf Fnext m1 block (free_list s) in
  let m3 := setf Fprev m2 block NULL in
  let m4 := if free_list s =? NULL then m3
            else setf Fprev m3 (free_list s) block in
  mkState (base s) (used s) block m4.

Definition remove_from_free_list (s : state) (block : Z) : state :=
  let s1 :=
    if getf Fprev (memory s) block =? NULL
    then mkState (base s) (used s) (getf Fnext (memory s) block) (memory s)
    else with_mem s (setf Fnext (memory s) (getf Fprev (memory s) block)
                          (getf Fnext (memory s) block)) in
  if getf Fnext (memory s1) block =? NULL then s1
  else with_mem s1 (setf Fprev (memory s1) (getf Fnext (memory s1) block)
                         (getf Fprev (memory s1) block)).

(** The first [if] of [merge_blocks]: absorb the physically next block. *)
Definition merge_next (s : state) (block : Z) : state :=
  let next_block := wrap (block + sizeof_md + getf Fsize (memory s) block) in
  if (next_block <? wrap (base s + used s))
     && negb (getf Fcheck_free (memory s) next_block =? 0)
  then
    let s1 := remove_from_free_list s next_block in
    with_mem s1 (setf Fsize (memory s1) block
                   (wrap (getf Fsize (memory s1) block
                          + (sizeof_md + getf Fsize (memory s1) next_block))))
  else s.

(** The second [if] of [merge_blocks]: it follows the free-list link
    [block->prev], not the physical predecessor. *)
Definition merge_prev (s : state) (block : Z) : state :=
  let prev_block := getf Fprev (memory s) block in
  if negb (prev_block =? NULL)
     && negb (getf Fcheck_free (memory s) prev_block =? 0)
  then
    let s1 := remove_from_free_list s prev_block in
    with_mem s1 (setf Fsize (memory s1) prev_block
                   (wrap (getf Fsize (memory s1) prev_block
                          + (sizeof_md + getf Fsize (memory s1) block))))
  else s.

Definition merge_blocks (s : state) (block : Z) : state :=
  merge_prev (merge_next s block) block.

(** The [while (current)] scan of [mymalloc].  [Some NULL] means the scan
    reached the end of the list; [None] that the fuel ran out. *)
Fixpoint find_fit (fuel : nat) (m : mem) (current size : Z) : option Z :=
  match fuel with
  | O => None
  | S k =>
      if current =? NULL then Some NULL
      else if size <=? getf Fsize m current then Some current
      else find_fit k m (getf Fnext m current) size
  end.

Definition mymalloc (fuel : nat) (s : state) (size : Z) : option (state * Z) :=
  let total := wrap (sizeof_md + size) in
  match find_fit fuel (memory s) (free_list s) size with
  | None => None
  | Some current =>
      if negb (current =? NULL) then
        let s1 := remove_from_free_list s current in
        Some (with_mem s1 (setf Fcheck_free (memory s1) current 0),
              wrap (current + sizeof_md))
      else if CAP <? wrap (used s + total) then Some (s, NULL)
      else
        let ans := wrap (base s + used s) in
        let m1 := setf Fsize (memory s) ans size in
        let m2 := setf Fcheck_free m1 ans 0 in
        Some (mkState (base s) (wrap (used s + total)) (free_list s) m2,
              wrap (ans + sizeof_md))
  end.

Definition myfree (s : state) (ptr : Z) : state :=
  if ptr =? NULL then s
  else
    let metadata := wrap (ptr - sizeof_md) in
    merge_blocks (insert_into_free_list s metadata) metadata.

Definition myrealloc (fuel : nat) (s : state) (ptr size : Z)
  : option (state * Z) :=
  if size =? 0 then Some (myfree s ptr, NULL)
  else if ptr =? NULL then mymalloc fuel s size
  else
    let metadata := wrap (ptr - sizeof_md) in
    let old_size := getf Fsize (memory s) metadata in
    let end_ := wrap (base s + used s) in
    if wrap (ptr + old_size) =? end_ then
      let used' := if old_size <? size
                   then wrap (used s + (size - old_size))
                   else wrap (used s - (old_size - size)) in
      Some (mkState (base s) used' (free_list s)
                    (setf Fsize (memory s) metadata size), ptr)
    else
      match mymalloc fuel s size with
      | None => None
      | Some (s1, new_ptr) =>
          if new_ptr =? NULL then Some (s1, new_ptr)
          else
            let n := if old_size <? size then old_size else size in
            Some (myfree (with_mem s1 (memcpy (memory s1) new_ptr ptr n)) ptr,
                  new_ptr)
      end.

End Alloc.

Import Alloc.

(** * Specification

    The predicates the properties are stated with, the runs of the allocator,
    executable checks, and the concrete pools used as test inputs. *)

(** ** Headers *)

(** Two non-wrapping byte ranges that do not intersect. *)
Definition disjoint (a n b k : Z) : Prop :=
  0 <= a /\ a + n <= modulus /\ 0 <= b /\ b + k <= modulus /\
  (a + n <= b \/ b + k <= a).

(** A header address whose 32 bytes neither start at [NULL] nor wrap. *)
Definition hv (a : Z) : Prop := 0 < a /\ a + sizeof_md <= modulus.

(** Two headers that do not overlap. *)
Definition hsep (a b : Z) : Prop := a + sizeof_md <= b \/ b + sizeof_md <= a.

(** Equality of field names. *)
Definition field_eqb (f g : field) : bool :=
  match f, g with
  | Fsize, Fsize | Fcheck_free, Fcheck_free | Fnext, Fnext | Fprev, Fprev => true
  | _, _ => false
  end.

(** The number of values of a field, and the values that fit in it. *)
Definition fmod (f : field) : Z := 256 ^ Z.of_nat (flen f).

Definition fits (g : field) (v : Z) : Prop := 0 <= v < fmod g.

(** A family of valid headers that pairwise do not overlap. *)
Definition hgood (G : list Z) : Prop :=
  (forall a, In a G -> hv a) /\
  (forall a b, In a G -> In b G -> a <> b -> hsep a b).

(** Bytes that lie in no header of [G]. *)
Definition outside (G : list Z) (x : Z) : Prop :=
  forall a, In a G -> x < a \/ a + sizeof_md <= x.

(** ** Representation predicates

    [tiles m a bl e]: walking the headers from address [a], each block
    followed immediately by the next one, visits exactly the header
    addresses [bl] and ends exactly at [e].  [lseg] and [pseg] describe the
    [next] and the [prev] links of the free list. *)

Fixpoint tiles (m : mem) (a : Z) (bl : list Z) (e : Z) : Prop :=
  match bl with
  | [] => a = e
  | b :: r => b = a /\ tiles m (a + sizeof_md + getf Fsize m a) r e
  end.

Fixpoint lseg (m : mem) (h : Z) (L : list Z) (t : Z) : Prop :=
  match L with
  | [] => h = t
  | x :: r => h = x /\ x <> NULL /\ lseg m (getf Fnext m x) r t
  end.

Fixpoint pseg (m : mem) (p : Z) (L : list Z) : Prop :=
  match L with
  | [] => True
  | x :: r => getf Fprev m x = p /\ pseg m x r
  end.

(** [flist m h L]: starting at [h], the [next] links visit exactly [L] and
    end at [NULL]; the [prev] links mirror them; no header occurs twice. *)
Definition flist (m : mem) (h : Z) (L : list Z) : Prop :=
  lseg m h L NULL /\ pseg m NULL L /\ NoDup L.

(** The allocator invariant.  [wf s bl L]: the pool is placed so that no
    pointer into it wraps, the blocks at the header addresses [bl] tile
    [base, base + used) exactly, the free list is the well-formed list [L],
    and a block is on the free list exactly when its [check_free] flag is
    set. *)
Record wf (s : state) (bl L : list Z) : Prop := mkWf {
  wf_base : 0 < base s;
  wf_pool : base s + CAP < modulus;
  wf_used : 0 <= used s;
  wf_top : base s + used s < modulus;
  wf_tiles : tiles (memory s) (base s) bl (base s + used s);
  wf_flist : flist (memory s) (free_list s) L;
  wf_member : forall b,
    In b L <-> In b bl /\ getf Fcheck_free (memory s) b <> 0
}.

(** [p] is the payload pointer of a block that is currently allocated. *)
Definition live (s : state) (bl : list Z) (p : Z) : Prop :=
  In (p - sizeof_md) bl /\ getf Fcheck_free (memory s) (p - sizeof_md) = 0.

(** The block of the payload pointer [p] has in [s'] the size and the
    payload bytes it has in [s]. *)
Definition same_block (s s' : state) (p : Z) : Prop :=
  getf Fsize (memory s') (p - sizeof_md) = getf Fsize (memory s) (p - sizeof_md) /\
  forall i, 0 <= i < getf Fsize (memory s) (p - sizeof_md) ->
    memory s' (p + i) = memory s (p + i).

(** The contiguity invariant of C2, as a property of one state. *)
Definition contiguous (s : state) : Prop :=
  exists bl, tiles (memory s) (base s) bl (base s + used s).

(** ** Runs of the allocator

    A run starts with [allocator_init] on a pool placed at a non-null
    address whose [CAP] bytes do not reach the top of the address space.
    The ghost list [lv] records the pointers handed out and not yet given
    back; [myfree] and [myrealloc] are only ever called on [NULL] or on such
    a pointer, and sizes are [size_t] values. *)

Inductive call : Type :=
| Malloc (size : Z)
| Free (ptr : Z)
| Realloc (ptr size : Z)
| Reset.

(** [drop p lv]: the live pointers once [p] has been given back. *)
Definition drop (p : Z) (lv : list Z) : list Z :=
  filter (fun q => negb (q =? p)) lv.

(** A [size_t] value; a pointer argument the caller may pass. *)
Definition is_size (n : Z) : Prop := 0 <= n < modulus.

Definition is_arg (lv : list Z) (p : Z) : Prop := p = NULL \/ In p lv.

Inductive step : state * list Z -> call -> state * list Z -> Prop :=
| step_malloc s lv n fuel s' q :
    is_size n -> mymalloc fuel s n = Some (s', q) ->
    step (s, lv) (Malloc n) (s', if q =? NULL then lv else q :: lv)
| step_free s lv p :
    is_arg lv p ->
    step (s, lv) (Free p) (myfree s p, drop p lv)
| step_realloc s lv p n fuel s' q :
    is_arg lv p -> is_size n -> myrealloc fuel s p n = Some (s', q) ->
    step (s, lv) (Realloc p n)
         (s', if n =? 0 then drop p lv
              else if q =? NULL then lv else q :: drop p lv)
| step_reset s lv :
    step (s, lv) Reset (allocator_reset s, []).

(** [reach ok s lv]: [s] is reached from [allocator_init] by calls that
    each satisfy [ok]. *)
Inductive reach (ok : state -> call -> Prop) : state -> list Z -> Prop :=
| reach_init s0 newbase :
    0 < newbase -> newbase + CAP < modulus ->
    reach ok (allocator_init s0 newbase) []
| reach_step s lv c s' lv' :
    reach ok s lv -> ok s c -> step (s, lv) c (s', lv') ->
    reach ok s' lv'.

(** No restriction on the calls of a run. *)
Definition any_call (s : state) (c : call) : Prop := True.

(** Calls whose size arithmetic does not wrap: the capacity check of
    [mymalloc] computes [used + sizeof(md) + size] exactly, and an in-place
    resize leaves the end of the block below [2^64]. *)
Definition no_wrap (s : state) (c : call) : Prop :=
  match c with
  | Malloc n => used s + sizeof_md + n < modulus
  | Realloc p n =>
      n = 0 \/ (used s + sizeof_md + n < modulus /\ p + n < modulus)
  | Free _ | Reset => True
  end.

(** The invariant together with the ghost list: the live pointers are the
    payload pointers of the allocated blocks. *)
Definition inv (s : state) (lv : list Z) : Prop :=
  exists bl L, wf s bl L /\ (forall q, In q lv <-> live s bl q).

(** ** Executable runs and an executable check of the invariant *)

Definition is_sizeb (n : Z) : bool := (0 <=? n) && (n <? modulus).

Definition is_argb (lv : list Z) (p : Z) : bool :=
  (p =? NULL) || existsb (Z.eqb p) lv.

Definition no_wrapb (s : state) (c : call) : bool :=
  match c with
  | Malloc n => used s + sizeof_md + n <? modulus
  | Realloc p n =>
      (n =? 0) || ((used s + sizeof_md + n <? modulus) && (p + n <? modulus))
  | Free _ | Reset => true
  end.

(** One call, checked against the guard [g] and the caller contract. *)
Definition exec (g : state -> call -> bool) (fuel : nat)
  (r : state * list Z) (c : call) : option (state * list Z) :=
  let (s, lv) := r in
  if negb (g s c) then None else
  match c with
  | Malloc n =>
      if is_sizeb n then
        match mymalloc fuel s n with
        | Some (s', q) => Some (s', if q =? NULL then lv else q :: lv)
        | None => None
        end
      else None
  | Free p => if is_argb lv p then Some (myfree s p, drop p lv) else None
  | Realloc p n =>
      if is_argb lv p && is_sizeb n then
        match myrealloc fuel s p n with
        | Some (s', q) =>
            Some (s', if n =? 0 then drop p lv
                      else if q =? NULL then lv else q :: drop p lv)
        | None => None
        end
      else None
  | Reset => Some (allocator_reset s, [])
  end.

Fixpoint run (g : state -> call -> bool) (fuel : nat)
  (r : state * list Z) (cs : list call) : option (state * list Z) :=
  match cs with
  | [] => Some r
  | c :: cs' =>
      match exec g fuel r c with
      | Some r' => run g fuel r' cs'
      | None => None
      end
  end.

Fixpoint tilesb (m : mem) (a : Z) (bl : list Z) (e : Z) : bool :=
  match bl with
  | [] => a =? e
  | b :: r => (b =? a) && tilesb m (a + sizeof_md + getf Fsize m a) r e
  end.

Fixpoint lsegb (m : mem) (h : Z) (L : list Z) (t : Z) : bool :=
  match L with
  | [] => h =? t
  | x :: r => (h =? x) && negb (x =? NULL) && lsegb m (getf Fnext m x) r t
  end.

Fixpoint psegb (m : mem) (p : Z) (L : list Z) : bool :=
  match L with
  | [] => true
  | x :: r => (getf Fprev m x =? p) && psegb m x r
  end.

Fixpoint nodupb (L : list Z) : bool :=
  match L with
  | [] => true
  | x :: r => negb (existsb (Z.eqb x) r) && nodupb r
  end.

Definition memberb (m : mem) (bl L : list Z) : bool :=
  forallb (fun b => existsb (Z.eqb b) bl
                    && negb (getf Fcheck_free m b =? 0)) L
  && forallb (fun b => (getf Fcheck_free m b =? 0)
                       || existsb (Z.eqb b) L) bl.

Definition wf_check (s : state) (bl L : list Z) : bool :=
  (0 <? base s) && (base s + CAP <? modulus) && (0 <=? used s)
  && (base s + used s <? modulus)
  && tilesb (memory s) (base s) bl (base s + used s)
  && lsegb (memory s) (free_list s) L NULL
  && psegb (memory s) NULL L
  && nodupb L
  && memberb (memory s) bl L.

(** ** Concrete pools and call sequences *)

(** A zeroed memory and a pool at address [0x10000]. *)
Definition zero_mem : mem := fun _ => 0.

Definition pool_base : Z := 65536.

(** The allocator right after [allocator_init] on a zeroed pool. *)
Definition st_init : state := allocator_init (mkState 0 0 0 zero_mem) pool_base.

Definition any_callb (s : state) (c : call) : bool := true.

(** The state reached by a list of calls on the fresh pool. *)
Definition state_after (fuel : nat) (cs : list call) : state :=
  match run no_wrapb fuel (st_init, []) cs with
  | Some (s, _) => s
  | None => st_init
  end.

Definition c2_calls : list call := [Malloc 8; Malloc (modulus - 33)].

Definition c3_calls : list call :=
  [Malloc 8; Malloc (modulus - 72); Free (pool_base + 32); Malloc 16].

Definition c4_state : state :=
  state_after 2 [Malloc 64; Malloc 64; Free (pool_base + 128)].

Definition c5_calls : list call :=
  [Malloc 64; Malloc 64; Free (pool_base + 32); Free (pool_base + 128)].

Definition c6_state : state := state_after 1 [Malloc 64; Malloc 16].

Definition c6_calls : list call :=
  [Malloc 64; Malloc 16; Realloc (pool_base + 128) (modulus - 1)].

Definition c7_state : state := state_after 1 [Malloc 16; Malloc 16].

Definition c7_calls : list call :=
  [Malloc 16; Malloc 16; Realloc (pool_base + 32) (modulus - 32); Malloc 64].

(** [c7_state] once the client has stored the byte 7 at the start of its
    first payload. *)
Definition c7_written : state :=
  with_mem c7_state (upd (memory c7_state) (pool_base + 32) 7).

Definition c8_state : state :=
  state_after 2 [Malloc 16; Malloc 8; Malloc 64; Malloc 8;
                 Free (pool_base + 120); Free (pool_base + 32)].

Definition c10_calls : list call := [Malloc (CAP - 32)].

Definition c10_state : state :=
  state_after 1 [Malloc 64; Malloc 64; Free (pool_base + 32)].

(** * Proofs *)

(** ** Machine words and byte memory *)

Lemma modulus_eq : modulus = 18446744073709551616.
Proof. reflexivity. Qed.

Lemma wrap_range z : 0 <= wrap z < modulus.
Proof. unfold wrap. apply Z.mod_pos_bound. rewrite modulus_eq. lia. Qed.

Lemma wrap_small z : 0 <= z < modulus -> wrap z = z.
Proof. intros H. unfold wrap. apply Z.mod_small. exact H. Qed.

Lemma wrap_small_eq z y : z = y -> 0 <= y < modulus -> wrap z = y.
Proof. intros -> H. apply wrap_small. exact H. Qed.

Lemma wrap_neq_shift a i : 0 < i < modulus -> wrap (a + i) <> wrap a.
Proof.
  unfold wrap. rewrite modulus_eq. intros Hi E.
  pose proof (Z.div_mod (a + i) 18446744073709551616 ltac:(lia)) as H1.
  pose proof (Z.div_mod a 18446744073709551616 ltac:(lia)) as H2.
  rewrite E in H1. lia.
Qed.

Lemma upd_same m a v : upd m a v a = v.
Proof. unfold upd. rewrite Z.eqb_refl. reflexivity. Qed.

Lemma upd_other m a v x : x <> a -> upd m a v x = m x.
Proof. intros H. unfold upd. apply Z.eqb_neq in H. rewrite H. reflexivity. Qed.

(** A store leaves every byte outside its footprint alone. *)
Lemma store_other n : forall m a v x,
  (forall i, 0 <= i < Z.of_nat n -> wrap (a + i) <> x) ->
  store n m a v x = m x.
Proof.
  induction n as [|k IH]; intros m a v x H; simpl store.
  - reflexivity.
  - rewrite IH.
    + apply upd_other. intro E. apply (H 0). lia. rewrite Z.add_0_r. congruence.
    + intros i Hi. replace (a + 1 + i) with (a + (1 + i)) by lia. apply H. lia.
Qed.

Lemma load_ext n : forall m m' a,
  (forall i, 0 <= i < Z.of_nat n -> m' (wrap (a + i)) = m (wrap (a + i))) ->
  load n m' a = load n m a.
Proof.
  induction n as [|k IH]; intros m m' a H; simpl load.
  - reflexivity.
  - rewrite (IH m m' (a + 1)).
    + specialize (H 0 ltac:(lia)). rewrite Z.add_0_r in H. rewrite H. reflexivity.
    + intros i Hi. replace (a + 1 + i) with (a + (1 + i)) by lia. apply H. lia.
Qed.

Lemma load_range n : forall m a, 0 <= load n m a < 256 ^ Z.of_nat n.
Proof.
  induction n as [|k IH]; intros m a.
  - simpl. lia.
  - rewrite Nat2Z.inj_succ, Z.pow_succ_r by lia.
    change (load (S k) m a) with ((m (wrap a)) mod 256 + 256 * load k m (a + 1)).
    specialize (IH m (a + 1)).
    pose proof (Z.mod_pos_bound (m (wrap a)) 256 ltac:(lia)).
    lia.
Qed.

Lemma load_store_same n : forall m a v,
  Z.of_nat n < modulus ->
  load n (store n m a v) a = v mod 256 ^ Z.of_nat n.
Proof.
  induction n as [|k IH]; intros m a v Hn.
  - simpl. rewrite Z.mod_1_r. reflexivity.
  - simpl load. simpl store. rewrite IH by lia.
    rewrite store_other.
    + rewrite upd_same, Z.mod_mod by lia.
      rewrite Nat2Z.inj_succ, Z.pow_succ_r by lia.
      rewrite Z.rem_mul_r by lia. reflexivity.
    + intros i Hi. replace (a + 1 + i) with (a + (1 + i)) by lia.
      apply wrap_neq_shift. lia.
Qed.

Lemma load_store_disjoint n k m a b v :
  disjoint a (Z.of_nat n) b (Z.of_nat k) ->
  load k (store n m a v) b = load k m b.
Proof.
  intros (Ha & Ha' & Hb & Hb' & D). apply load_ext. intros i Hi.
  apply store_other. intros j Hj.
  rewrite !wrap_small by lia. lia.
Qed.

(** ** Header accesses *)

Lemma fmod_word f : f <> Fcheck_free -> fmod f = modulus.
Proof. destruct f; intros H; try reflexivity. congruence. Qed.

Lemma getf_range f m a : 0 <= getf f m a < modulus.
Proof.
  unfold getf. pose proof (load_range (flen f) m (a + foff f)) as H.
  destruct f; cbn [flen] in *; rewrite modulus_eq;
    change (256 ^ Z.of_nat 8) with 18446744073709551616 in H;
    change (256 ^ Z.of_nat 4) with 4294967296 in H; lia.
Qed.

Lemma getf_setf_same f m a v : getf f (setf f m a v) a = v mod fmod f.
Proof.
  unfold getf, setf, fmod. apply load_store_same.
  rewrite modulus_eq. destruct f; cbn [flen]; lia.
Qed.

Lemma getf_setf_same_word f m a v :
  f <> Fcheck_free -> 0 <= v < modulus -> getf f (setf f m a v) a = v.
Proof.
  intros Hf Hv. rewrite getf_setf_same, fmod_word by exact Hf.
  apply Z.mod_small. exact Hv.
Qed.

Lemma getf_setf_field f g m a v :
  f <> g -> 0 <= a -> a + sizeof_md <= modulus ->
  getf f (setf g m a v) a = getf f m a.
Proof.
  intros Hfg H0 H1. unfold getf, setf. apply load_store_disjoint.
  unfold disjoint, sizeof_md in *.
  destruct f, g; try congruence; cbn [flen foff]; lia.
Qed.

Lemma getf_setf_sep f g m a b v :
  0 <= a -> a + sizeof_md <= modulus -> 0 <= b -> b + sizeof_md <= modulus ->
  hsep a b ->
  getf f (setf g m b v) a = getf f m a.
Proof.
  intros Ha Ha' Hb Hb' S. unfold getf, setf. apply load_store_disjoint.
  unfold disjoint, hsep, sizeof_md in *.
  destruct f, g; cbn [flen foff]; lia.
Qed.

(** A header write touches no byte outside the 32 bytes of that header. *)
Lemma setf_byte_other g m b v x :
  0 <= b -> b + sizeof_md <= modulus -> (x < b \/ b + sizeof_md <= x) ->
  setf g m b v x = m x.
Proof.
  intros Hb Hb' Hx. unfold setf. apply store_other. intros i Hi.
  unfold sizeof_md in *.
  rewrite wrap_small; destruct g; cbn [flen foff] in Hi |- *; lia.
Qed.

(** ** Tilings and list segments *)

Section TilesFacts.

Variable m : mem.

Lemma tiles_le : forall bl a e, tiles m a bl e -> a <= e.
Proof.
  induction bl as [|b r IH]; intros a e H; cbn [tiles] in H.
  - lia.
  - destruct H as [_ H]. apply IH in H.
    pose proof (getf_range Fsize m a). unfold sizeof_md in H. lia.
Qed.

Lemma tiles_in : forall bl a e b,
  tiles m a bl e -> In b bl -> a <= b /\ b + sizeof_md + getf Fsize m b <= e.
Proof.
  induction bl as [|x r IH]; intros a e b H Hin; cbn [tiles] in H.
  - destruct Hin.
  - destruct H as [-> H]. destruct Hin as [<-|Hin].
    + apply tiles_le in H. lia.
    + destruct (IH _ _ _ H Hin) as [H1 H2].
      pose proof (getf_range Fsize m a). unfold sizeof_md in H1. lia.
Qed.

Lemma tiles_app : forall A B a e,
  tiles m a (A ++ B) e <-> exists mid, tiles m a A mid /\ tiles m mid B e.
Proof.
  induction A as [|x r IH]; intros B a e; cbn [app tiles].
  - split.
    + intros H. exists a. split; [reflexivity|exact H].
    + intros (mid & -> & H). exact H.
  - rewrite IH. split.
    + intros (E & mid & H1 & H2). exists mid. auto.
    + intros (mid & (E & H1) & H2). split; [exact E|]. exists mid. auto.
Qed.

Lemma tiles_cmp : forall bl a e x y,
  tiles m a bl e -> In x bl -> In y bl ->
  x = y \/ x + sizeof_md + getf Fsize m x <= y
        \/ y + sizeof_md + getf Fsize m y <= x.
Proof.
  induction bl as [|b r IH]; intros a e x y H Hx Hy; cbn [tiles] in H.
  - destruct Hx.
  - destruct H as [-> H]. destruct Hx as [<-|Hx], Hy as [<-|Hy].
    + left; reflexivity.
    + right; left. apply (tiles_in _ _ _ _ H Hy).
    + right; right. apply (tiles_in _ _ _ _ H Hx).
    + eapply IH; eassumption.
Qed.

Lemma tiles_nodup : forall bl a e, tiles m a bl e -> NoDup bl.
Proof.
  induction bl as [|b r IH]; intros a e H; cbn [tiles] in H.
  - constructor.
  - destruct H as [-> H]. constructor.
    + intro Hin. pose proof (tiles_in _ _ _ _ H Hin) as [H1 _].
      pose proof (getf_range Fsize m a). unfold sizeof_md in H1. lia.
    + eapply IH; eassumption.
Qed.

(** The blocks of a tiling are valid, pairwise non-overlapping headers. *)
Lemma tiles_hv bl a e b :
  0 < a -> e <= modulus -> tiles m a bl e -> In b bl -> hv b.
Proof.
  intros Ha He H Hin. destruct (tiles_in _ _ _ _ H Hin) as [H1 H2].
  pose proof (getf_range Fsize m b). unfold hv. lia.
Qed.

Lemma tiles_hsep bl a e x y :
  tiles m a bl e -> In x bl -> In y bl -> x <> y -> hsep x y.
Proof.
  intros H Hx Hy Hne. unfold hsep.
  pose proof (getf_range Fsize m x). pose proof (getf_range Fsize m y).
  destruct (tiles_cmp _ _ _ _ _ H Hx Hy) as [E|[L|R]]; [congruence|lia|lia].
Qed.

End TilesFacts.

Lemma tiles_frame m m' : forall bl a e,
  (forall b, In b bl -> getf Fsize m' b = getf Fsize m b) ->
  tiles m a bl e -> tiles m' a bl e.
Proof.
  induction bl as [|b r IH]; intros a e F H; cbn [tiles] in *.
  - exact H.
  - destruct H as [-> H]. split; [reflexivity|].
    rewrite (F a) by (left; reflexivity).
    apply IH; [|exact H]. intros x Hx. apply F. right; exact Hx.
Qed.

Lemma last_cons_default : forall (r : list Z) y d d',
  last (y :: r) d = last (y :: r) d'.
Proof.
  induction r as [|z r IH]; intros y d d'; [reflexivity|].
  change (last (z :: r) d = last (z :: r) d'). apply IH.
Qed.

Lemma last_cons (r : list Z) x p : last (x :: r) p = last r x.
Proof.
  destruct r as [|y r]; [reflexivity|].
  change (last (y :: r) p = last (y :: r) x). apply last_cons_default.
Qed.

Section ListFacts.

Variable m : mem.

Lemma lseg_app : forall A B h t,
  lseg m h (A ++ B) t <-> exists mid, lseg m h A mid /\ lseg m mid B t.
Proof.
  induction A as [|x r IH]; intros B h t; cbn [app lseg].
  - split.
    + intros H. exists h. split; [reflexivity|exact H].
    + intros (mid & -> & H). exact H.
  - rewrite IH. split.
    + intros (E & N & mid & H1 & H2). exists mid. auto.
    + intros (mid & (E & N & H1) & H2). repeat split; auto. exists mid. auto.
Qed.

Lemma pseg_app : forall A B p,
  pseg m p (A ++ B) <-> pseg m p A /\ pseg m (last A p) B.
Proof.
  induction A as [|x r IH]; intros B p.
  - cbn. tauto.
  - cbn [app pseg]. rewrite IH, last_cons. tauto.
Qed.

(** The head of a null-terminated list is [NULL] exactly when it is empty. *)
Lemma lseg_head : forall L h, lseg m h L NULL -> h = hd NULL L.
Proof. destruct L; cbn; intros h H; tauto. Qed.

End ListFacts.

Lemma lseg_frame m m' : forall L h t,
  (forall x, In x L -> getf Fnext m' x = getf Fnext m x) ->
  lseg m h L t -> lseg m' h L t.
Proof.
  induction L as [|x r IH]; intros h t F H; cbn [lseg] in *.
  - exact H.
  - destruct H as (E & N & H). repeat split; auto.
    rewrite (F x) by (left; reflexivity).
    apply IH; [|exact H]. intros y Hy. apply F. right; exact Hy.
Qed.

Lemma pseg_frame m m' : forall L p,
  (forall x, In x L -> getf Fprev m' x = getf Fprev m x) ->
  pseg m p L -> pseg m' p L.
Proof.
  induction L as [|x r IH]; intros p F H; cbn [pseg] in *.
  - exact H.
  - destruct H as (E & H). split.
    + rewrite F; [exact E|left; reflexivity].
    + apply IH; [|exact H]. intros y Hy. apply F. right; exact Hy.
Qed.

(** ** Header reads after header writes *)

Ltac zsolve :=
  unfold hv, hsep, sizeof_md, NULL, CAP in *; rewrite ?modulus_eq in *; lia.

Lemma fmod_ge g : 4294967296 <= fmod g.
Proof. destruct g; cbv; congruence. Qed.

Lemma fits_ptr g v : g <> Fcheck_free -> 0 <= v < modulus -> fits g v.
Proof. intros Hg H. unfold fits. rewrite fmod_word by exact Hg. exact H. Qed.

Lemma fits_small g v : 0 <= v < 4294967296 -> fits g v.
Proof. intros H. unfold fits. pose proof (fmod_ge g). lia. Qed.

Section Good.

Variable G : list Z.
Hypothesis HG : hgood G.

Lemma good_hv a : In a G -> hv a.
Proof. apply HG. Qed.

Lemma good_range a : In a G -> 0 <= a < modulus.
Proof. intros H. apply good_hv in H. zsolve. Qed.

Lemma good_nonnull a : In a G -> a <> NULL.
Proof. intros H. apply good_hv in H. zsolve. Qed.

Lemma getf_setf_good f g m a b v :
  In a G -> In b G -> fits g v ->
  getf f (setf g m b v) a =
  if (a =? b) && field_eqb f g then v else getf f m a.
Proof.
  intros Ha Hb Hv.
  pose proof (good_hv _ Ha) as Va. pose proof (good_hv _ Hb) as Vb.
  destruct (Z.eqb_spec a b) as [->|Hne]; cbn [andb].
  - destruct (field_eqb f g) eqn:E.
    + assert (f = g) as -> by (destruct f, g; cbn in E; congruence).
      rewrite getf_setf_same. apply Z.mod_small. exact Hv.
    + apply getf_setf_field; [|zsolve|zsolve].
      intros ->. destruct g; cbn in E; congruence.
  - apply getf_setf_sep; try zsolve. apply HG; assumption.
Qed.

Lemma setf_outside g m b v x :
  In b G -> outside G x -> setf g m b v x = m x.
Proof.
  intros Hb Hx. pose proof (good_hv _ Hb).
  apply setf_byte_other; [zsolve|zsolve|]. apply Hx. exact Hb.
Qed.

End Good.

(** ** Effect of the free-list primitives on a good family of headers *)

Section ListOps.

Variable G : list Z.
Hypothesis HG : hgood G.

Ltac fits_tac :=
  first [ apply fits_small; lia
        | apply fits_ptr; [discriminate | first [apply getf_range | apply (good_range G HG); assumption | zsolve]] ].

Ltac grw := rewrite ?(getf_setf_good G HG) by first [assumption | fits_tac].

Lemma insert_fields s b a :
  In b G -> In a G -> (free_list s = NULL \/ In (free_list s) G) ->
  free_list s <> b ->
  let m := memory s in
  let m' := memory (insert_into_free_list s b) in
  getf Fsize m' a = getf Fsize m a /\
  getf Fcheck_free m' a = (if a =? b then 1 else getf Fcheck_free m a) /\
  getf Fnext m' a = (if a =? b then free_list s else getf Fnext m a) /\
  getf Fprev m' a =
    (if a =? b then NULL else if a =? free_list s then b else getf Fprev m a).
Proof.
  intros Hb Ha Hh Hne m m'. subst m m'. unfold insert_into_free_list.
  cbn [memory].
  assert (Hfl : 0 <= free_list s < modulus).
  { destruct Hh as [-> | Hh]; [zsolve | apply (good_range G HG); exact Hh]. }
  destruct (Z.eqb_spec (free_list s) NULL) as [E|E].
  - pose proof (good_nonnull G HG _ Ha).
    repeat split; grw; cbn [field_eqb]; rewrite ?andb_false_r, ?andb_true_r;
      destruct (Z.eqb_spec a b); try reflexivity.
    destruct (Z.eqb_spec a (free_list s)); [congruence|reflexivity].
  - destruct Hh as [Hh|Hh]; [contradiction|].
    repeat split; grw; cbn [field_eqb]; rewrite ?andb_false_r, ?andb_true_r;
      destruct (Z.eqb_spec a b); destruct (Z.eqb_spec a (free_list s));
      try reflexivity; try congruence.
Qed.

Lemma insert_outside s b x :
  In b G -> (free_list s = NULL \/ In (free_list s) G) -> outside G x ->
  memory (insert_into_free_list s b) x = memory s x.
Proof.
  intros Hb Hh Hx. unfold insert_into_free_list. cbn [memory].
  destruct (Z.eqb_spec (free_list s) NULL) as [E|E].
  - rewrite !(setf_outside G HG) by assumption. reflexivity.
  - destruct Hh as [Hh|Hh]; [contradiction|].
    rewrite !(setf_outside G HG) by assumption. reflexivity.
Qed.

Lemma remove_fields s x a :
  let m := memory s in
  let px := getf Fprev m x in
  let nx := getf Fnext m x in
  let s' := remove_from_free_list s x in
  In x G -> In a G ->
  (px = NULL \/ In px G) -> (nx = NULL \/ In nx G) -> px <> x -> nx <> x ->
  base s' = base s /\ used s' = used s /\
  free_list s' = (if px =? NULL then nx else free_list s) /\
  getf Fsize (memory s') a = getf Fsize m a /\
  getf Fcheck_free (memory s') a = getf Fcheck_free m a /\
  getf Fnext (memory s') a = (if a =? px then nx else getf Fnext m a) /\
  getf Fprev (memory s') a = (if a =? nx then px else getf Fprev m a).
Proof.
  intros m px nx s' Hx Ha Hp Hn Hpx Hnx. subst s'.
  unfold remove_from_free_list, with_mem. fold m. fold px. fold nx.
  pose proof (good_nonnull G HG _ Ha) as Ha0.
  destruct (Z.eqb_spec px NULL) as [Ep|Ep].
  - cbn [memory]. fold nx.
    destruct (Z.eqb_spec nx NULL) as [En|En]; cbn [base used free_list memory].
    + repeat split; try reflexivity.
      * destruct (Z.eqb_spec a px); [congruence|reflexivity].
      * destruct (Z.eqb_spec a nx); [congruence|reflexivity].
    + destruct Hn as [Hn|Hn]; [contradiction|]. fold px.
      repeat split; grw; cbn [field_eqb];
        rewrite ?andb_false_r, ?andb_true_r; try reflexivity.
      destruct (Z.eqb_spec a px); [congruence|reflexivity].
  - destruct Hp as [Hp|Hp]; [contradiction|].
    cbn [memory base used free_list].
    assert (E1 : getf Fnext (setf Fnext m px nx) x = nx).
    { grw. destruct (Z.eqb_spec x px); [congruence|reflexivity]. }
    assert (E2 : getf Fprev (setf Fnext m px nx) x = px).
    { grw. cbn [field_eqb]. rewrite andb_false_r. reflexivity. }
    rewrite E1, E2.
    destruct (Z.eqb_spec nx NULL) as [En|En]; cbn [base used free_list memory].
    + repeat split; grw; cbn [field_eqb];
        rewrite ?andb_false_r, ?andb_true_r; try reflexivity.
      destruct (Z.eqb_spec a nx); [congruence|reflexivity].
    + destruct Hn as [Hn|Hn]; [contradiction|].
      repeat split; grw; cbn [field_eqb];
        rewrite ?andb_false_r, ?andb_true_r; reflexivity.
Qed.

Lemma remove_outside s x y :
  let m := memory s in
  let px := getf Fprev m x in
  let nx := getf Fnext m x in
  In x G ->
  (px = NULL \/ In px G) -> (nx = NULL \/ In nx G) -> px <> x -> nx <> x ->
  outside G y ->
  memory (remove_from_free_list s x) y = m y.
Proof.
  intros m px nx Hx Hp Hn Hpx Hnx Hy.
  unfold remove_from_free_list, with_mem. fold m. fold px. fold nx.
  destruct (Z.eqb_spec px NULL) as [Ep|Ep].
  - cbn [memory]. fold nx.
    destruct (Z.eqb_spec nx NULL) as [En|En]; cbn [memory].
    + reflexivity.
    + destruct Hn as [Hn|Hn]; [contradiction|].
      rewrite (setf_outside G HG) by assumption. reflexivity.
  - destruct Hp as [Hp|Hp]; [contradiction|].
    cbn [memory base used free_list].
    assert (E1 : getf Fnext (setf Fnext m px nx) x = nx).
    { grw. destruct (Z.eqb_spec x px); [congruence|reflexivity]. }
    rewrite E1.
    destruct (Z.eqb_spec nx NULL) as [En|En]; cbn [memory].
    + rewrite (setf_outside G HG) by assumption. reflexivity.
    + destruct Hn as [Hn|Hn]; [contradiction|].
      rewrite !(setf_outside G HG) by assumption. reflexivity.
Qed.

End ListOps.

(** ** The free list as a sequence of header addresses *)

Lemma flist_head m h L : flist m h L -> h = hd NULL L.
Proof. intros (H & _). eapply lseg_head; eassumption. Qed.

Lemma hd_in_or_null (L : list Z) : hd NULL L = NULL \/ In (hd NULL L) L.
Proof. destruct L; cbn; auto. Qed.

Lemma last_in_or_null (L : list Z) : last L NULL = NULL \/ In (last L NULL) L.
Proof.
  destruct L as [|x r]; [left; reflexivity|right].
  revert x. induction r as [|y r IH]; intros x.
  - left; reflexivity.
  - right. change (In (last (y :: r) NULL) (y :: r)). apply IH.
Qed.

Lemma flist_split m h A x B :
  flist m h (A ++ x :: B) ->
  getf Fprev m x = last A NULL /\ getf Fnext m x = hd NULL B /\
  lseg m (hd NULL B) B NULL /\ pseg m x B.
Proof.
  intros (Hl & Hp & _).
  apply lseg_app in Hl. destruct Hl as (mid & _ & Hl).
  cbn [lseg] in Hl. destruct Hl as (_ & _ & Hl).
  apply pseg_app in Hp. destruct Hp as (_ & Hp & Hp').
  pose proof (lseg_head _ _ _ Hl) as E. rewrite <- E. auto.
Qed.

Section FreeList.

Variable G : list Z.
Hypothesis HG : hgood G.

Lemma insert_flist s b L :
  flist (memory s) (free_list s) L ->
  (forall x, In x L -> In x G) -> In b G -> ~ In b L ->
  flist (memory (insert_into_free_list s b)) b (b :: L).
Proof.
  intros HL Hsub Hb Hnb.
  pose proof (flist_head _ _ _ HL) as Eh.
  destruct HL as (Hl & Hp & Hnd).
  assert (Hh : free_list s = NULL \/ In (free_list s) G).
  { rewrite Eh. destruct (hd_in_or_null L) as [E|E]; auto. }
  assert (Hne : free_list s <> b).
  { rewrite Eh. destruct (hd_in_or_null L) as [E|E]; [|congruence].
    rewrite E. apply not_eq_sym, (good_nonnull G HG). exact Hb. }
  assert (F : forall a, In a G ->
    getf Fnext (memory (insert_into_free_list s b)) a =
      (if a =? b then free_list s else getf Fnext (memory s) a) /\
    getf Fprev (memory (insert_into_free_list s b)) a =
      (if a =? b then NULL else if a =? free_list s then b
       else getf Fprev (memory s) a)).
  { intros a Ha. pose proof (insert_fields G HG s b a Hb Ha Hh Hne) as H.
    cbv zeta in H. tauto. }
  split; [|split].
  - cbn [lseg]. split; [reflexivity|]. split; [apply (good_nonnull G HG); exact Hb|].
    destruct (F b Hb) as [-> _]. rewrite Z.eqb_refl.
    eapply lseg_frame; [|exact Hl]. intros x Hx.
    destruct (F x (Hsub x Hx)) as [-> _].
    destruct (Z.eqb_spec x b); [congruence|reflexivity].
  - cbn [pseg]. split.
    + destruct (F b Hb) as [_ ->]. rewrite Z.eqb_refl. reflexivity.
    + destruct L as [|x r]; [exact I|].
      cbn [hd] in Eh. cbn [pseg] in Hp |- *. destruct Hp as [_ Hp]. split.
      * destruct (F x (Hsub x (or_introl eq_refl))) as [_ ->].
        destruct (Z.eqb_spec x b) as [E|_]; [exfalso; apply Hnb; left; exact E|].
        rewrite Eh, Z.eqb_refl. reflexivity.
      * eapply pseg_frame; [|exact Hp]. intros y Hy.
        destruct (F y (Hsub y (or_intror Hy))) as [_ ->].
        destruct (Z.eqb_spec y b) as [E|_];
          [exfalso; apply Hnb; right; congruence|].
        destruct (Z.eqb_spec y (free_list s)) as [E|_]; [|reflexivity].
        inversion Hnd; subst. congruence.
  - constructor; assumption.
Qed.

Lemma NoDup_mid (A B : list Z) x :
  NoDup (A ++ x :: B) -> ~ In x A /\ ~ In x B /\ NoDup (A ++ B).
Proof.
  intros H. pose proof (NoDup_remove_1 _ _ _ H) as H1.
  pose proof (NoDup_remove_2 _ _ _ H) as H2.
  rewrite in_app_iff in H2. tauto.
Qed.

(** What [remove_from_free_list] reads at a member of a well-formed list. *)
Lemma remove_pre m h A x B :
  flist m h (A ++ x :: B) -> (forall y, In y (A ++ x :: B) -> In y G) ->
  let px := getf Fprev m x in
  let nx := getf Fnext m x in
  px = last A NULL /\ nx = hd NULL B /\
  (px = NULL \/ In px A) /\ (nx = NULL \/ In nx B) /\
  (px = NULL \/ In px G) /\ (nx = NULL \/ In nx G) /\ px <> x /\ nx <> x.
Proof.
  intros HL Hsub px nx.
  destruct (flist_split _ _ _ _ _ HL) as (Ep & En & _).
  destruct HL as (_ & _ & Hnd). apply NoDup_mid in Hnd.
  destruct Hnd as (HxA & HxB & _).
  assert (Hx : x <> NULL).
  { apply (good_nonnull G HG), Hsub, in_or_app. right; left; reflexivity. }
  fold px in Ep. fold nx in En.
  assert (Pa : px = NULL \/ In px A) by (rewrite Ep; apply last_in_or_null).
  assert (Na : nx = NULL \/ In nx B) by (rewrite En; apply hd_in_or_null).
  repeat split; auto.
  - destruct Pa as [E|E]; [left; exact E|right].
    apply Hsub, in_or_app. left; exact E.
  - destruct Na as [E|E]; [left; exact E|right].
    apply Hsub, in_or_app. right; right; exact E.
  - destruct Pa as [E|E]; congruence.
  - destruct Na as [E|E]; congruence.
Qed.

Lemma remove_flist s A x B :
  flist (memory s) (free_list s) (A ++ x :: B) ->
  (forall y, In y (A ++ x :: B) -> In y G) ->
  flist (memory (remove_from_free_list s x))
        (free_list (remove_from_free_list s x)) (A ++ B).
Proof.
  intros HL Hsub.
  destruct (remove_pre _ _ _ _ _ HL Hsub)
    as (Ep & En & Pa & Na & Pg & Ng & Pne & Nne).
  assert (Hx : In x G) by (apply Hsub, in_or_app; right; left; reflexivity).
  assert (F : forall a, In a G ->
    getf Fnext (memory (remove_from_free_list s x)) a =
      (if a =? getf Fprev (memory s) x then getf Fnext (memory s) x
       else getf Fnext (memory s) a) /\
    getf Fprev (memory (remove_from_free_list s x)) a =
      (if a =? getf Fnext (memory s) x then getf Fprev (memory s) x
       else getf Fprev (memory s) a)).
  { intros a Ha. pose proof (remove_fields G HG s x a Hx Ha Pg Ng Pne Nne) as H.
    cbv zeta in H. tauto. }
  assert (Efl : free_list (remove_from_free_list s x) =
                if getf Fprev (memory s) x =? NULL
                then getf Fnext (memory s) x else free_list s).
  { pose proof (remove_fields G HG s x x Hx Hx Pg Ng Pne Nne) as H.
    cbv zeta in H. tauto. }
  pose proof (flist_split _ _ _ _ _ HL) as (_ & _ & HlB & HpB).
  pose proof HL as (Hl & Hp & Hnd).
  destruct (NoDup_mid _ _ _ Hnd) as (HxA & HxB & Hnd').
  assert (SA : forall y, In y A -> In y G)
    by (intros y Hy; apply Hsub, in_or_app; left; exact Hy).
  assert (SB : forall y, In y B -> In y G)
    by (intros y Hy; apply Hsub, in_or_app; right; right; exact Hy).
  assert (DAB : forall y, In y A -> In y B -> False).
  { intros y Hy Hy'. apply NoDup_remove_1 in Hnd.
    revert Hy Hy' Hnd. clear. induction A as [|z r IH]; intros Hy Hy' Hnd.
    - destruct Hy.
    - cbn [app] in Hnd. inversion Hnd; subst. destruct Hy as [<-|Hy].
      + apply H1, in_or_app. right; exact Hy'.
      + apply IH; assumption. }
  (* the [next] chain through the part after [x] *)
  assert (LB : lseg (memory (remove_from_free_list s x))
                    (getf Fnext (memory s) x) B NULL).
  { rewrite En. eapply lseg_frame; [|exact HlB]. intros y Hy.
    destruct (F y (SB y Hy)) as [-> _].
    destruct (Z.eqb_spec y (getf Fprev (memory s) x)) as [E|_]; [|reflexivity].
    exfalso. destruct Pa as [Pz|Pin].
    - apply (good_nonnull G HG y (SB y Hy)). congruence.
    - apply (DAB y); [congruence|exact Hy]. }
  split; [|split].
  - rewrite Efl. destruct (Z.eqb_spec (getf Fprev (memory s) x) NULL) as [Ez|Ez].
    + (* [x] was the head *)
      destruct A as [|a0 A'].
      * exact LB.
      * exfalso. rewrite Ep in Ez.
        destruct (last_in_or_null (a0 :: A')) as [E|E].
        -- pose proof (@app_removelast_last _ (a0 :: A') NULL ltac:(discriminate)) as R.
           assert (In (last (a0 :: A') NULL) (a0 :: A')).
           { rewrite R at 2. apply in_or_app. right; left; reflexivity. }
           apply (good_nonnull G HG _ (SA _ H)). exact Ez.
        -- apply (good_nonnull G HG _ (SA _ E)). exact Ez.
    + (* [x] had a predecessor [y], the last element of [A] *)
      destruct (@exists_last _ A) as (A' & y & EA).
      { intros ->. apply Ez. exact Ep. }
      subst A. rewrite last_last in Ep.
      rewrite <- app_assoc in Hl |- *. cbn [app] in Hl |- *.
      apply lseg_app in Hl. destruct Hl as (mid & H1 & H2).
      apply lseg_app. exists mid. split.
      * eapply lseg_frame; [|exact H1]. intros z Hz.
        assert (Hz' : In z (A' ++ [y])) by (apply in_or_app; left; exact Hz).
        destruct (F z (SA z Hz')) as [-> _].
        destruct (Z.eqb_spec z (getf Fprev (memory s) x)) as [E|_]; [|reflexivity].
        exfalso. rewrite Ep in E. subst z.
        rewrite <- app_assoc in Hnd'. cbn [app] in Hnd'.
        apply NoDup_remove_2 in Hnd'. apply Hnd', in_or_app. left; exact Hz.
      * cbn [lseg] in H2 |- *. destruct H2 as (E1 & N1 & _).
        split; [exact E1|]. split; [exact N1|].
        assert (Hy : In y (A' ++ [y])) by (apply in_or_app; right; left; reflexivity).
        destruct (F y (SA y Hy)) as [-> _].
        rewrite Ep, Z.eqb_refl. exact LB.
  - apply pseg_app. apply pseg_app in Hp. destruct Hp as (HpA & _). split.
    + eapply pseg_frame; [|exact HpA]. intros z Hz.
      destruct (F z (SA z Hz)) as [_ ->].
      destruct (Z.eqb_spec z (getf Fnext (memory s) x)) as [E|_]; [|reflexivity].
      exfalso. destruct Na as [Nz|Nin].
      * apply (good_nonnull G HG z (SA z Hz)). congruence.
      * apply (DAB z); [exact Hz|congruence].
    + rewrite <- Ep. destruct B as [|z r]; [exact I|].
      cbn [hd] in En. cbn [pseg] in HpB |- *. destruct HpB as [_ HpB].
      assert (Hz : In z (z :: r)) by (left; reflexivity). split.
      * destruct (F z (SB z Hz)) as [_ ->]. rewrite En, Z.eqb_refl. reflexivity.
      * eapply pseg_frame; [|exact HpB]. intros w Hw.
        destruct (F w (SB w (or_intror Hw))) as [_ ->].
        destruct (Z.eqb_spec w (getf Fnext (memory s) x)) as [E|_]; [|reflexivity].
        exfalso. rewrite En in E. subst w.
        apply NoDup_remove_1 in Hnd. apply NoDup_app_remove_l in Hnd.
        inversion Hnd; subst. contradiction.
  - exact Hnd'.
Qed.

End FreeList.

(** ** Consequences of the invariant *)

Section WfFacts.

Variables (s : state) (bl L : list Z).
Hypothesis W : wf s bl L.

Lemma wf_hgood : hgood bl.
Proof.
  destruct W. split.
  - intros a Ha. eapply tiles_hv; [exact wf_base0| |exact wf_tiles0|exact Ha]. lia.
  - intros a b Ha Hb Hne. eapply tiles_hsep; eassumption.
Qed.

Lemma wf_sub x : In x L -> In x bl.
Proof. intros H. apply (wf_member _ _ _ W) in H. tauto. Qed.

Lemma wf_block_bounds b :
  In b bl ->
  base s <= b /\ b + sizeof_md + getf Fsize (memory s) b <= base s + used s.
Proof. intros H. eapply tiles_in; [apply (wf_tiles _ _ _ W)|exact H]. Qed.

Lemma wf_wrap_end : wrap (base s + used s) = base s + used s.
Proof. destruct W. apply wrap_small. lia. Qed.

Lemma wf_live_ptr p :
  live s bl p ->
  p <> NULL /\ 0 <= p < modulus /\ wrap (p - sizeof_md) = p - sizeof_md.
Proof.
  intros [Hin _]. pose proof (wf_hgood) as HG.
  pose proof (good_hv _ HG _ Hin) as Hv.
  pose proof (wf_block_bounds _ Hin) as [B1 B2].
  pose proof (getf_range Fsize (memory s) (p - sizeof_md)).
  destruct W. repeat split; try zsolve.
  apply wrap_small. zsolve.
Qed.

End WfFacts.

(** ** The first-fit scan *)

Lemma find_fit_skip m size : forall A h t fuel k,
  lseg m h A t ->
  (forall y, In y A -> getf Fsize m y < size) ->
  fuel = (length A + k)%nat ->
  find_fit fuel m h size = find_fit k m t size.
Proof.
  induction A as [|x r IH]; intros h t fuel k Hl Hs ->; cbn [lseg] in Hl.
  - subst h. reflexivity.
  - destruct Hl as (-> & Hx & Hl). cbn [length Nat.add find_fit].
    destruct (Z.eqb_spec x NULL) as [E|_]; [contradiction|].
    specialize (Hs x (or_introl eq_refl)) as Hsx.
    destruct (Z.leb_spec size (getf Fsize m x)) as [Hle|_]; [lia|].
    apply (IH _ t); [exact Hl| |reflexivity].
    intros y Hy. apply Hs. right; exact Hy.
Qed.

Lemma find_fit_found m size A x B h fuel :
  lseg m h (A ++ x :: B) NULL ->
  (forall y, In y A -> getf Fsize m y < size) ->
  size <= getf Fsize m x ->
  (length A < fuel)%nat ->
  find_fit fuel m h size = Some x.
Proof.
  intros Hl Hs Hx Hf. apply lseg_app in Hl. destruct Hl as (mid & H1 & H2).
  rewrite (find_fit_skip m size A h mid fuel (fuel - length A) H1 Hs) by lia.
  cbn [lseg] in H2. destruct H2 as (-> & Hn & _).
  destruct (fuel - length A)%nat as [|k] eqn:E; [lia|]. cbn [find_fit].
  destruct (Z.eqb_spec x NULL) as [E0|_]; [contradiction|].
  destruct (Z.leb_spec size (getf Fsize m x)) as [_|Hlt]; [reflexivity|lia].
Qed.

Lemma find_fit_none m size L h fuel :
  lseg m h L NULL ->
  (forall y, In y L -> getf Fsize m y < size) ->
  (length L < fuel)%nat ->
  find_fit fuel m h size = Some NULL.
Proof.
  intros Hl Hs Hf.
  rewrite (find_fit_skip m size L h NULL fuel (fuel - length L) Hl Hs) by lia.
  destruct (fuel - length L)%nat as [|k] eqn:E; [lia|]. reflexivity.
Qed.

(** ** [mymalloc] on a well-formed state *)

Lemma In_mid_iff (A B : list Z) x b :
  NoDup (A ++ x :: B) -> (In b (A ++ B) <-> In b (A ++ x :: B) /\ b <> x).
Proof.
  intros Hnd. destruct (NoDup_mid _ _ _ Hnd) as (HA & HB & _).
  rewrite !in_app_iff. cbn [In]. split.
  - intros [H|H]; (split; [tauto|intros ->; tauto]).
  - intros [[H|[H|H]] Hne]; [tauto|congruence|tauto].
Qed.

Section MallocReuse.

Variables (s : state) (bl A B : list Z) (x size : Z) (fuel : nat).
Hypothesis W : wf s bl (A ++ x :: B).
Hypothesis Hskip : forall y, In y A -> getf Fsize (memory s) y < size.
Hypothesis Hfit : size <= getf Fsize (memory s) x.
Hypothesis Hfuel : (length A < fuel)%nat.

Let s1 := remove_from_free_list s x.
Let s' := with_mem s1 (setf Fcheck_free (memory s1) x 0).

Lemma reuse_result : mymalloc fuel s size = Some (s', x + sizeof_md).
Proof.
  unfold mymalloc.
  pose proof (wf_flist _ _ _ W) as (Hl & _).
  rewrite (find_fit_found _ _ _ _ _ _ _ Hl Hskip Hfit Hfuel).
  assert (Hx : In x bl).
  { apply (wf_sub _ _ _ W), in_or_app. right; left; reflexivity. }
  pose proof (good_nonnull _ (wf_hgood _ _ _ W) _ Hx) as Hn.
  destruct (Z.eqb_spec x NULL) as [E|_]; [contradiction|]. cbn [negb].
  pose proof (wf_block_bounds _ _ _ W _ Hx) as [B1 B2].
  pose proof (getf_range Fsize (memory s) x).
  destruct W.
  rewrite (wrap_small (x + sizeof_md)) by zsolve. reflexivity.
Qed.

Lemma reuse_fields a :
  In a bl ->
  base s' = base s /\ used s' = used s /\
  getf Fsize (memory s') a = getf Fsize (memory s) a /\
  getf Fcheck_free (memory s') a =
    (if a =? x then 0 else getf Fcheck_free (memory s) a).
Proof. clear Hskip Hfit Hfuel.
  intros Ha. pose proof (wf_hgood _ _ _ W) as HG.
  assert (Hx : In x bl).
  { apply (wf_sub _ _ _ W), in_or_app. right; left; reflexivity. }
  destruct (remove_pre bl HG _ _ _ _ _ (wf_flist _ _ _ W) (wf_sub _ _ _ W))
    as (_ & _ & _ & _ & Pg & Ng & Pne & Nne).
  pose proof (remove_fields bl HG s x a Hx Ha Pg Ng Pne Nne) as R.
  cbv zeta in R. fold s1 in R. destruct R as (R1 & R2 & _ & R4 & R5 & _).
  unfold s', with_mem. cbn [base used memory].
  rewrite !(getf_setf_good bl HG) by first [assumption | apply fits_small; lia].
  cbn [field_eqb]. rewrite andb_false_r, andb_true_r.
  repeat split; try assumption.
  destruct (Z.eqb_spec a x); [reflexivity|exact R5].
Qed.

Lemma reuse_outside y : outside bl y -> memory s' y = memory s y.
Proof. clear Hskip Hfit Hfuel.
  intros Hy. pose proof (wf_hgood _ _ _ W) as HG.
  assert (Hx : In x bl).
  { apply (wf_sub _ _ _ W), in_or_app. right; left; reflexivity. }
  destruct (remove_pre bl HG _ _ _ _ _ (wf_flist _ _ _ W) (wf_sub _ _ _ W))
    as (_ & _ & _ & _ & Pg & Ng & Pne & Nne).
  unfold s', with_mem. cbn [memory].
  rewrite (setf_outside bl HG) by assumption.
  apply (remove_outside bl HG); assumption.
Qed.

Lemma reuse_wf : wf s' bl (A ++ B).
Proof. clear Hskip Hfit Hfuel.
  pose proof (wf_hgood _ _ _ W) as HG.
  assert (Hx : In x bl).
  { apply (wf_sub _ _ _ W), in_or_app. right; left; reflexivity. }
  pose proof (remove_flist bl HG s A x B (wf_flist _ _ _ W) (wf_sub _ _ _ W)) as FL.
  fold s1 in FL.
  assert (E : base s' = base s /\ used s' = used s).
  { pose proof (reuse_fields x Hx). tauto. }
  destruct E as [Eb Eu].
  constructor; rewrite ?Eb, ?Eu; try apply W.
  - eapply tiles_frame; [|apply (wf_tiles _ _ _ W)].
    intros b Hb. pose proof (reuse_fields b Hb). tauto.
  - unfold s', with_mem. cbn [memory free_list].
    assert (Sub : forall y, In y (A ++ B) -> In y bl).
    { intros y Hy. apply (wf_sub _ _ _ W).
      apply in_app_iff in Hy. apply in_app_iff. cbn [In]. tauto. }
    destruct FL as (F1 & F2 & F3). split; [|split]; [| |exact F3].
    + eapply lseg_frame; [|exact F1]. intros y Hy.
      rewrite (getf_setf_good bl HG) by first [solve [auto] | apply fits_small; lia].
      cbn [field_eqb]. rewrite andb_false_r. reflexivity.
    + eapply pseg_frame; [|exact F2]. intros y Hy.
      rewrite (getf_setf_good bl HG) by first [solve [auto] | apply fits_small; lia].
      cbn [field_eqb]. rewrite andb_false_r. reflexivity.
  - intros b. pose proof (wf_flist _ _ _ W) as (_ & _ & Hnd).
    rewrite (In_mid_iff A B x b Hnd), (wf_member _ _ _ W b). split.
    + intros [[Hb Hf] Hne]. split; [exact Hb|].
      destruct (reuse_fields b Hb) as (_ & _ & _ & ->).
      destruct (Z.eqb_spec b x); [contradiction|exact Hf].
    + intros [Hb Hf].
      destruct (reuse_fields b Hb) as (_ & _ & _ & Ef). rewrite Ef in Hf.
      destruct (Z.eqb_spec b x); [congruence|tauto].
Qed.

End MallocReuse.

Section MallocBump.

Variables (s : state) (bl L : list Z) (size : Z) (fuel : nat).
Hypothesis W : wf s bl L.
Hypothesis Hnone : forall y, In y L -> getf Fsize (memory s) y < size.
Hypothesis Hfuel : (length L < fuel)%nat.
Hypothesis Hsize : 0 <= size.
Hypothesis Hnowrap : used s + sizeof_md + size < modulus.

Let e := base s + used s.
Let s' := mkState (base s) (used s + sizeof_md + size) (free_list s)
                  (setf Fcheck_free (setf Fsize (memory s) e size) e 0).

Lemma bump_scan : find_fit fuel (memory s) (free_list s) size = Some NULL.
Proof.
  pose proof (wf_flist _ _ _ W) as (Hl & _).
  apply (find_fit_none _ _ L); assumption.
Qed.

Lemma bump_total : wrap (used s + wrap (sizeof_md + size)) = used s + sizeof_md + size.
Proof. clear Hnone Hfuel.
  pose proof (wf_used _ _ _ W).
  rewrite (wrap_small (sizeof_md + size)) by zsolve.
  rewrite Z.add_assoc. apply wrap_small. zsolve.
Qed.

Lemma bump_fail :
  CAP < used s + sizeof_md + size -> mymalloc fuel s size = Some (s, NULL).
Proof.
  intros H. unfold mymalloc. rewrite bump_scan. cbn [Z.eqb NULL negb].
  rewrite bump_total.
  destruct (Z.ltb_spec CAP (used s + sizeof_md + size)); [reflexivity|lia].
Qed.

Hypothesis Hroom : used s + sizeof_md + size <= CAP.

Lemma bump_result : mymalloc fuel s size = Some (s', e + sizeof_md).
Proof.
  unfold mymalloc. rewrite bump_scan. cbn [Z.eqb NULL negb].
  rewrite bump_total.
  destruct (Z.ltb_spec CAP (used s + sizeof_md + size)); [lia|].
  rewrite (wf_wrap_end _ _ _ W). fold e.
  pose proof (wf_used _ _ _ W). pose proof (wf_pool _ _ _ W).
  pose proof (wf_base _ _ _ W).
  rewrite (wrap_small (e + sizeof_md)) by (unfold e; zsolve).
  reflexivity.
Qed.

Lemma bump_new_header : hv e /\ ~ In e bl.
Proof. clear Hnone Hfuel.
  pose proof (wf_used _ _ _ W). pose proof (wf_pool _ _ _ W).
  pose proof (wf_base _ _ _ W). split; [unfold e; zsolve|].
  intros Hin. destruct (wf_block_bounds _ _ _ W _ Hin) as [_ H2].
  pose proof (getf_range Fsize (memory s) e). unfold e in *. zsolve.
Qed.

Lemma bump_hgood : hgood (bl ++ [e]).
Proof. clear Hnone Hfuel.
  pose proof (wf_hgood _ _ _ W) as [G1 G2].
  destruct bump_new_header as [Hv Hn].
  assert (S : forall a, In a bl -> hsep a e).
  { intros a Ha. destruct (wf_block_bounds _ _ _ W _ Ha) as [_ H2].
    pose proof (getf_range Fsize (memory s) a). unfold e. zsolve. }
  split.
  - intros a Ha. apply in_app_iff in Ha. destruct Ha as [Ha|[<-|[]]]; auto.
  - intros a b Ha Hb Hne. apply in_app_iff in Ha, Hb.
    destruct Ha as [Ha|[<-|[]]], Hb as [Hb|[<-|[]]]; auto.
    + pose proof (S b Hb). zsolve.
    + congruence.
Qed.

Lemma bump_fields a f :
  In a bl -> getf f (memory s') a = getf f (memory s) a.
Proof. clear Hnone Hfuel.
  intros Ha. unfold s'. cbn [memory].
  destruct bump_new_header as [Hv Hn]. pose proof (wf_used _ _ _ W).
  assert (Ha' : In a (bl ++ [e])) by (apply in_or_app; left; exact Ha).
  assert (He : In e (bl ++ [e])) by (apply in_or_app; right; left; reflexivity).
  rewrite !(getf_setf_good _ bump_hgood)
    by first [assumption | apply fits_small; lia | apply fits_ptr; [discriminate|zsolve]].
  destruct (Z.eqb_spec a e) as [E|_]; [congruence|]. reflexivity.
Qed.

Lemma bump_header :
  getf Fsize (memory s') e = size /\ getf Fcheck_free (memory s') e = 0.
Proof. clear Hnone Hfuel.
  unfold s'. cbn [memory]. pose proof (wf_used _ _ _ W).
  assert (He : In e (bl ++ [e])) by (apply in_or_app; right; left; reflexivity).
  rewrite !(getf_setf_good _ bump_hgood)
    by first [assumption | apply fits_small; lia | apply fits_ptr; [discriminate|zsolve]].
  rewrite Z.eqb_refl. cbn. split; reflexivity.
Qed.

Lemma bump_bytes y :
  y < e \/ e + sizeof_md <= y -> memory s' y = memory s y.
Proof. clear Hnone Hfuel.
  intros Hy. unfold s'. cbn [memory]. destruct bump_new_header as [Hv Hn].
  rewrite !setf_byte_other by zsolve. reflexivity.
Qed.

Lemma bump_wf : wf s' (bl ++ [e]) L.
Proof. clear Hnone Hfuel.
  pose proof (wf_used _ _ _ W). pose proof (wf_pool _ _ _ W).
  pose proof (wf_base _ _ _ W).
  destruct bump_new_header as [Hv Hn]. destruct bump_header as [Es Ef].
  constructor;
    change (base s') with (base s);
    change (used s') with (used s + sizeof_md + size);
    change (free_list s') with (free_list s); try zsolve.
  - apply tiles_app. exists e. split.
    + eapply tiles_frame; [|apply (wf_tiles _ _ _ W)].
      intros b Hb. apply bump_fields. exact Hb.
    + cbn [tiles]. split; [reflexivity|]. rewrite Es. unfold e. lia.
  - destruct (wf_flist _ _ _ W) as (F1 & F2 & F3). split; [|split]; [| |exact F3].
    + eapply lseg_frame; [|exact F1]. intros y Hy.
      apply bump_fields, (wf_sub _ _ _ W), Hy.
    + eapply pseg_frame; [|exact F2]. intros y Hy.
      apply bump_fields, (wf_sub _ _ _ W), Hy.
  - intros b. rewrite (wf_member _ _ _ W b), in_app_iff. cbn [In]. split.
    + intros [Hb Hf]. split; [left; exact Hb|]. rewrite bump_fields; assumption.
    + intros [[Hb|[<-|[]]] Hf].
      * split; [exact Hb|]. rewrite bump_fields in Hf; assumption.
      * congruence.
Qed.

End MallocBump.

(** ** Physical neighbours in a tiling *)

Lemma tiles_succ m a bl e b :
  tiles m a bl e -> In b bl ->
  let nb := b + sizeof_md + getf Fsize m b in
  (nb = e /\ exists X, bl = X ++ [b]) \/
  (nb < e /\ exists X Y, bl = X ++ b :: nb :: Y).
Proof.
  intros H Hin nb. destruct (in_split _ _ Hin) as (X & Y & ->).
  pose proof H as H'. apply tiles_app in H'. destruct H' as (mid & _ & H2).
  cbn [tiles] in H2. destruct H2 as (<- & H2). fold nb in H2.
  destruct Y as [|y Y'].
  - left. cbn [tiles] in H2. split; [exact H2|]. exists X. reflexivity.
  - right. cbn [tiles] in H2. destruct H2 as (-> & H2).
    apply tiles_le in H2. pose proof (getf_range Fsize m nb).
    split; [unfold sizeof_md in *; lia|]. exists X, Y'. reflexivity.
Qed.

Lemma tiles_merge m m' a X b nb Y e :
  tiles m a (X ++ b :: nb :: Y) e ->
  (forall z, In z (X ++ Y) -> getf Fsize m' z = getf Fsize m z) ->
  getf Fsize m' b = getf Fsize m b + sizeof_md + getf Fsize m nb ->
  tiles m' a (X ++ b :: Y) e.
Proof.
  intros H F Eb. apply tiles_app in H. destruct H as (mid & H1 & H2).
  cbn [tiles] in H2. destruct H2 as (E1 & E2 & H2). subst mid.
  apply tiles_app. exists b. split.
  - eapply tiles_frame; [|exact H1]. intros z Hz. apply F, in_or_app. left; exact Hz.
  - cbn [tiles]. split; [reflexivity|]. rewrite Eb.
    replace (b + sizeof_md + (getf Fsize m b + sizeof_md + getf Fsize m nb))
      with (b + sizeof_md + getf Fsize m b + sizeof_md + getf Fsize m nb) by lia.
    rewrite <- E2 in H2 |- *.
    eapply tiles_frame; [|exact H2]. intros z Hz. apply F, in_or_app. right; exact Hz.
Qed.

Lemma tiles_resize_last m m' a X b e :
  tiles m a (X ++ [b]) e ->
  (forall z, In z X -> getf Fsize m' z = getf Fsize m z) ->
  tiles m' a (X ++ [b]) (b + sizeof_md + getf Fsize m' b).
Proof.
  intros H F. apply tiles_app in H. destruct H as (mid & H1 & H2).
  cbn [tiles] in H2. destruct H2 as (<- & _).
  apply tiles_app. exists b. split.
  - eapply tiles_frame; [|exact H1]. exact F.
  - cbn [tiles]. split; reflexivity.
Qed.

(** ** [myfree] on a well-formed state *)

Section FreeInsert.

Variables (s : state) (bl L : list Z) (b : Z).
Hypothesis W : wf s bl L.
Hypothesis Hb : In b bl.
Hypothesis Hflag : getf Fcheck_free (memory s) b = 0.

Let s1 := insert_into_free_list s b.

Lemma insert_pre :
  ~ In b L /\ (free_list s = NULL \/ In (free_list s) bl) /\ free_list s <> b.
Proof.
  assert (Hnb : ~ In b L).
  { intros Hin. apply (wf_member _ _ _ W) in Hin. tauto. }
  pose proof (flist_head _ _ _ (wf_flist _ _ _ W)) as Eh.
  split; [exact Hnb|]. rewrite Eh.
  destruct (hd_in_or_null L) as [E|E].
  - split; [left; exact E|]. rewrite E.
    apply not_eq_sym, (good_nonnull _ (wf_hgood _ _ _ W)). exact Hb.
  - split; [right; apply (wf_sub _ _ _ W); exact E|congruence].
Qed.

Lemma free_insert_fields a :
  In a bl ->
  getf Fsize (memory s1) a = getf Fsize (memory s) a /\
  getf Fcheck_free (memory s1) a =
    (if a =? b then 1 else getf Fcheck_free (memory s) a).
Proof.
  intros Ha. destruct insert_pre as (_ & Hh & Hne).
  pose proof (insert_fields bl (wf_hgood _ _ _ W) s b a Hb Ha Hh Hne) as H.
  cbv zeta in H. fold s1 in H. tauto.
Qed.

Lemma free_insert_outside y : outside bl y -> memory s1 y = memory s y.
Proof.
  intros Hy. destruct insert_pre as (_ & Hh & _).
  apply (insert_outside bl (wf_hgood _ _ _ W)); assumption.
Qed.

Lemma free_insert_wf : wf s1 bl (b :: L).
Proof.
  destruct insert_pre as (Hnb & Hh & Hne).
  constructor; try apply W.
  - eapply tiles_frame; [|apply (wf_tiles _ _ _ W)].
    intros a Ha. apply free_insert_fields. exact Ha.
  - apply (insert_flist bl (wf_hgood _ _ _ W)); try assumption.
    + apply W.
    + apply (wf_sub _ _ _ W).
  - intros a. cbn [In]. rewrite (wf_member _ _ _ W a). split.
    + intros [<-|[Ha Hf]].
      * split; [exact Hb|]. destruct (free_insert_fields b Hb) as [_ ->].
        rewrite Z.eqb_refl. lia.
      * split; [exact Ha|]. destruct (free_insert_fields a Ha) as [_ ->].
        destruct (Z.eqb_spec a b); [lia|exact Hf].
    + intros [Ha Hf]. destruct (free_insert_fields a Ha) as [_ Ef].
      rewrite Ef in Hf. destruct (Z.eqb_spec a b); [left; congruence|right; tauto].
Qed.

End FreeInsert.

Section Merge.

Variables (t : state) (bl L : list Z) (b : Z).
Hypothesis W : wf t bl (b :: L).

Let nb := b + sizeof_md + getf Fsize (memory t) b.
Let e := base t + used t.

Lemma merge_head_in : In b bl.
Proof. apply (wf_sub _ _ _ W). left; reflexivity. Qed.

Lemma merge_next_addr :
  wrap (b + sizeof_md + getf Fsize (memory t) b) = nb /\ nb <= e.
Proof.
  destruct (wf_block_bounds _ _ _ W _ merge_head_in) as [B1 B2].
  pose proof (wf_base _ _ _ W). pose proof (wf_top _ _ _ W).
  pose proof (getf_range Fsize (memory t) b).
  split; [apply wrap_small; unfold sizeof_md in *; lia|exact B2].
Qed.

Lemma merge_next_last : nb = e -> merge_next t b = t.
Proof.
  intros E. unfold merge_next. destruct merge_next_addr as [Ew _]. rewrite Ew.
  rewrite (wf_wrap_end _ _ _ W). fold e.
  destruct (Z.ltb_spec nb e); [lia|]. reflexivity.
Qed.

Lemma merge_next_busy :
  getf Fcheck_free (memory t) nb = 0 -> merge_next t b = t.
Proof.
  intros E. unfold merge_next. destruct merge_next_addr as [Ew _]. rewrite Ew.
  rewrite E. cbn [Z.eqb negb]. rewrite andb_false_r. reflexivity.
Qed.

Section Absorb.

Hypothesis Hlt : nb < e.
Hypothesis Hfree : getf Fcheck_free (memory t) nb <> 0.

Lemma absorb_shape :
  exists X Y A B, bl = X ++ b :: nb :: Y /\ L = A ++ nb :: B.
Proof.
  pose proof (tiles_succ _ _ _ _ _ (wf_tiles _ _ _ W) merge_head_in) as HS.
  cbv zeta in HS. fold nb in HS. fold e in HS.
  destruct HS as [[E _]|[_ (X & Y & E)]]; [lia|].
  assert (Hin : In nb (b :: L)).
  { apply (wf_member _ _ _ W). split; [|exact Hfree].
    rewrite E. apply in_or_app. right; right; left; reflexivity. }
  destruct Hin as [Eb|Hin].
  - exfalso. pose proof (getf_range Fsize (memory t) b).
    unfold nb, sizeof_md in Eb. lia.
  - destruct (in_split _ _ Hin) as (A & B & EL). exists X, Y, A, B. auto.
Qed.

Variables (X Y A B : list Z).
Hypothesis Ebl : bl = X ++ b :: nb :: Y.
Hypothesis EL : L = A ++ nb :: B.

Let t1 := remove_from_free_list t nb.
Let v := getf Fsize (memory t) b + sizeof_md + getf Fsize (memory t) nb.
Let t2 := with_mem t1 (setf Fsize (memory t1) b v).

Lemma absorb_nb_in : In nb bl /\ nb <> b.
Proof.
  split.
  - rewrite Ebl. apply in_or_app. right; right; left; reflexivity.
  - pose proof (getf_range Fsize (memory t) b). unfold nb, sizeof_md. lia.
Qed.

Lemma absorb_remove a :
  In a bl ->
  base t1 = base t /\ used t1 = used t /\
  getf Fsize (memory t1) a = getf Fsize (memory t) a /\
  getf Fcheck_free (memory t1) a = getf Fcheck_free (memory t) a.
Proof.
  intros Ha. pose proof (wf_hgood _ _ _ W) as HG.
  destruct absorb_nb_in as [Hn _].
  assert (FL : flist (memory t) (free_list t) ((b :: A) ++ nb :: B)).
  { cbn [app]. rewrite <- EL. apply W. }
  assert (Sub : forall y, In y ((b :: A) ++ nb :: B) -> In y bl).
  { cbn [app]. rewrite <- EL. apply (wf_sub _ _ _ W). }
  destruct (remove_pre bl HG _ _ _ _ _ FL Sub)
    as (_ & _ & _ & _ & Pg & Ng & Pne & Nne).
  pose proof (remove_fields bl HG t nb a Hn Ha Pg Ng Pne Nne) as R.
  cbv zeta in R. fold t1 in R. tauto.
Qed.

Lemma absorb_value :
  wrap (getf Fsize (memory t1) b
        + (sizeof_md + getf Fsize (memory t1) nb)) = v /\ 0 <= v < modulus.
Proof.
  destruct absorb_nb_in as [Hn _].
  destruct (absorb_remove b merge_head_in) as (_ & _ & -> & _).
  destruct (absorb_remove nb Hn) as (_ & _ & -> & _).
  destruct (wf_block_bounds _ _ _ W _ Hn) as [B1 B2].
  destruct (wf_block_bounds _ _ _ W _ merge_head_in) as [B3 B4].
  pose proof (wf_base _ _ _ W). pose proof (wf_top _ _ _ W).
  pose proof (getf_range Fsize (memory t) b).
  pose proof (getf_range Fsize (memory t) nb).
  assert (R : 0 <= v < modulus) by (unfold v, nb, sizeof_md in *; lia).
  split; [|exact R]. rewrite Z.add_assoc. apply wrap_small. exact R.
Qed.

Lemma absorb_result : merge_next t b = t2.
Proof.
  unfold merge_next. destruct merge_next_addr as [Ew _]. rewrite Ew.
  rewrite (wf_wrap_end _ _ _ W). fold e.
  destruct (Z.ltb_spec nb e); [|lia].
  destruct (Z.eqb_spec (getf Fcheck_free (memory t) nb) 0); [contradiction|].
  cbn [andb negb]. fold t1. destruct absorb_value as [Ev _]. rewrite Ev. reflexivity.
Qed.

Lemma absorb_fields a :
  In a bl ->
  base t2 = base t /\ used t2 = used t /\
  getf Fsize (memory t2) a = (if a =? b then v else getf Fsize (memory t) a) /\
  getf Fcheck_free (memory t2) a = getf Fcheck_free (memory t) a.
Proof.
  intros Ha. pose proof (wf_hgood _ _ _ W) as HG.
  destruct (absorb_remove a Ha) as (R1 & R2 & R3 & R4).
  destruct absorb_value as [_ Hv].
  unfold t2, with_mem. cbn [base used memory].
  rewrite !(getf_setf_good bl HG)
    by first [assumption | apply merge_head_in | apply fits_ptr; [discriminate|exact Hv]].
  cbn [field_eqb]. rewrite andb_false_r, andb_true_r.
  repeat split; try assumption.
  destruct (Z.eqb_spec a b); [reflexivity|exact R3].
Qed.

Lemma absorb_outside y : outside bl y -> memory t2 y = memory t y.
Proof.
  intros Hy. pose proof (wf_hgood _ _ _ W) as HG.
  destruct absorb_nb_in as [Hn _].
  assert (FL : flist (memory t) (free_list t) ((b :: A) ++ nb :: B)).
  { cbn [app]. rewrite <- EL. apply W. }
  assert (Sub : forall y, In y ((b :: A) ++ nb :: B) -> In y bl).
  { cbn [app]. rewrite <- EL. apply (wf_sub _ _ _ W). }
  destruct (remove_pre bl HG _ _ _ _ _ FL Sub)
    as (_ & _ & _ & _ & Pg & Ng & Pne & Nne).
  unfold t2, with_mem. cbn [memory].
  rewrite (setf_outside bl HG) by first [assumption | apply merge_head_in].
  apply (remove_outside bl HG); assumption.
Qed.

Lemma absorb_wf : wf t2 (X ++ b :: Y) (b :: A ++ B).
Proof.
  pose proof (wf_hgood _ _ _ W) as HG.
  destruct absorb_nb_in as [Hn Hnb].
  assert (FL : flist (memory t) (free_list t) ((b :: A) ++ nb :: B)).
  { cbn [app]. rewrite <- EL. apply W. }
  assert (Sub : forall y, In y ((b :: A) ++ nb :: B) -> In y bl).
  { cbn [app]. rewrite <- EL. apply (wf_sub _ _ _ W). }
  pose proof (remove_flist bl HG t (b :: A) nb B FL Sub) as FL1. fold t1 in FL1.
  destruct (absorb_fields b merge_head_in) as (Eb & Eu & _).
  pose proof (tiles_nodup _ _ _ _ (wf_tiles _ _ _ W)) as Hnd.
  rewrite Ebl in Hnd.
  assert (Hnd2 : NoDup ((X ++ [b]) ++ nb :: Y)).
  { rewrite <- app_assoc. exact Hnd. }
  assert (Sub2 : forall y, In y (X ++ b :: Y) -> In y bl /\ y <> nb).
  { intros y Hy.
    assert (Hy' : In y ((X ++ [b]) ++ Y)) by (rewrite <- app_assoc; exact Hy).
    apply (In_mid_iff _ _ _ _ Hnd2) in Hy'. rewrite <- app_assoc in Hy'.
    cbn [app] in Hy'. rewrite <- Ebl in Hy'. exact Hy'. }
  constructor; rewrite ?Eb, ?Eu; try apply W.
  - pose proof (wf_tiles _ _ _ W) as T. rewrite Ebl in T.
    eapply tiles_merge; [exact T| |].
    + intros z Hz.
      assert (Hz' : In z (X ++ b :: Y)).
      { apply in_app_iff in Hz. apply in_app_iff. cbn [In]. tauto. }
      destruct (Sub2 z Hz') as [Hzb _].
      destruct (absorb_fields z Hzb) as (_ & _ & -> & _).
      destruct (Z.eqb_spec z b) as [->|_]; [|reflexivity].
      exfalso. apply NoDup_remove_2 in Hnd. apply Hnd.
      apply in_app_iff in Hz. apply in_app_iff. cbn [In]. tauto.
    + destruct (absorb_fields b merge_head_in) as (_ & _ & -> & _).
      rewrite Z.eqb_refl. reflexivity.
  - unfold t2, with_mem. cbn [memory free_list].
    destruct absorb_value as [_ Hv].
    destruct FL1 as (F1 & F2 & F3). cbn [app] in F1, F2, F3.
    assert (Sub3 : forall y, In y (b :: A ++ B) -> In y bl).
    { intros y Hy. apply Sub. cbn [app In] in Hy |- *.
      rewrite in_app_iff in Hy |- *. cbn [In]. tauto. }
    split; [|split]; [| |exact F3].
    + eapply lseg_frame; [|exact F1]. intros y Hy.
      rewrite (getf_setf_good bl HG)
        by first [solve [auto] | apply merge_head_in | apply fits_ptr; [discriminate|exact Hv]].
      cbn [field_eqb]. rewrite andb_false_r. reflexivity.
    + eapply pseg_frame; [|exact F2]. intros y Hy.
      rewrite (getf_setf_good bl HG)
        by first [solve [auto] | apply merge_head_in | apply fits_ptr; [discriminate|exact Hv]].
      cbn [field_eqb]. rewrite andb_false_r. reflexivity.
  - intros a. pose proof (wf_flist _ _ _ W) as (_ & _ & HndL).
    assert (HndL' : NoDup ((b :: A) ++ nb :: B)) by (cbn [app]; rewrite <- EL; exact HndL).
    change (b :: A ++ B) with ((b :: A) ++ B).
    rewrite (In_mid_iff _ _ _ a HndL'). cbn [app]. rewrite <- EL.
    rewrite (wf_member _ _ _ W a). split.
    + intros [[Ha Hf] Hne]. split.
      * rewrite Ebl in Ha. apply in_app_iff in Ha. apply in_app_iff.
        cbn [In] in Ha |- *. destruct Ha as [Ha|[Ha|[Ha|Ha]]]; auto. congruence.
      * destruct (absorb_fields a Ha) as (_ & _ & _ & ->). exact Hf.
    + intros [Ha Hf]. destruct (Sub2 a Ha) as [Hab Hne].
      destruct (absorb_fields a Hab) as (_ & _ & _ & Ef). rewrite Ef in Hf. tauto.
Qed.

End Absorb.

End Merge.

(** On a well-formed list whose head is [block], [block->prev] is [NULL]:
    the second [if] of [merge_blocks] never fires. *)
Lemma merge_prev_head t L b :
  flist (memory t) (free_list t) (b :: L) -> merge_prev t b = t.
Proof.
  intros (_ & Hp & _). cbn [pseg] in Hp. destruct Hp as [E _].
  unfold merge_prev. rewrite E. reflexivity.
Qed.

(** The forward merge on a well-formed state whose list head is [b], when
    the physically next block exists and is free. *)
Lemma merge_next_absorb t bl L b :
  wf t bl (b :: L) ->
  let nb := b + sizeof_md + getf Fsize (memory t) b in
  let t' := merge_next t b in
  nb < base t + used t -> getf Fcheck_free (memory t) nb <> 0 ->
  exists X Y A B,
    bl = X ++ b :: nb :: Y /\ L = A ++ nb :: B /\
    wf t' (X ++ b :: Y) (b :: A ++ B) /\
    base t' = base t /\ used t' = used t /\
    (forall a, In a bl ->
       getf Fsize (memory t') a =
         (if a =? b then getf Fsize (memory t) b + sizeof_md
                         + getf Fsize (memory t) nb
          else getf Fsize (memory t) a) /\
       getf Fcheck_free (memory t') a = getf Fcheck_free (memory t) a) /\
    (forall y, outside bl y -> memory t' y = memory t y).
Proof.
  intros W nb t' Hlt Hfree.
  destruct (absorb_shape t bl L b W Hlt Hfree) as (X & Y & A & B & Ebl & EL).
  exists X, Y, A, B. subst t'.
  rewrite (absorb_result t bl L b W Hlt Hfree X Y A B Ebl EL).
  split; [exact Ebl|]. split; [exact EL|].
  split; [apply (absorb_wf t bl L b W X Y A B Ebl EL)|].
  assert (Hb : In b bl) by (apply (wf_sub _ _ _ W); left; reflexivity).
  pose proof (absorb_fields t bl L b W X Y A B Ebl EL) as F.
  split; [apply (F b Hb)|]. split; [apply (F b Hb)|]. split.
  - intros a Ha. destruct (F a Ha) as (_ & _ & F3 & F4). split; assumption.
  - intros y Hy. apply (absorb_outside t bl L b W X Y A B Ebl EL). exact Hy.
Qed.

Section Free.

Variables (s : state) (bl L : list Z) (p : Z).
Hypothesis W : wf s bl L.
Hypothesis Hp : live s bl p.

Let b := p - sizeof_md.
Let nb := b + sizeof_md + getf Fsize (memory s) b.
Let s1 := insert_into_free_list s b.

Lemma free_unfold : myfree s p = merge_prev (merge_next s1 b) b.
Proof.
  destruct (wf_live_ptr _ _ _ W _ Hp) as (Hn & _ & Ew).
  unfold myfree. destruct (Z.eqb_spec p NULL); [contradiction|].
  rewrite Ew. reflexivity.
Qed.

Lemma free_s1_wf : wf s1 bl (b :: L).
Proof. destruct Hp as [H1 H2]. apply free_insert_wf; assumption. Qed.

Lemma free_s1_size : getf Fsize (memory s1) b = getf Fsize (memory s) b.
Proof.
  destruct Hp as [H1 H2].
  apply (free_insert_fields s bl L b W H1 H2 b H1).
Qed.

(** No physical successor, or an allocated one: the block is only linked. *)
Lemma free_unmerged :
  base s + used s <= nb \/ getf Fcheck_free (memory s) nb = 0 ->
  myfree s p = s1 /\ wf (myfree s p) bl (b :: L).
Proof.
  intros Hc. pose proof free_s1_wf as W1. destruct Hp as [H1 H2].
  assert (E : merge_next s1 b = s1).
  { pose proof (merge_next_addr s1 bl L b W1) as [_ Hle].
    rewrite free_s1_size in Hle. fold nb in Hle.
    change (base s1) with (base s) in Hle. change (used s1) with (used s) in Hle.
    destruct (Z.eq_dec nb (base s + used s)) as [Ee|Ne].
    - apply (merge_next_last s1 bl L b W1). rewrite free_s1_size. exact Ee.
    - destruct Hc as [Hc|Hc]; [lia|].
      apply (merge_next_busy s1 bl L b W1). rewrite free_s1_size. fold nb.
      pose proof (tiles_succ _ _ _ _ _ (wf_tiles _ _ _ W) H1) as HS.
      cbv zeta in HS. fold b in HS. fold nb in HS.
      destruct HS as [[Ee _]|[_ (X & Y & Ebl)]]; [contradiction|].
      assert (Hn : In nb bl).
      { rewrite Ebl. apply in_or_app. right; right; left; reflexivity. }
      destruct (free_insert_fields s bl L b W H1 H2 nb Hn) as [_ Ef].
      fold s1 in Ef. rewrite Ef.
      destruct (Z.eqb_spec nb b); [|exact Hc].
      pose proof (getf_range Fsize (memory s) b). unfold nb, sizeof_md in *. lia. }
  rewrite free_unfold, E, (merge_prev_head s1 L b (wf_flist _ _ _ W1)).
  split; [reflexivity|exact W1].
Qed.

(** A free physical successor is absorbed. *)
Lemma free_merged :
  nb < base s + used s -> getf Fcheck_free (memory s) nb <> 0 ->
  exists X Y A B,
    bl = X ++ b :: nb :: Y /\ L = A ++ nb :: B /\
    myfree s p = merge_next s1 b /\
    wf (myfree s p) (X ++ b :: Y) (b :: A ++ B) /\
    getf Fsize (memory (myfree s p)) b =
      getf Fsize (memory s) b + sizeof_md + getf Fsize (memory s) nb.
Proof.
  intros Hlt Hfree. pose proof free_s1_wf as W1. destruct Hp as [H1 H2].
  pose proof (tiles_succ _ _ _ _ _ (wf_tiles _ _ _ W) H1) as HS.
  cbv zeta in HS. fold b in HS. fold nb in HS.
  destruct HS as [[Ee _]|[_ (X0 & Y0 & Ebl0)]]; [lia|].
  assert (Hn : In nb bl).
  { rewrite Ebl0. apply in_or_app. right; right; left; reflexivity. }
  assert (Hnb : nb <> b).
  { pose proof (getf_range Fsize (memory s) b). unfold nb, sizeof_md in *. lia. }
  destruct (free_insert_fields s bl L b W H1 H2 nb Hn) as [Es Ef].
  fold s1 in Es, Ef. apply Z.eqb_neq in Hnb. rewrite Hnb in Ef.
  pose proof (merge_next_absorb s1 bl L b W1) as M. cbv zeta in M.
  rewrite free_s1_size in M. fold nb in M.
  rewrite Ef, Es in M.
  destruct (M Hlt Hfree) as (X & Y & A & B & Ebl & EL & W2 & Eb & Eu & F & O).
  exists X, Y, A, B.
  assert (E : myfree s p = merge_next s1 b).
  { rewrite free_unfold. apply (merge_prev_head _ (A ++ B) b). apply W2. }
  rewrite E. split; [exact Ebl|]. split; [exact EL|]. split; [reflexivity|].
  split; [exact W2|].
  destruct (F b H1) as [Fs _]. rewrite Fs, Z.eqb_refl. reflexivity.
Qed.

(** What [myfree] leaves alone, whichever way the merge goes. *)
Lemma free_frame :
  base (myfree s p) = base s /\ used (myfree s p) = used s /\
  (forall a, In a bl ->
     getf Fcheck_free (memory (myfree s p)) a =
       (if a =? b then 1 else getf Fcheck_free (memory s) a)) /\
  (forall a, In a bl -> a <> b ->
     getf Fsize (memory (myfree s p)) a = getf Fsize (memory s) a) /\
  (forall y, outside bl y -> memory (myfree s p) y = memory s y).
Proof.
  pose proof free_s1_wf as W1. pose proof Hp as [H1 H2]. fold b in H1, H2.
  assert (I1 : forall a, In a bl ->
            getf Fsize (memory s1) a = getf Fsize (memory s) a /\
            getf Fcheck_free (memory s1) a =
              (if a =? b then 1 else getf Fcheck_free (memory s) a))
    by (intros a Ha; apply (free_insert_fields s bl L b W H1 H2 a Ha)).
  assert (O1 : forall y, outside bl y -> memory s1 y = memory s y)
    by (intros y Hy; apply (free_insert_outside s bl L b W H1 H2 y Hy)).
  destruct (Z.ltb_spec nb (base s + used s)) as [Hlt|Hge];
    [destruct (Z.eq_dec (getf Fcheck_free (memory s) nb) 0) as [Hz|Hnz]|].
  - destruct (free_unmerged (or_intror Hz)) as [-> _].
    repeat split; try reflexivity; intros; try apply I1; auto.
  - destruct (free_merged Hlt Hnz) as (X & Y & A & B & Ebl & EL & E & W2 & Es).
    rewrite E.
    assert (Hn : In nb bl).
    { rewrite Ebl. apply in_or_app. right; right; left; reflexivity. }
    assert (Hnb : (nb =? b) = false).
    { apply Z.eqb_neq. pose proof (getf_range Fsize (memory s) b).
      unfold nb, sizeof_md in *. lia. }
    pose proof (merge_next_absorb s1 bl L b W1) as M. cbv zeta in M.
    rewrite free_s1_size in M. fold nb in M.
    destruct (I1 nb Hn) as [Esn Efn]. rewrite Hnb in Efn. rewrite Efn, Esn in M.
    destruct (M Hlt Hnz) as (_ & _ & _ & _ & _ & _ & _ & Eb & Eu & F & O).
    split; [exact Eb|]. split; [exact Eu|]. split; [|split].
    + intros a Ha. destruct (F a Ha) as [_ ->]. apply I1. exact Ha.
    + intros a Ha Hne. destruct (F a Ha) as [-> _].
      apply Z.eqb_neq in Hne. rewrite Hne. apply I1. exact Ha.
    + intros y Hy. rewrite (O y Hy). apply O1. exact Hy.
  - destruct (free_unmerged (or_introl Hge)) as [-> _].
    repeat split; try reflexivity; intros; try apply I1; auto.
Qed.

(** [myfree] re-establishes the invariant; the allocated blocks other
    than the freed one survive unchanged. *)
Lemma free_wf :
  exists bl' L',
    wf (myfree s p) bl' L' /\ In b bl' /\
    (forall a, In a bl' -> In a bl) /\
    (forall a, In a bl -> getf Fcheck_free (memory s) a = 0 -> In a bl').
Proof.
  pose proof Hp as [H1 H2]. fold b in H1, H2.
  destruct (Z.ltb_spec nb (base s + used s)) as [Hlt|Hge];
    [destruct (Z.eq_dec (getf Fcheck_free (memory s) nb) 0) as [Hz|Hnz]|].
  - destruct (free_unmerged (or_intror Hz)) as [_ W'].
    exists bl, (b :: L). auto.
  - destruct (free_merged Hlt Hnz) as (X & Y & A & B & Ebl & EL & E & W2 & Es).
    exists (X ++ b :: Y), (b :: A ++ B). split; [exact W2|]. split; [|split].
    + apply in_or_app. right; left; reflexivity.
    + intros a Ha. rewrite Ebl. apply in_app_iff in Ha. apply in_app_iff.
      cbn [In] in Ha |- *. tauto.
    + intros a Ha Hf. rewrite Ebl in Ha. apply in_app_iff in Ha.
      apply in_app_iff. cbn [In] in Ha |- *.
      destruct Ha as [Ha|[Ha|[Ha|Ha]]]; auto. subst a. contradiction.
  - destruct (free_unmerged (or_introl Hge)) as [_ W'].
    exists bl, (b :: L). auto.
Qed.

End Free.

(** ** [mymalloc], all cases together *)

Lemma first_fit_split (m : mem) (size : Z) : forall L : list Z,
  (forall y, In y L -> getf Fsize m y < size) \/
  (exists A x B, L = A ++ x :: B /\
     (forall y, In y A -> getf Fsize m y < size) /\ size <= getf Fsize m x).
Proof.
  induction L as [|z r IH].
  - left. intros y [].
  - destruct (Z_lt_le_dec (getf Fsize m z) size) as [Hlt|Hle].
    + destruct IH as [IH|(A & x & B & -> & HA & Hx)].
      * left. intros y [<-|Hy]; auto.
      * right. exists (z :: A), x, B. split; [reflexivity|]. split; [|exact Hx].
        intros y [<-|Hy]; auto.
    + right. exists [], z, r. split; [reflexivity|]. split; [intros y []|exact Hle].
Qed.

Lemma malloc_summary s bl L size fuel :
  wf s bl L -> 0 <= size -> used s + sizeof_md + size < modulus ->
  (length L < fuel)%nat ->
  exists s' q,
    mymalloc fuel s size = Some (s', q) /\
    ((q = NULL /\ s' = s) \/
     (exists bl' L',
        wf s' bl' L' /\ base s' = base s /\ used s <= used s' /\
        In (q - sizeof_md) bl' /\
        getf Fcheck_free (memory s') (q - sizeof_md) = 0 /\
        size <= getf Fsize (memory s') (q - sizeof_md) /\
        (~ In (q - sizeof_md) bl \/
         getf Fcheck_free (memory s) (q - sizeof_md) <> 0) /\
        (forall a, In a bl' <-> In a bl \/ a = q - sizeof_md) /\
        (forall a, In a bl ->
           getf Fsize (memory s') a = getf Fsize (memory s) a) /\
        (forall a, In a bl -> a <> q - sizeof_md ->
           getf Fcheck_free (memory s') a = getf Fcheck_free (memory s) a) /\
        (forall y, outside bl' y -> memory s' y = memory s y))).
Proof.
  intros W Hsize Hnw Hfuel.
  destruct (first_fit_split (memory s) size L)
    as [Hnone|(A & x & B & EL & HA & Hx)].
  - destruct (Z_lt_le_dec CAP (used s + sizeof_md + size)) as [Hfull|Hroom].
    + exists s, NULL. split; [|left; auto].
      apply (bump_fail s bl L size fuel W Hnone Hfuel Hsize Hnw Hfull).
    + eexists _, _. split.
      * apply (bump_result s bl L size fuel W Hnone Hfuel Hsize Hnw Hroom).
      * right. exists (bl ++ [base s + used s]), L.
        replace (base s + used s + sizeof_md - sizeof_md)
          with (base s + used s) by lia.
        destruct (bump_header s bl L size W Hsize Hnw Hroom) as [Es Ef].
        destruct (bump_new_header s bl L size W Hsize Hnw Hroom) as [Hv Hn].
        cbn [base used].
        split; [apply (bump_wf s bl L size W Hsize Hnw Hroom)|].
        split; [reflexivity|]. split; [unfold sizeof_md; lia|].
        split; [apply in_or_app; right; left; reflexivity|].
        split; [exact Ef|]. split; [rewrite Es; lia|].
        split; [left; exact Hn|]. split; [|split; [|split]].
        -- intros a. rewrite in_app_iff. cbn [In]. intuition congruence.
        -- intros a Ha. apply (bump_fields s bl L size W Hsize Hnw Hroom a Fsize Ha).
        -- intros a Ha _.
           apply (bump_fields s bl L size W Hsize Hnw Hroom a Fcheck_free Ha).
        -- intros y Hy. apply (bump_bytes s bl L size W Hsize Hnw Hroom).
           apply Hy. apply in_or_app. right; left; reflexivity.
  - subst L.
    assert (Hfuel' : (length A < fuel)%nat).
    { rewrite length_app in Hfuel. lia. }
    assert (Hxin : In x bl).
    { apply (wf_sub _ _ _ W), in_or_app. right; left; reflexivity. }
    eexists _, _. split.
    + apply (reuse_result s bl A B x size fuel W HA Hx Hfuel').
    + right. exists bl, (A ++ B).
      replace (x + sizeof_md - sizeof_md) with x by lia.
      pose proof (reuse_fields s bl A B x W) as F.
      destruct (F x Hxin) as (Eb & Eu & Es & Ef). rewrite Z.eqb_refl in Ef.
      split; [apply (reuse_wf s bl A B x W)|].
      split; [exact Eb|]. split; [rewrite Eu; lia|].
      split; [exact Hxin|]. split; [exact Ef|]. split; [rewrite Es; exact Hx|].
      split; [|split; [|split; [|split]]].
      * right. apply (wf_member _ _ _ W x), in_or_app. right; left; reflexivity.
      * intros a. intuition congruence.
      * intros a Ha. apply (F a Ha).
      * intros a Ha Hne. destruct (F a Ha) as (_ & _ & _ & ->).
        apply Z.eqb_neq in Hne. rewrite Hne. reflexivity.
      * intros y Hy. apply (reuse_outside s bl A B x W y Hy).
Qed.

(** ** [memcpy] *)

Lemma read_bytes_length n : forall m a, length (read_bytes n m a) = n.
Proof. induction n as [|k IH]; intros m a; cbn; [reflexivity|]. rewrite IH. reflexivity. Qed.

Lemma read_bytes_nth n : forall m a i,
  (i < n)%nat -> nth i (read_bytes n m a) 0 = m (wrap (a + Z.of_nat i)).
Proof.
  induction n as [|k IH]; intros m a i Hi; [lia|].
  cbn [read_bytes]. destruct i as [|j].
  - cbn [nth]. rewrite Z.add_0_r. reflexivity.
  - cbn [nth]. rewrite IH by lia. f_equal. f_equal. lia.
Qed.

Lemma write_bytes_other : forall bs m a x,
  (forall i, (i < length bs)%nat -> wrap (a + Z.of_nat i) <> x) ->
  write_bytes m a bs x = m x.
Proof.
  induction bs as [|b r IH]; intros m a x H; cbn [write_bytes].
  - reflexivity.
  - rewrite IH.
    + apply upd_other. intro E. apply (H 0%nat); [cbn; lia|].
      rewrite Z.add_0_r. congruence.
    + intros i Hi. replace (a + 1 + Z.of_nat i) with (a + Z.of_nat (S i)) by lia.
      apply H. cbn; lia.
Qed.

Lemma write_bytes_at : forall bs m a i,
  Z.of_nat (length bs) <= modulus -> (i < length bs)%nat ->
  write_bytes m a bs (wrap (a + Z.of_nat i)) = nth i bs 0.
Proof.
  induction bs as [|b r IH]; intros m a i Hlen Hi; cbn [length] in *; [lia|].
  cbn [write_bytes]. destruct i as [|j].
  - cbn [nth]. rewrite Z.add_0_r. rewrite write_bytes_other.
    + apply upd_same.
    + intros i Hi'. replace (a + 1 + Z.of_nat i) with (a + (1 + Z.of_nat i)) by lia.
      apply wrap_neq_shift. lia.
  - cbn [nth]. replace (a + Z.of_nat (S j)) with (a + 1 + Z.of_nat j) by lia.
    apply IH; lia.
Qed.

Lemma memcpy_copied m dst src n i :
  0 <= n <= modulus -> 0 <= i < n ->
  memcpy m dst src n (wrap (dst + i)) = m (wrap (src + i)).
Proof.
  intros Hn Hi. unfold memcpy.
  replace i with (Z.of_nat (Z.to_nat i)) by lia.
  rewrite write_bytes_at.
  - apply read_bytes_nth. lia.
  - rewrite read_bytes_length. lia.
  - rewrite read_bytes_length. lia.
Qed.

Lemma memcpy_other m dst src n x :
  (forall i, 0 <= i < n -> wrap (dst + i) <> x) ->
  memcpy m dst src n x = m x.
Proof.
  intros H. unfold memcpy. apply write_bytes_other. intros i Hi.
  rewrite read_bytes_length in Hi. apply H. lia.
Qed.

(** Header reads only depend on the 32 bytes of the header. *)
Lemma getf_bytes f m m' a :
  0 <= a -> a + sizeof_md <= modulus ->
  (forall y, a <= y < a + sizeof_md -> m' y = m y) ->
  getf f m' a = getf f m a.
Proof.
  intros H0 H1 H. unfold getf. apply load_ext. intros i Hi.
  unfold sizeof_md in *.
  rewrite wrap_small by (destruct f; cbn [flen foff] in *; lia).
  apply H. destruct f; cbn [flen foff] in *; lia.
Qed.

(** The invariant only depends on the header bytes of the blocks. *)
Lemma wf_frame s bl L m' :
  wf s bl L ->
  (forall a y, In a bl -> a <= y < a + sizeof_md -> m' y = memory s y) ->
  wf (with_mem s m') bl L /\
  (forall a f, In a bl -> getf f m' a = getf f (memory s) a).
Proof.
  intros W H.
  assert (F : forall a f, In a bl -> getf f m' a = getf f (memory s) a).
  { intros a f Ha. pose proof (good_hv _ (wf_hgood _ _ _ W) _ Ha) as Hv.
    apply getf_bytes; [zsolve|zsolve|]. intros y Hy. apply (H a y Ha Hy). }
  split; [|exact F].
  constructor; unfold with_mem; cbn [base used free_list memory]; try apply W.
  - eapply tiles_frame; [|apply (wf_tiles _ _ _ W)]. intros a Ha. apply F, Ha.
  - destruct (wf_flist _ _ _ W) as (F1 & F2 & F3). split; [|split]; [| |exact F3].
    + eapply lseg_frame; [|exact F1]. intros y Hy. apply F, (wf_sub _ _ _ W), Hy.
    + eapply pseg_frame; [|exact F2]. intros y Hy. apply F, (wf_sub _ _ _ W), Hy.
  - intros a. rewrite (wf_member _ _ _ W a). split.
    + intros [Ha Hf]. split; [exact Ha|]. rewrite F; assumption.
    + intros [Ha Hf]. split; [exact Ha|]. rewrite F in Hf; assumption.
Qed.

(** The payload bytes of a block lie in no header. *)
Lemma payload_outside s bl L a y :
  wf s bl L -> In a bl ->
  a + sizeof_md <= y < a + sizeof_md + getf Fsize (memory s) a ->
  outside bl y.
Proof.
  intros W Ha Hy c Hc.
  destruct (tiles_cmp _ _ _ _ _ _ (wf_tiles _ _ _ W) Ha Hc) as [E|[E|E]].
  - subst c. right. lia.
  - left. lia.
  - right. pose proof (getf_range Fsize (memory s) c). unfold sizeof_md in *. lia.
Qed.

(** ** Which pointers are live after each operation *)

Lemma free_live s bl L p :
  wf s bl L -> live s bl p ->
  exists bl' L',
    wf (myfree s p) bl' L' /\
    (forall q, live (myfree s p) bl' q <-> live s bl q /\ q <> p) /\
    (forall a, In a bl' -> In a bl).
Proof.
  intros W Hp.
  destruct (free_wf s bl L p W Hp) as (bl' & L' & W' & Hb & Sub & Keep).
  destruct (free_frame s bl L p W Hp) as (_ & _ & Ff & _ & _).
  exists bl', L'. split; [exact W'|]. split; [|exact Sub].
  intros q. unfold live. split.
  - intros [Hin Hf]. pose proof (Sub _ Hin) as Hin'.
    rewrite (Ff _ Hin') in Hf.
    destruct (Z.eqb_spec (q - sizeof_md) (p - sizeof_md)) as [E|Hne]; [lia|].
    split; [split; assumption|]. intros ->. apply Hne. reflexivity.
  - intros [[Hin Hf] Hne]. split; [apply Keep; assumption|].
    rewrite (Ff _ Hin).
    destruct (Z.eqb_spec (q - sizeof_md) (p - sizeof_md)) as [E|_]; [|exact Hf].
    exfalso. apply Hne. lia.
Qed.

Lemma malloc_live s bl L size fuel :
  wf s bl L -> 0 <= size -> used s + sizeof_md + size < modulus ->
  (length L < fuel)%nat ->
  exists s' q,
    mymalloc fuel s size = Some (s', q) /\
    ((q = NULL /\ s' = s) \/
     (q <> NULL /\ exists bl' L',
        wf s' bl' L' /\
        (forall r, live s' bl' r <-> live s bl r \/ r = q))).
Proof.
  intros W Hsize Hnw Hfuel.
  destruct (malloc_summary s bl L size fuel W Hsize Hnw Hfuel)
    as (s' & q & E & [Hfail|(bl' & L' & W' & _ & _ & Hx & Hxf & _ & Hnew & Hbl & _ & Ff & _)]).
  - exists s', q. split; [exact E|left; exact Hfail].
  - exists s', q. split; [exact E|right]. split.
    + pose proof (good_hv _ (wf_hgood _ _ _ W') _ Hx). zsolve.
    + exists bl', L'. split; [exact W'|]. intros r. unfold live. split.
      * intros [Hin Hf]. apply Hbl in Hin. destruct Hin as [Hin|Er].
        -- destruct (Z.eq_dec (r - sizeof_md) (q - sizeof_md)) as [Er|Hne].
           ++ right. lia.
           ++ left. split; [exact Hin|]. rewrite <- (Ff _ Hin Hne). exact Hf.
        -- right. lia.
      * intros [[Hin Hf]| ->]; [|split; assumption].
        assert (Hne : r - sizeof_md <> q - sizeof_md).
        { intros Er. rewrite Er in Hin, Hf. destruct Hnew; auto. }
        split; [apply Hbl; left; exact Hin|].
        rewrite (Ff _ Hin Hne). exact Hf.
Qed.

(** ** [myrealloc] on a well-formed state *)

Lemma tiles_last m a bl e b :
  tiles m a bl e -> In b bl -> b + sizeof_md + getf Fsize m b = e ->
  exists X, bl = X ++ [b].
Proof.
  intros H Hin E. pose proof (tiles_succ _ _ _ _ _ H Hin) as HS. cbv zeta in HS.
  destruct HS as [[_ HX]|[Hlt _]]; [exact HX|lia].
Qed.

Lemma realloc_tail_wf s bl L p size fuel :
  wf s bl L -> live s bl p -> 0 < size -> p + size < modulus ->
  p + getf Fsize (memory s) (p - sizeof_md) = base s + used s ->
  exists s',
    myrealloc fuel s p size = Some (s', p) /\ wf s' bl L /\
    (forall q, live s' bl q <-> live s bl q) /\
    base s' = base s /\ free_list s' = free_list s /\
    used s' = used s + size - getf Fsize (memory s) (p - sizeof_md) /\
    getf Fsize (memory s') (p - sizeof_md) = size.
Proof.
  intros W Hp Hsz Hfit Htail.
  destruct (wf_live_ptr _ _ _ W _ Hp) as (Hn & Hr & Ew).
  pose proof Hp as [Hb Hf]. set (b := p - sizeof_md) in *.
  set (old := getf Fsize (memory s) b) in *.
  pose proof (wf_hgood _ _ _ W) as HG.
  pose proof (wf_block_bounds _ _ _ W _ Hb) as [B1 B2]. fold old in B2.
  pose proof (wf_base _ _ _ W) as Hbase. pose proof (wf_top _ _ _ W) as Htop.
  pose proof (wf_used _ _ _ W) as Hused.
  pose proof (getf_range Fsize (memory s) b) as Hold. fold old in Hold.
  assert (Eu : (if old <? size then wrap (used s + (size - old))
                else wrap (used s - (old - size))) = used s + size - old).
  { destruct (Z.ltb_spec old size); apply wrap_small_eq; unfold b, sizeof_md in *; lia. }
  eexists. split.
  - unfold myrealloc.
    destruct (Z.eqb_spec size 0); [lia|].
    destruct (Z.eqb_spec p NULL); [contradiction|].
    fold b. rewrite Ew. fold old. rewrite (wf_wrap_end _ _ _ W).
    rewrite (wrap_small (p + old)) by lia.
    destruct (Z.eqb_spec (p + old) (base s + used s)); [|contradiction].
    rewrite Eu. reflexivity.
  - cbn [base used free_list memory].
    assert (F : forall a f, In a bl ->
              getf f (setf Fsize (memory s) b size) a =
              if (a =? b) && field_eqb f Fsize then size else getf f (memory s) a).
    { intros a f Ha. apply (getf_setf_good bl HG); try assumption.
      apply fits_ptr; [discriminate|]. unfold b, sizeof_md in *. lia. }
    assert (Fs : getf Fsize (setf Fsize (memory s) b size) b = size).
    { rewrite F by exact Hb. rewrite Z.eqb_refl. reflexivity. }
    assert (Fo : forall a f, In a bl -> f <> Fsize ->
              getf f (setf Fsize (memory s) b size) a = getf f (memory s) a).
    { intros a f Ha Hne. rewrite F by exact Ha.
      destruct f; try congruence; cbn [field_eqb]; rewrite andb_false_r; reflexivity. }
    split; [|split; [|repeat split; try reflexivity; exact Fs]].
    + destruct (tiles_last _ _ _ _ _ (wf_tiles _ _ _ W) Hb) as (X & EX).
      { fold old. unfold b, sizeof_md in *. lia. }
      assert (HbX : ~ In b X).
      { pose proof (tiles_nodup _ _ _ _ (wf_tiles _ _ _ W)) as Hnd.
        rewrite EX in Hnd. apply NoDup_remove_2 in Hnd.
        rewrite app_nil_r in Hnd. exact Hnd. }
      constructor; cbn [base used free_list memory]; try assumption;
        try apply W; try (unfold b, sizeof_md in *; lia).
      * replace (base s + (used s + size - old))
          with (b + sizeof_md + getf Fsize (setf Fsize (memory s) b size) b)
          by (rewrite Fs; unfold b, sizeof_md in *; lia).
        rewrite EX. eapply tiles_resize_last.
        -- rewrite <- EX. apply (wf_tiles _ _ _ W).
        -- intros z Hz. rewrite F by (rewrite EX; apply in_or_app; left; exact Hz).
           destruct (Z.eqb_spec z b); [congruence|reflexivity].
      * destruct (wf_flist _ _ _ W) as (F1 & F2 & F3). split; [|split]; [| |exact F3].
        -- eapply lseg_frame; [|exact F1]. intros y Hy.
           apply Fo; [apply (wf_sub _ _ _ W), Hy|discriminate].
        -- eapply pseg_frame; [|exact F2]. intros y Hy.
           apply Fo; [apply (wf_sub _ _ _ W), Hy|discriminate].
      * intros a. rewrite (wf_member _ _ _ W a). split.
        -- intros [Ha Hfa]. split; [exact Ha|]. rewrite Fo; [exact Hfa|exact Ha|discriminate].
        -- intros [Ha Hfa]. split; [exact Ha|].
           rewrite Fo in Hfa; [exact Hfa|exact Ha|discriminate].
    + intros q. unfold live. cbn [memory]. split.
      * intros [Ha Hfa]. split; [exact Ha|].
        rewrite Fo in Hfa; [exact Hfa|exact Ha|discriminate].
      * intros [Ha Hfa]. split; [exact Ha|]. rewrite Fo; [exact Hfa|exact Ha|discriminate].
Qed.

Lemma realloc_move s bl L p size fuel :
  wf s bl L -> live s bl p -> 0 < size ->
  used s + sizeof_md + size < modulus -> (length L < fuel)%nat ->
  p + getf Fsize (memory s) (p - sizeof_md) <> base s + used s ->
  exists s' q,
    myrealloc fuel s p size = Some (s', q) /\
    (exists s1, mymalloc fuel s size = Some (s1, q)) /\
    ((q = NULL /\ s' = s) \/
     (q <> NULL /\ q <> p /\ exists bl' L',
        wf s' bl' L' /\
        (forall r, live s' bl' r <-> (live s bl r /\ r <> p) \/ r = q) /\
        size <= getf Fsize (memory s') (q - sizeof_md) /\
        getf Fcheck_free (memory s') (p - sizeof_md) <> 0 /\
        (forall i, 0 <= i < Z.min (getf Fsize (memory s) (p - sizeof_md)) size ->
           memory s' (q + i) = memory s (p + i)))).
Proof.
  intros W Hp Hsz Hnw Hfuel Hnt.
  destruct (wf_live_ptr _ _ _ W _ Hp) as (Hn & Hr & Ew).
  pose proof Hp as [Hb Hf].
  set (b := p - sizeof_md) in *. set (old := getf Fsize (memory s) b) in *.
  pose proof (wf_block_bounds _ _ _ W _ Hb) as [B1 B2]. fold old in B2.
  pose proof (wf_top _ _ _ W) as Htop.
  pose proof (getf_range Fsize (memory s) b) as Hold. fold old in Hold.
  assert (Hunf : myrealloc fuel s p size =
    match mymalloc fuel s size with
    | None => None
    | Some (s1, new_ptr) =>
        if new_ptr =? NULL then Some (s1, new_ptr)
        else Some (myfree (with_mem s1 (memcpy (memory s1) new_ptr p
                      (if old <? size then old else size))) p, new_ptr)
    end).
  { unfold myrealloc.
    destruct (Z.eqb_spec size 0); [lia|].
    destruct (Z.eqb_spec p NULL); [contradiction|].
    fold b. rewrite Ew. fold old. rewrite (wf_wrap_end _ _ _ W).
    rewrite (wrap_small (p + old)) by (unfold b, sizeof_md in *; lia).
    destruct (Z.eqb_spec (p + old) (base s + used s)); [contradiction|].
    reflexivity. }
  destruct (malloc_summary s bl L size fuel W ltac:(lia) Hnw Hfuel)
    as (s1 & q & E & [[-> ->]|(bl1 & L1 & W1 & Eb & Eu & Hx & Hxf & Hxs & Hnew
                               & Hbl & Fs & Ff & Fo)]).
  - exists s, NULL. split; [|split; [exists s; exact E|left; auto]].
    rewrite Hunf, E. reflexivity.
  - set (x := q - sizeof_md) in *.
    set (n := if old <? size then old else size).
    assert (En : n = Z.min old size).
    { unfold n. destruct (Z.ltb_spec old size); lia. }
    set (m2 := memcpy (memory s1) q p n).
    set (s2 := with_mem s1 m2).
    pose proof (good_hv _ (wf_hgood _ _ _ W1) _ Hx) as Hvx.
    assert (Hq : q <> NULL) by (unfold x in Hvx; zsolve).
    assert (Hxb : x <> b).
    { intros Exb. rewrite Exb in Hnew. destruct Hnew; auto. }
    pose proof (wf_block_bounds _ _ _ W1 _ Hx) as [X1 X2].
    pose proof (wf_top _ _ _ W1) as Htop1.
    pose proof (wf_base _ _ _ W1) as Hbase1.
    pose proof (wf_base _ _ _ W) as Hbase.
    (* the copy stays inside the new payload *)
    assert (Hdst : forall i, 0 <= i < n ->
              wrap (q + i) = q + i /\ outside bl1 (q + i)).
    { intros i Hi. split.
      - apply wrap_small. unfold x, sizeof_md in *. lia.
      - apply (payload_outside s1 bl1 L1 x); [exact W1|exact Hx|].
        unfold x, sizeof_md in *. lia. }
    assert (Hb1 : In b bl1) by (apply Hbl; left; exact Hb).
    assert (Hsrc : forall i, 0 <= i < n ->
              wrap (p + i) = p + i /\ outside bl1 (p + i)).
    { intros i Hi. split.
      - apply wrap_small. unfold b, sizeof_md in *. lia.
      - apply (payload_outside s1 bl1 L1 b); [exact W1|exact Hb1|].
        rewrite (Fs b Hb). fold old. unfold b, sizeof_md in *. lia. }
    destruct (wf_frame s1 bl1 L1 m2 W1) as [W2 F2].
    { intros a y Ha Hy. unfold m2. apply memcpy_other. intros i Hi.
      destruct (Hdst i Hi) as [-> Ho]. specialize (Ho a Ha). lia. }
    fold s2 in W2.
    assert (Hp2 : live s2 bl1 p).
    { split; fold b; [exact Hb1|]. unfold s2, with_mem. cbn [memory].
      rewrite (F2 b Fcheck_free Hb1), (Ff b Hb (not_eq_sym Hxb)). exact Hf. }
    destruct (free_live s2 bl1 L1 p W2 Hp2) as (bl3 & L3 & W3 & Hlive3 & Sub3).
    destruct (free_frame s2 bl1 L1 p W2 Hp2) as (_ & _ & Ff3 & Fs3 & Fo3).
    fold b in Ff3, Fs3.
    exists (myfree s2 p), q. split; [|split; [exists s1; exact E|right]].
    + rewrite Hunf, E. destruct (Z.eqb_spec q NULL); [contradiction|]. reflexivity.
    + split; [exact Hq|]. split; [unfold x, b in Hxb; congruence|].
      exists bl3, L3. split; [exact W3|]. split; [|split; [|split]].
      * intros r. rewrite Hlive3. unfold live, s2, with_mem. cbn [memory]. split.
        -- intros [[Hin Hfr] Hne].
           rewrite (F2 _ Fcheck_free Hin) in Hfr. apply Hbl in Hin.
           destruct Hin as [Hin|Er]; [|right; unfold x in Er; lia].
           destruct (Z.eq_dec (r - sizeof_md) x) as [Er|Hnx];
             [right; unfold x in Er; lia|left].
           rewrite (Ff _ Hin Hnx) in Hfr. auto.
        -- intros [[[Hin Hfr] Hne]| ->].
           ++ assert (Hnx : r - sizeof_md <> x).
              { intros Er. rewrite Er in Hin, Hfr. destruct Hnew; auto. }
              assert (Hin1 : In (r - sizeof_md) bl1) by (apply Hbl; left; exact Hin).
              split; [split; [exact Hin1|]|exact Hne].
              rewrite (F2 _ Fcheck_free Hin1), (Ff _ Hin Hnx). exact Hfr.
           ++ fold x. split; [split; [exact Hx|]|unfold x, b in Hxb; congruence].
              rewrite (F2 _ Fcheck_free Hx). exact Hxf.
      * fold x. rewrite (Fs3 x Hx Hxb). unfold s2, with_mem. cbn [memory].
        rewrite (F2 x Fsize Hx). exact Hxs.
      * fold b. rewrite (Ff3 b Hb1), Z.eqb_refl. lia.
      * fold b. fold old. rewrite <- En. intros i Hi.
        destruct (Hdst i Hi) as [Ewq Hoq]. destruct (Hsrc i Hi) as [Ewp Hop].
        rewrite (Fo3 _ Hoq). unfold s2, with_mem. cbn [memory]. unfold m2.
        rewrite <- Ewq at 1. rewrite memcpy_copied; [|lia|exact Hi].
        rewrite Ewp. apply Fo. exact Hop.
Qed.

(** ** Fuel *)

Lemma find_fit_mono m size : forall fuel fuel' h r,
  find_fit fuel m h size = Some r -> (fuel <= fuel')%nat ->
  find_fit fuel' m h size = Some r.
Proof.
  induction fuel as [|k IH]; intros fuel' h r H Hle; [discriminate|].
  destruct fuel' as [|k']; [lia|]. cbn [find_fit] in *.
  destruct (h =? NULL); [exact H|].
  destruct (size <=? getf Fsize m h); [exact H|].
  apply IH; [exact H|lia].
Qed.

Lemma mymalloc_mono fuel fuel' s size r :
  mymalloc fuel s size = Some r -> (fuel <= fuel')%nat ->
  mymalloc fuel' s size = Some r.
Proof.
  unfold mymalloc. intros H Hle.
  destruct (find_fit fuel (memory s) (free_list s) size) as [c|] eqn:E;
    [|discriminate].
  rewrite (find_fit_mono _ _ _ _ _ _ E Hle). exact H.
Qed.

Lemma myrealloc_mono fuel fuel' s p size r :
  myrealloc fuel s p size = Some r -> (fuel <= fuel')%nat ->
  myrealloc fuel' s p size = Some r.
Proof.
  unfold myrealloc. intros H Hle.
  destruct (size =? 0); [exact H|].
  destruct (p =? NULL); [eapply mymalloc_mono; eassumption|].
  destruct (wrap (p + getf Fsize (memory s) (wrap (p - sizeof_md)))
            =? wrap (base s + used s)); [exact H|].
  destruct (mymalloc fuel s size) as [[s1 q]|] eqn:E; [|discriminate].
  rewrite (mymalloc_mono _ _ _ _ _ E Hle). exact H.
Qed.

(** ** Runs *)

Lemma drop_In p lv q : In q (drop p lv) <-> In q lv /\ q <> p.
Proof.
  unfold drop. rewrite filter_In. split.
  - intros [H1 H2]. split; [exact H1|].
    destruct (Z.eqb_spec q p); [discriminate|assumption].
  - intros [H1 H2]. split; [exact H1|].
    destruct (Z.eqb_spec q p); [contradiction|reflexivity].
Qed.

Lemma wf_empty s :
  0 < base s -> base s + CAP < modulus -> used s = 0 -> free_list s = NULL ->
  wf s [] [].
Proof.
  intros Hb Hp Hu Hf. constructor; rewrite ?Hu, ?Hf; try zsolve.
  - cbn. lia.
  - repeat split; try constructor.
  - intros b. cbn. tauto.
Qed.

Lemma live_nonnull s bl L p : wf s bl L -> live s bl p -> p <> NULL.
Proof. intros W Hp. apply (wf_live_ptr _ _ _ W _ Hp). Qed.

(** ** The invariant along runs without wrap-around *)

Lemma inv_malloc s lv n fuel s' q :
  inv s lv -> is_size n -> used s + sizeof_md + n < modulus ->
  mymalloc fuel s n = Some (s', q) ->
  inv s' (if q =? NULL then lv else q :: lv).
Proof.
  intros (bl & L & W & Hlv) [Hn _] Hnw E.
  destruct (malloc_live s bl L n (Nat.max fuel (S (length L))) W Hn Hnw ltac:(lia))
    as (s2 & q2 & E2 & H).
  rewrite (mymalloc_mono _ _ _ _ _ E (Nat.le_max_l _ _)) in E2.
  injection E2 as <- <-.
  destruct H as [[-> ->]|(Hq & bl' & L' & W' & Hl)].
  - cbn. exists bl, L. auto.
  - destruct (Z.eqb_spec q NULL); [contradiction|].
    exists bl', L'. split; [exact W'|]. intros r. rewrite Hl. cbn [In].
    rewrite Hlv. intuition congruence.
Qed.

Lemma inv_free s lv p :
  inv s lv -> is_arg lv p -> inv (myfree s p) (drop p lv).
Proof.
  intros (bl & L & W & Hlv) [->|Hin].
  - cbn. exists bl, L. split; [exact W|]. intros q. rewrite drop_In, Hlv.
    split; [tauto|]. intros H. split; [exact H|]. apply (live_nonnull s bl L q W H).
  - apply Hlv in Hin.
    destruct (free_live s bl L p W Hin) as (bl' & L' & W' & Hl & _).
    exists bl', L'. split; [exact W'|]. intros q. rewrite drop_In, Hlv, Hl. tauto.
Qed.

Lemma inv_realloc s lv p n fuel s' q :
  inv s lv -> is_arg lv p -> is_size n ->
  n = 0 \/ (used s + sizeof_md + n < modulus /\ p + n < modulus) ->
  myrealloc fuel s p n = Some (s', q) ->
  inv s' (if n =? 0 then drop p lv
          else if q =? NULL then lv else q :: drop p lv).
Proof.
  intros I Hp Hn Hnw E.
  destruct (Z.eqb_spec n 0) as [->|Hn0].
  - cbn in E. injection E as <- <-. apply inv_free; assumption.
  - destruct Hnw as [?|[Hnw1 Hnw2]]; [contradiction|].
    destruct Hp as [->|Hin].
    + (* reallocate(NULL, n) is an allocation *)
      assert (E' : mymalloc fuel s n = Some (s', q)).
      { unfold myrealloc in E. destruct (Z.eqb_spec n 0); [contradiction|exact E]. }
      pose proof (inv_malloc s lv n fuel s' q I Hn Hnw1 E') as I'.
      destruct (Z.eqb_spec q NULL); [exact I'|].
      destruct I as (bl & L & W & Hlv). destruct I' as (bl' & L' & W' & Hlv').
      exists bl', L'. split; [exact W'|]. intros r. rewrite <- Hlv'.
      cbn [In]. rewrite drop_In, Hlv. split; [tauto|].
      intros [H|H]; [left; exact H|right]. split; [exact H|].
      apply (live_nonnull s bl L r W H).
    + destruct I as (bl & L & W & Hlv). apply Hlv in Hin.
      destruct Hn as [Hn1 Hn2].
      destruct (Z.eq_dec (p + getf Fsize (memory s) (p - sizeof_md))
                         (base s + used s)) as [Ht|Hnt].
      * destruct (realloc_tail_wf s bl L p n fuel W Hin ltac:(lia) Hnw2 Ht)
          as (s2 & E2 & W2 & Hl & _).
        rewrite E in E2. injection E2 as E3 E4. subst s2 q.
        destruct (Z.eqb_spec p NULL) as [Ep|_];
          [exfalso; apply (live_nonnull s bl L p W Hin Ep)|].
        exists bl, L. split; [exact W2|]. intros r. cbn [In].
        rewrite drop_In, Hlv, Hl. split; [|destruct (Z.eq_dec p r); intuition congruence].
        intros [<-|[H _]]; assumption.
      * destruct (realloc_move s bl L p n (Nat.max fuel (S (length L)))
                    W Hin ltac:(lia) Hnw1 ltac:(lia) Hnt) as (s2 & q2 & E2 & _ & H).
        rewrite (myrealloc_mono _ _ _ _ _ _ E (Nat.le_max_l _ _)) in E2.
        injection E2 as <- <-.
        destruct H as [[-> ->]|(Hq & _ & bl' & L' & W' & Hl & _)].
        -- cbn. exists bl, L. auto.
        -- destruct (Z.eqb_spec q NULL); [contradiction|].
           exists bl', L'. split; [exact W'|]. intros r. cbn [In].
           rewrite drop_In, Hlv, Hl. intuition congruence.
Qed.

Theorem reach_inv s lv : reach no_wrap s lv -> inv s lv.
Proof.
  induction 1 as [s0 nb Hb Hp | s lv c s' lv' Hr IH Hok Hs].
  - exists [], []. split; [apply wf_empty; auto|].
    intros q. unfold live. cbn. tauto.
  - inversion Hs; subst; cbn [no_wrap] in Hok.
    + eapply inv_malloc; eassumption.
    + apply inv_free; assumption.
    + eapply inv_realloc; eassumption.
    + destruct IH as (bl & L & W & _). exists [], []. split.
      * apply wf_empty; try reflexivity; apply W.
      * intros q. unfold live. cbn. tauto.
Qed.

(** ** Soundness of the executable run and of the executable check *)

Lemma existsb_eqb_In x (l : list Z) : existsb (Z.eqb x) l = true <-> In x l.
Proof.
  rewrite existsb_exists. split.
  - intros (y & Hy & E). apply Z.eqb_eq in E. congruence.
  - intros H. exists x. split; [exact H|apply Z.eqb_refl].
Qed.

Lemma is_sizeb_sound n : is_sizeb n = true -> is_size n.
Proof. unfold is_sizeb, is_size. intros H. apply andb_prop in H. lia. Qed.

Lemma is_argb_sound lv p : is_argb lv p = true -> is_arg lv p.
Proof.
  unfold is_argb, is_arg. intros H. apply orb_prop in H. destruct H as [H|H].
  - left. apply Z.eqb_eq. exact H.
  - right. apply existsb_eqb_In. exact H.
Qed.

Lemma no_wrapb_sound s c : no_wrapb s c = true -> no_wrap s c.
Proof.
  destruct c as [n|p|p n|]; cbn [no_wrapb no_wrap]; intros H; try exact I.
  - lia.
  - apply orb_prop in H. destruct H as [H|H]; [left; lia|right].
    apply andb_prop in H. lia.
Qed.

Lemma exec_sound g fuel s lv c s' lv' :
  exec g fuel (s, lv) c = Some (s', lv') ->
  g s c = true /\ step (s, lv) c (s', lv').
Proof.
  unfold exec. destruct (g s c); cbn [negb]; [|discriminate]. intros H.
  split; [reflexivity|]. destruct c as [n|p|p n|].
  - destruct (is_sizeb n) eqn:Hn; [|discriminate].
    destruct (mymalloc fuel s n) as [[s1 q]|] eqn:E; [|discriminate].
    injection H as <- <-. eapply step_malloc; [apply is_sizeb_sound|]; eassumption.
  - destruct (is_argb lv p) eqn:Hp; [|discriminate].
    injection H as <- <-. apply step_free, is_argb_sound, Hp.
  - destruct (is_argb lv p) eqn:Hp; [|discriminate].
    destruct (is_sizeb n) eqn:Hn; [|discriminate]. cbn [andb] in H.
    destruct (myrealloc fuel s p n) as [[s1 q]|] eqn:E; [|discriminate].
    injection H as <- <-.
    eapply step_realloc; [apply is_argb_sound|apply is_sizeb_sound|]; eassumption.
  - injection H as <- <-. apply step_reset.
Qed.

Lemma run_reach (ok : state -> call -> Prop) g fuel :
  (forall s c, g s c = true -> ok s c) ->
  forall cs s lv s' lv',
    reach ok s lv -> run g fuel (s, lv) cs = Some (s', lv') -> reach ok s' lv'.
Proof.
  intros Hg. induction cs as [|c cs IH]; intros s lv s' lv' Hr H; cbn [run] in H.
  - injection H as <- <-. exact Hr.
  - destruct (exec g fuel (s, lv) c) as [[s1 lv1]|] eqn:E; [|discriminate].
    apply exec_sound in E. destruct E as [Hok Hs].
    apply (IH s1 lv1); [|exact H].
    eapply reach_step; [exact Hr|apply Hg; exact Hok|exact Hs].
Qed.

Lemma tilesb_sound m : forall bl a e, tilesb m a bl e = true -> tiles m a bl e.
Proof.
  induction bl as [|b r IH]; intros a e H; cbn [tilesb tiles] in *.
  - apply Z.eqb_eq. exact H.
  - apply andb_prop in H. destruct H as [H1 H2]. split.
    + apply Z.eqb_eq. exact H1.
    + apply IH. exact H2.
Qed.

Lemma lsegb_sound m : forall L h t, lsegb m h L t = true -> lseg m h L t.
Proof.
  induction L as [|x r IH]; intros h t H; cbn [lsegb lseg] in *.
  - apply Z.eqb_eq. exact H.
  - apply andb_prop in H. destruct H as [H12 H3].
    apply andb_prop in H12. destruct H12 as [H1 H2]. split; [|split].
    + apply Z.eqb_eq. exact H1.
    + apply Z.eqb_neq. destruct (x =? NULL); [discriminate|reflexivity].
    + apply IH. exact H3.
Qed.

Lemma psegb_sound m : forall L p, psegb m p L = true -> pseg m p L.
Proof.
  induction L as [|x r IH]; intros p H; cbn [psegb pseg] in *.
  - exact I.
  - apply andb_prop in H. destruct H as [H1 H2]. split.
    + apply Z.eqb_eq. exact H1.
    + apply IH. exact H2.
Qed.

Lemma nodupb_sound : forall L, nodupb L = true -> NoDup L.
Proof.
  induction L as [|x r IH]; intros H; cbn [nodupb] in *.
  - constructor.
  - apply andb_prop in H. destruct H as [H1 H2]. constructor.
    + intros Hin. apply existsb_eqb_In in Hin. rewrite Hin in H1. discriminate.
    + apply IH. exact H2.
Qed.

Lemma wf_check_sound s bl L : wf_check s bl L = true -> wf s bl L.
Proof.
  unfold wf_check. intros H.
  repeat (apply andb_prop in H; let H' := fresh "C" in destruct H as [H H']).
  constructor; try lia.
  - apply tilesb_sound. assumption.
  - split; [|split].
    + apply lsegb_sound. assumption.
    + apply psegb_sound. assumption.
    + apply nodupb_sound. assumption.
  - unfold memberb in *. apply andb_prop in C. destruct C as [M1 M2].
    rewrite forallb_forall in M1, M2. intros b. split.
    + intros Hb. specialize (M1 b Hb). apply andb_prop in M1.
      destruct M1 as [M1 M1']. split; [apply existsb_eqb_In; exact M1|].
      destruct (Z.eqb_spec (getf Fcheck_free (memory s) b) 0); [discriminate|assumption].
    + intros [Hb Hf]. specialize (M2 b Hb). apply orb_prop in M2.
      destruct M2 as [M2|M2]; [|apply existsb_eqb_In; exact M2].
      apply Z.eqb_eq in M2. contradiction.
Qed.

(** ** The fresh pool is reachable *)

Lemma reach_st_init ok : reach ok st_init [].
Proof. apply reach_init; vm_compute; reflexivity. Qed.

Lemma run_any fuel cs s lv :
  run any_callb fuel (st_init, []) cs = Some (s, lv) -> reach any_call s lv.
Proof.
  apply (run_reach any_call any_callb fuel).
  - intros ? ? _. exact I.
  - apply reach_st_init.
Qed.

Lemma run_no_wrap fuel cs s lv :
  run no_wrapb fuel (st_init, []) cs = Some (s, lv) -> reach no_wrap s lv.
Proof.
  apply (run_reach no_wrap no_wrapb fuel).
  - apply no_wrapb_sound.
  - apply reach_st_init.
Qed.

(** * Properties from the specification *)

(** C1 (fails on the code): with an empty free list and
    [used + sizeof(md) + size] above the capacity, [mymalloc] is to return
    [NULL] and change nothing.  For [size = 2^64 - 32] the sum
    [sizeof(md) + size] wraps to [0], the capacity test passes, and the call
    returns the non-null pointer [base + 32] after writing a header whose
    size field is [2^64 - 32]. *)
Theorem C1_capacity_check_wraps :
  free_list st_init = NULL /\
  CAP < used st_init + sizeof_md + (modulus - 32) /\
  exists s',
    mymalloc 1 st_init (modulus - 32) = Some (s', pool_base + 32) /\
    used s' = 0 /\
    getf Fsize (memory s') pool_base = modulus - 32 /\
    getf Fcheck_free (memory s') pool_base = 0.
Proof.
  split; [reflexivity|]. split; [vm_compute; reflexivity|].
  eexists. split; [vm_compute; reflexivity|].
  repeat split; vm_compute; reflexivity.
Qed.

(** C2 (fails on the code): the blocks are to tile [0, used) after every
    sequence of operations.  After [allocate(8)] and
    [allocate(2^64 - 33)] the second request's total wraps to [2^64 - 1],
    the capacity test passes, and [used] goes back from 40 to 39, inside the
    first block, which covers offsets 0 to 40. *)
Theorem C2_wrapped_request_breaks_contiguity :
  exists s lv,
    run any_callb 1 (st_init, []) c2_calls = Some (s, lv) /\
    reach any_call s lv /\
    used s = 39 /\ getf Fsize (memory s) (base s) = 8 /\
    ~ contiguous s.
Proof.
  eexists. eexists. split; [vm_compute; reflexivity|].
  split; [apply (run_any 1 c2_calls); vm_compute; reflexivity|].
  split; [reflexivity|]. split; [vm_compute; reflexivity|].
  intros (bl & T). destruct bl as [|b r]; cbn [tiles base used] in T.
  - lia.
  - destruct T as [_ T]. apply tiles_le in T. revert T.
    match goal with
    | |- ?a + sizeof_md + getf Fsize ?m ?a <= _ -> _ =>
        replace (getf Fsize m a) with 8 by (vm_compute; reflexivity)
    end.
    unfold sizeof_md. lia.
Qed.

(** C3 (fails on the code): a block below [used] is to be on the free
    list exactly when its flag is set.  [allocate(8)] takes offsets 0 to
    40; the total of [allocate(2^64 - 72)] wraps to [2^64 - 40], the
    capacity test passes and [used] returns to 0; [free] of the first
    pointer links the block at offset 0 as head of the free list;
    [allocate(16)] does not fit its 8 bytes and bump-allocates at offset 0
    again.  In the end the blocks tile [0, used) with the single block at
    offset 0, the free list is the well-formed list of that one block, and
    its flag says allocated. *)
Theorem C3_wrapped_request_breaks_membership :
  exists s lv,
    run any_callb 2 (st_init, []) c3_calls = Some (s, lv) /\
    reach any_call s lv /\
    used s = 48 /\
    tiles (memory s) (base s) [base s] (base s + used s) /\
    flist (memory s) (free_list s) [base s] /\
    getf Fcheck_free (memory s) (base s) = 0.
Proof.
  eexists. eexists. split; [vm_compute; reflexivity|].
  split; [apply (run_any 2 c3_calls); vm_compute; reflexivity|].
  split; [reflexivity|]. split; [|split].
  - apply tilesb_sound. vm_compute. reflexivity.
  - split; [|split].
    + apply lsegb_sound. vm_compute. reflexivity.
    + apply psegb_sound. vm_compute. reflexivity.
    + apply nodupb_sound. reflexivity.
  - vm_compute. reflexivity.
Qed.

(** C4: [myfree(p)] for non-null [p] links the header and runs the two
    merge steps.  The forward step computes the neighbour address
    [header + sizeof(md) + size]; when that address is at or beyond
    [base + used], or the neighbour's flag is clear, it changes nothing;
    otherwise it calls [remove_from_free_list] on the neighbour and adds
    [sizeof(md) + neighbour.size] to the block's size.  On a well-formed
    state and for a live [p] this means: a free neighbour below
    [base + used] leaves the free list and the block list and the freed
    block's size grows by exactly [sizeof(md) + neighbour.size]; in the
    other case the block keeps its size and is only linked at the head of
    the free list. *)
Theorem C4_forward_merge s p :
  p <> NULL ->
  let b := wrap (p - sizeof_md) in
  let s1 := insert_into_free_list s b in
  let nb := wrap (b + sizeof_md + getf Fsize (memory s1) b) in
  let s' := myfree s p in
  s' = merge_prev (merge_next s1 b) b /\
  (wrap (base s1 + used s1) <= nb \/ getf Fcheck_free (memory s1) nb = 0 ->
     merge_next s1 b = s1) /\
  (nb < wrap (base s1 + used s1) -> getf Fcheck_free (memory s1) nb <> 0 ->
     let t := remove_from_free_list s1 nb in
     merge_next s1 b =
       with_mem t (setf Fsize (memory t) b
                     (wrap (getf Fsize (memory t) b
                            + (sizeof_md + getf Fsize (memory t) nb))))) /\
  forall bl L,
    wf s bl L -> live s bl p ->
    b = p - sizeof_md /\
    nb = b + sizeof_md + getf Fsize (memory s) b /\
    (nb < base s + used s -> getf Fcheck_free (memory s1) nb <> 0 ->
       getf Fsize (memory s') b =
         getf Fsize (memory s) b + sizeof_md + getf Fsize (memory s) nb /\
       exists X Y A B,
         bl = X ++ b :: nb :: Y /\ L = A ++ nb :: B /\
         wf s' (X ++ b :: Y) (b :: A ++ B)) /\
    (base s + used s <= nb \/ getf Fcheck_free (memory s1) nb = 0 ->
       getf Fsize (memory s') b = getf Fsize (memory s) b /\
       wf s' bl (b :: L)).
Proof.
  intros Hp b s1 nb s'. split; [|split; [|split]].
  - unfold s', myfree. destruct (Z.eqb_spec p NULL); [contradiction|]. reflexivity.
  - intros Hc. unfold merge_next. fold nb.
    destruct Hc as [Hc|Hc].
    + destruct (Z.ltb_spec nb (wrap (base s1 + used s1))); [lia|]. reflexivity.
    + rewrite Hc. cbn [Z.eqb negb]. rewrite andb_false_r. reflexivity.
  - intros Hlt Hfree t. unfold merge_next. fold nb.
    destruct (Z.ltb_spec nb (wrap (base s1 + used s1))); [|lia].
    destruct (Z.eqb_spec (getf Fcheck_free (memory s1) nb) 0); [contradiction|].
    reflexivity.
  - intros bl L W Hlive.
    destruct (wf_live_ptr _ _ _ W _ Hlive) as (_ & _ & Ew).
    assert (Eb : b = p - sizeof_md) by exact Ew.
    pose proof Hlive as [Hb Hf]. rewrite <- Eb in Hb, Hf.
    pose proof (free_s1_wf s bl L p W Hlive) as W1.
    pose proof (free_s1_size s bl L p W Hlive) as Es.
    rewrite <- Eb in W1, Es. fold s1 in W1, Es.
    assert (En : nb = b + sizeof_md + getf Fsize (memory s) b).
    { unfold nb. destruct (merge_next_addr s1 bl L b W1) as [Ea _].
      rewrite Ea, Es. reflexivity. }
    assert (Hflag : nb < base s + used s ->
              getf Fcheck_free (memory s1) nb = getf Fcheck_free (memory s) nb).
    { intros Hlt.
      pose proof (tiles_succ _ _ _ _ _ (wf_tiles _ _ _ W) Hb) as HS.
      cbv zeta in HS. rewrite <- En in HS.
      destruct HS as [[E _]|[_ (X & Y & Ebl)]]; [lia|].
      assert (Hn : In nb bl).
      { rewrite Ebl. apply in_or_app. right; right; left; reflexivity. }
      destruct (free_insert_fields s bl L b W Hb Hf nb Hn) as [_ Ef].
      fold s1 in Ef. rewrite Ef.
      destruct (Z.eqb_spec nb b) as [E|_]; [|reflexivity].
      pose proof (getf_range Fsize (memory s) b). unfold sizeof_md in En. lia. }
    split; [exact Eb|]. split; [exact En|]. split.
    + intros Hlt Hfree. rewrite (Hflag Hlt) in Hfree.
      rewrite En in Hlt, Hfree. rewrite Eb in Hlt, Hfree.
      destruct (free_merged s bl L p W Hlive Hlt Hfree)
        as (X & Y & A & B & Ebl & EL & _ & W' & Esz).
      rewrite <- Eb in Ebl, EL, W', Esz. rewrite <- En in Ebl, EL, Esz.
      split; [exact Esz|]. exists X, Y, A, B. auto.
    + intros Hc.
      assert (Hc' : base s + used s <= nb \/ getf Fcheck_free (memory s) nb = 0).
      { destruct Hc as [Hc|Hc]; [left; exact Hc|].
        destruct (Z_lt_le_dec nb (base s + used s)) as [Hlt|Hge];
          [right; rewrite <- (Hflag Hlt); exact Hc|left; exact Hge]. }
      rewrite En in Hc'. rewrite Eb in Hc'.
      destruct (free_unmerged s bl L p W Hlive Hc') as [E W'].
      rewrite <- Eb in E, W'. fold s1 in E.
      split; [|exact W']. unfold s'. rewrite E. exact Es.
Qed.

Lemma C4_forward_merge_witness :
  wf c4_state [pool_base; pool_base + 96] [pool_base + 96] /\
  live c4_state [pool_base; pool_base + 96] (pool_base + 32) /\
  getf Fsize (memory (myfree c4_state (pool_base + 32))) pool_base
    = 64 + 32 + 64.
Proof.
  assert (W : wf c4_state [pool_base; pool_base + 96] [pool_base + 96])
    by (apply wf_check_sound; vm_compute; reflexivity).
  assert (P : live c4_state [pool_base; pool_base + 96] (pool_base + 32))
    by (split; [left|]; vm_compute; reflexivity).
  split; [exact W|]. split; [exact P|].
  destruct (C4_forward_merge c4_state (pool_base + 32)) as (_ & _ & _ & H);
    [vm_compute; discriminate|].
  destruct (H _ _ W P) as (_ & _ & H' & _).
  destruct H' as [H' _]; [vm_compute; reflexivity|vm_compute; discriminate|].
  exact H'.
Defined.

(** C5 (fails on the code): freeing two adjacent blocks in either order is
    to leave one free block of the combined size.  Head-then-tail: after
    [p1 = allocate(64)], [p2 = allocate(64)], [free(p1)], [free(p2)] the
    free list holds two separate blocks of size 64 (the second [if] of
    [merge_blocks] reads [block->prev], which [insert_into_free_list] has
    just set to [NULL]), and [allocate(160)] finds no fit and bump-allocates,
    taking [used] from 192 to 384. *)
Theorem C5_head_then_tail_not_coalesced :
  exists s lv,
    run no_wrapb 3 (st_init, []) c5_calls = Some (s, lv) /\
    reach no_wrap s lv /\
    wf s [pool_base; pool_base + 96] [pool_base + 96; pool_base] /\
    getf Fsize (memory s) pool_base = 64 /\
    getf Fsize (memory s) (pool_base + 96) = 64 /\
    used s = 192 /\
    exists s' q,
      mymalloc 3 s (64 + 32 + 64) = Some (s', q) /\ used s' = 384.
Proof.
  eexists. eexists. split; [vm_compute; reflexivity|].
  split; [apply (run_no_wrap 3 c5_calls); vm_compute; reflexivity|].
  split; [apply wf_check_sound; vm_compute; reflexivity|].
  split; [vm_compute; reflexivity|]. split; [vm_compute; reflexivity|].
  split; [reflexivity|].
  eexists. eexists. split; vm_compute; reflexivity.
Qed.

(** C6 (fails on the code): resizing the tail block in place is to
    advance [used] by [new_size - old_size].  After [allocate(64)] and
    [allocate(16)] the second block is the tail: [used] is 144 and its
    size is 16.  [reallocate(p, 2^64 - 1)] on it takes the in-place path,
    which has no test at all: [used += size - old_size] wraps, [used] goes
    back from 144 to 127, an address inside that block's own header, the
    header's size becomes [2^64 - 1], and [p] is returned as if the block
    had grown.  No sequence of blocks tiles the pool any more. *)
Theorem C6_in_place_growth_wraps :
  wf c6_state [pool_base; pool_base + 96] [] /\
  live c6_state [pool_base; pool_base + 96] (pool_base + 128) /\
  getf Fsize (memory c6_state) (pool_base + 96) = 16 /\
  used c6_state = 144 /\
  pool_base + 128 + 16 = base c6_state + used c6_state /\
  exists s lv,
    run any_callb 1 (st_init, []) c6_calls = Some (s, lv) /\
    reach any_call s lv /\
    lv = [pool_base + 128; pool_base + 32] /\
    getf Fsize (memory s) (pool_base + 96) = modulus - 1 /\
    used s = 127 /\
    used s <> used c6_state + (modulus - 1 - 16) /\
    ~ contiguous s.
Proof.
  split; [apply wf_check_sound; vm_compute; reflexivity|].
  split; [split; [right; left|]; vm_compute; reflexivity|].
  split; [vm_compute; reflexivity|]. split; [reflexivity|].
  split; [reflexivity|].
  eexists. eexists. split; [vm_compute; reflexivity|].
  split; [apply (run_any 1 c6_calls); vm_compute; reflexivity|].
  split; [reflexivity|]. split; [vm_compute; reflexivity|].
  split; [reflexivity|]. split; [vm_compute; discriminate|].
  intros (bl & T). destruct bl as [|b r]; cbn [tiles base used] in T; [lia|].
  destruct T as [_ T]. revert T.
  match goal with
  | |- tiles ?m (?a + sizeof_md + getf Fsize ?m ?a) _ _ -> _ =>
      replace (getf Fsize m a) with 64 by (vm_compute; reflexivity)
  end.
  intros T. destruct r as [|b2 r2]; cbn [tiles] in T;
    [unfold sizeof_md in T; lia|].
  destruct T as [_ T]. apply tiles_le in T. revert T.
  match goal with
  | |- ?a + sizeof_md + getf Fsize ?m ?a <= _ -> _ =>
      replace (getf Fsize m a) with (modulus - 1) by (vm_compute; reflexivity)
  end.
  unfold sizeof_md. rewrite modulus_eq. lia.
Qed.

(** C7 (fails on the code): reallocating a block that is not the tail is
    to allocate a fresh block of [new_size], copy, free the old block and
    return the new pointer.  After [allocate(16)] twice, [used] is 96 and
    the first block is not the tail.  [reallocate(p1, 2^64 - 32)] calls
    [mymalloc(2^64 - 32)], whose total wraps to 0: the capacity test
    passes, a header with size [2^64 - 32] is written at offset 96, [used]
    stays 96, and the call returns offset 128 after copying 16 bytes and
    freeing the old block.  Not one byte has been set aside for the new
    block: the next [allocate(64)] finds the old 16-byte block too small,
    bump-allocates at offset 96 again, overwrites that header and returns
    the very same pointer, which is now handed out twice. *)
Theorem C7_wrapped_move_reserves_nothing :
  wf c7_state [pool_base; pool_base + 48] [] /\
  live c7_state [pool_base; pool_base + 48] (pool_base + 32) /\
  getf Fsize (memory c7_state) pool_base = 16 /\
  used c7_state = 96 /\
  pool_base + 32 + 16 <> base c7_state + used c7_state /\
  (exists s1,
     myrealloc 2 c7_state (pool_base + 32) (modulus - 32)
       = Some (s1, pool_base + 128) /\
     used s1 = 96 /\
     getf Fsize (memory s1) (pool_base + 96) = modulus - 32 /\
     getf Fcheck_free (memory s1) pool_base = 1 /\
     exists s2, mymalloc 2 s1 64 = Some (s2, pool_base + 128)) /\
  exists s lv,
    run any_callb 2 (st_init, []) c7_calls = Some (s, lv) /\
    reach any_call s lv /\
    lv = [pool_base + 128; pool_base + 128; pool_base + 80] /\
    getf Fsize (memory s) (pool_base + 96) = 64 /\
    used s = 192.
Proof.
  split; [apply wf_check_sound; vm_compute; reflexivity|].
  split; [split; [left|]; vm_compute; reflexivity|].
  split; [vm_compute; reflexivity|]. split; [reflexivity|].
  split; [vm_compute; discriminate|]. split.
  - eexists. split; [vm_compute; reflexivity|].
    split; [reflexivity|]. split; [vm_compute; reflexivity|].
    split; [vm_compute; reflexivity|].
    eexists. vm_compute. reflexivity.
  - eexists. eexists. split; [vm_compute; reflexivity|].
    split; [apply (run_any 2 c7_calls); vm_compute; reflexivity|].
    split; [reflexivity|]. split; [vm_compute; reflexivity|]. reflexivity.
Qed.

(** C8: [mymalloc(size)] scans the free list from its head; when [x] is
    the first block on it with [size <= x->size] (every block before it is
    too small), [x] is unlinked from the list, its flag is cleared, and
    [x + 1] is returned; the size recorded in [x], and in every other
    block, is unchanged (no split) and neither [base] nor [used] moves. *)
Theorem C8_first_fit_reuse s bl A B x size fuel :
  wf s bl (A ++ x :: B) ->
  (forall y, In y A -> getf Fsize (memory s) y < size) ->
  size <= getf Fsize (memory s) x ->
  (length A < fuel)%nat ->
  exists s',
    mymalloc fuel s size = Some (s', x + sizeof_md) /\
    wf s' bl (A ++ B) /\
    getf Fcheck_free (memory s') x = 0 /\
    base s' = base s /\ used s' = used s /\
    (forall a, In a bl -> getf Fsize (memory s') a = getf Fsize (memory s) a).
Proof.
  intros W Hskip Hfit Hfuel.
  assert (Hx : In x bl).
  { apply (wf_sub _ _ _ W), in_or_app. right; left; reflexivity. }
  eexists. split; [apply (reuse_result s bl A B x size fuel W Hskip Hfit Hfuel)|].
  pose proof (reuse_fields s bl A B x W) as F.
  split; [apply (reuse_wf s bl A B x W)|].
  destruct (F x Hx) as (Eb & Eu & _ & Ef). rewrite Z.eqb_refl in Ef.
  split; [exact Ef|]. split; [exact Eb|]. split; [exact Eu|].
  intros a Ha. apply (F a Ha).
Qed.

Lemma C8_first_fit_reuse_witness :
  wf c8_state
     [pool_base; pool_base + 48; pool_base + 88; pool_base + 184]
     ([pool_base] ++ (pool_base + 88) :: []) /\
  exists s',
    mymalloc 2 c8_state 32 = Some (s', pool_base + 88 + sizeof_md) /\
    getf Fsize (memory s') (pool_base + 88) = 64.
Proof.
  assert (W : wf c8_state
                [pool_base; pool_base + 48; pool_base + 88; pool_base + 184]
                ([pool_base] ++ (pool_base + 88) :: []))
    by (apply wf_check_sound; vm_compute; reflexivity).
  split; [exact W|].
  destruct (C8_first_fit_reuse c8_state _ [pool_base] [] (pool_base + 88) 32 2 W)
    as (s' & E & _ & _ & _ & _ & Fs).
  - intros y [<-|[]]. vm_compute. reflexivity.
  - vm_compute. discriminate.
  - cbn. lia.
  - exists s'. split; [exact E|]. rewrite Fs.
    + vm_compute. reflexivity.
    + right; right; left; reflexivity.
Defined.

(** C9 (as stated, fails): [reallocate(null, n)] is to behave like
    [allocate(n)] for every [n].  [myrealloc] tests [size == 0] before it
    tests the pointer, so [myrealloc(NULL, 0)] returns [NULL] and changes
    nothing, while [mymalloc(0)] on the fresh pool returns [base + 32]. *)
Lemma C9_counterexample :
  ~ (forall fuel s n, myrealloc fuel s NULL n = mymalloc fuel s n).
Proof.
  intros H. specialize (H 1%nat st_init 0).
  apply (f_equal (option_map snd)) in H. vm_compute in H. discriminate.
Qed.

(** C9 (amended): [myfree(NULL)] changes nothing; [myrealloc(NULL, n)] is
    [mymalloc(n)] for every [n] other than 0, and for [n = 0] it returns
    [NULL] and changes nothing; [myrealloc(p, 0)] is [myfree(p)] and
    returns [NULL], for every [p]. *)
Theorem C9_null_and_zero_arguments :
  (forall s, myfree s NULL = s) /\
  (forall fuel s n,
     myrealloc fuel s NULL n =
       if n =? 0 then Some (s, NULL) else mymalloc fuel s n) /\
  (forall fuel s p, myrealloc fuel s p 0 = Some (myfree s p, NULL)).
Proof.
  split; [reflexivity|]. split.
  - intros fuel s n. unfold myrealloc. destruct (n =? 0); reflexivity.
  - intros fuel s p. reflexivity.
Qed.

(** C10 (as stated, fails): [allocate(0)] is never to fail.  After
    [allocate(CAP - 32)] the pool is full ([used = CAP]) and the free list
    is empty; [mymalloc(0)] then needs 32 bytes for a header, fails the
    capacity test and returns [NULL]. *)
Lemma C10_counterexample :
  exists s lv,
    run no_wrapb 1 (st_init, []) c10_calls = Some (s, lv) /\
    reach no_wrap s lv /\
    used s = CAP /\ free_list s = NULL /\
    mymalloc 1 s 0 = Some (s, NULL).
Proof.
  eexists. eexists. split; [vm_compute; reflexivity|].
  split; [apply (run_no_wrap 1 c10_calls); vm_compute; reflexivity|].
  split; [reflexivity|]. split; [reflexivity|].
  unfold mymalloc. cbn [find_fit free_list Z.eqb NULL negb].
  reflexivity.
Qed.

(** C10 (amended): on a well-formed state, [mymalloc(0)] with a
    non-empty free list returns the payload of the head free block, which
    leaves the list; with an empty free list it bump-allocates a block
    whose header records size 0, advancing [used] by exactly [sizeof(md)],
    provided [used + sizeof(md) <= CAP]; and with an empty free list and
    [used + sizeof(md) > CAP] (the sum not wrapping) it returns [NULL] and
    changes nothing. *)
Theorem C10_allocate_zero s bl L fuel :
  wf s bl L -> (0 < fuel)%nat ->
  (forall x B, L = x :: B ->
     free_list s = x /\
     exists s', mymalloc fuel s 0 = Some (s', x + sizeof_md) /\
                wf s' bl B /\ used s' = used s) /\
  (L = [] -> used s + sizeof_md <= CAP ->
     exists s', mymalloc fuel s 0 = Some (s', base s + used s + sizeof_md) /\
                used s' = used s + sizeof_md /\
                getf Fsize (memory s') (base s + used s) = 0 /\
                getf Fcheck_free (memory s') (base s + used s) = 0 /\
                wf s' (bl ++ [base s + used s]) []) /\
  (L = [] -> CAP < used s + sizeof_md < modulus ->
     mymalloc fuel s 0 = Some (s, NULL)).
Proof.
  intros W Hfuel. split; [|split].
  - intros x B ->. split; [apply (flist_head _ _ _ (wf_flist _ _ _ W))|].
    change (x :: B) with ([] ++ x :: B) in W.
    assert (Hskip : forall y, In y [] -> getf Fsize (memory s) y < 0)
      by (intros y []).
    pose proof (getf_range Fsize (memory s) x) as [Hx _].
    assert (Hxin : In x bl) by (apply (wf_sub _ _ _ W); left; reflexivity).
    eexists. split; [apply (reuse_result s bl [] B x 0 fuel W Hskip Hx Hfuel)|].
    split; [apply (reuse_wf s bl [] B x W)|].
    apply (reuse_fields s bl [] B x W x Hxin).
  - intros -> Hroom.
    assert (Hnone : forall y, In y [] -> getf Fsize (memory s) y < 0)
      by (intros y []).
    pose proof (wf_used _ _ _ W) as Hu. pose proof (wf_pool _ _ _ W) as Hp.
    pose proof (wf_base _ _ _ W) as Hb.
    assert (Hnw : used s + sizeof_md + 0 < modulus) by zsolve.
    assert (Hroom' : used s + sizeof_md + 0 <= CAP) by lia.
    pose proof (bump_header s bl [] 0 W (Z.le_refl 0) Hnw Hroom') as [Es Ef].
    eexists. split; [|split; [|split; [exact Es|split; [exact Ef|]]]].
    + apply (bump_result s bl [] 0 fuel W Hnone Hfuel (Z.le_refl 0) Hnw Hroom').
    + cbn [used]. lia.
    + pose proof (bump_wf s bl [] 0 W (Z.le_refl 0) Hnw Hroom') as W'.
      exact W'.
  - intros -> [Hfull Hnw].
    assert (Hnone : forall y, In y [] -> getf Fsize (memory s) y < 0)
      by (intros y []).
    apply (bump_fail s bl [] 0 fuel W Hnone Hfuel (Z.le_refl 0)); lia.
Qed.

Lemma C10_allocate_zero_witness :
  wf c10_state [pool_base; pool_base + 96] [pool_base] /\
  exists s', mymalloc 1 c10_state 0 = Some (s', pool_base + sizeof_md) /\
             used s' = used c10_state.
Proof.
  assert (W : wf c10_state [pool_base; pool_base + 96] [pool_base])
    by (apply wf_check_sound; vm_compute; reflexivity).
  split; [exact W|].
  destruct (C10_allocate_zero c10_state _ _ 1 W ltac:(lia)) as (H & _ & _).
  destruct (H pool_base [] eq_refl) as (_ & s' & E & _ & Eu).
  exists s'. split; assumption.
Defined.

(** * Further properties *)

(** X1: along every run in which no request wraps ([no_wrap]), the blocks
    tile [base, base + used) exactly, the free list is a well-formed doubly
    linked list of blocks, a block is on it exactly when its flag is set,
    and the pointers handed out and not yet freed are exactly the payload
    pointers of the allocated blocks. *)
Theorem safe_runs_keep_invariants s lv :
  reach no_wrap s lv ->
  exists bl L,
    tiles (memory s) (base s) bl (base s + used s) /\
    flist (memory s) (free_list s) L /\
    (forall b, In b L -> In b bl) /\
    (forall b, In b bl -> (In b L <-> getf Fcheck_free (memory s) b <> 0)) /\
    (forall q, In q lv <-> live s bl q).
Proof.
  intros H. destruct (reach_inv s lv H) as (bl & L & W & Hlv).
  exists bl, L. split; [apply W|]. split; [apply W|].
  split; [apply (wf_sub _ _ _ W)|]. split; [|exact Hlv].
  intros b Hb. rewrite (wf_member _ _ _ W b). tauto.
Qed.

Lemma safe_runs_keep_invariants_witness :
  reach no_wrap c8_state [pool_base + 216; pool_base + 80] /\
  exists bl L,
    tiles (memory c8_state) (base c8_state) bl (base c8_state + used c8_state) /\
    flist (memory c8_state) (free_list c8_state) L.
Proof.
  assert (R : reach no_wrap c8_state [pool_base + 216; pool_base + 80]).
  { apply (run_no_wrap 2 [Malloc 16; Malloc 8; Malloc 64; Malloc 8;
                          Free (pool_base + 120); Free (pool_base + 32)]).
    vm_compute. reflexivity. }
  split; [exact R|].
  destruct (safe_runs_keep_invariants _ _ R) as (bl & L & T & F & _).
  exists bl, L. split; assumption.
Defined.

(** X2: when [used + sizeof(md) + size] does not wrap and no free block
    fits, [mymalloc(size)] returns [NULL] and leaves the state unchanged if
    the sum exceeds [CAP]; otherwise it writes a header with the requested
    size and a cleared flag at [base + used], advances [used] by
    [sizeof(md) + size], returns the address just after that header, and
    re-establishes the invariant with the new block appended. *)
Theorem mymalloc_bump_without_wrap s bl L size fuel :
  wf s bl L ->
  (forall y, In y L -> getf Fsize (memory s) y < size) ->
  (length L < fuel)%nat -> 0 <= size ->
  used s + sizeof_md + size < modulus ->
  (CAP < used s + sizeof_md + size -> mymalloc fuel s size = Some (s, NULL)) /\
  (used s + sizeof_md + size <= CAP ->
     exists s',
       mymalloc fuel s size = Some (s', base s + used s + sizeof_md) /\
       base s' = base s /\ free_list s' = free_list s /\
       used s' = used s + (sizeof_md + size) /\
       getf Fsize (memory s') (base s + used s) = size /\
       getf Fcheck_free (memory s') (base s + used s) = 0 /\
       (forall a f, In a bl -> getf f (memory s') a = getf f (memory s) a) /\
       wf s' (bl ++ [base s + used s]) L).
Proof.
  intros W Hnone Hfuel Hsize Hnw. split.
  - apply (bump_fail s bl L size fuel W Hnone Hfuel Hsize Hnw).
  - intros Hroom.
    destruct (bump_header s bl L size W Hsize Hnw Hroom) as [Es Ef].
    eexists. split;
      [apply (bump_result s bl L size fuel W Hnone Hfuel Hsize Hnw Hroom)|].
    cbn [base used free_list].
    split; [reflexivity|]. split; [reflexivity|]. split; [lia|].
    split; [exact Es|]. split; [exact Ef|]. split.
    + intros a f Ha.
      apply (bump_fields s bl L size W Hsize Hnw Hroom a f Ha).
    + apply (bump_wf s bl L size W Hsize Hnw Hroom).
Qed.

Lemma mymalloc_bump_without_wrap_witness :
  wf c7_state [pool_base; pool_base + 48] [] /\
  exists s',
    mymalloc 1 c7_state 100 = Some (s', pool_base + 96 + sizeof_md) /\
    used s' = 96 + (sizeof_md + 100).
Proof.
  assert (W : wf c7_state [pool_base; pool_base + 48] [])
    by (apply wf_check_sound; vm_compute; reflexivity).
  split; [exact W|].
  destruct (mymalloc_bump_without_wrap c7_state _ _ 100 1 W) as [_ H].
  - intros y [].
  - cbn. lia.
  - lia.
  - vm_compute. reflexivity.
  - destruct H as (s' & E & _ & _ & Eu & _); [vm_compute; discriminate|].
    exists s'. split; [exact E|exact Eu].
Defined.

(** X3 (tail-then-head): freeing the second of two adjacent allocated
    blocks and then the first leaves one free block of the combined size at
    the head of the free list: the second block is no longer a block of the
    pool and no longer on the free list, which holds the merged block
    followed by exactly its old members.  An allocation of exactly the
    combined size reuses the merged block without moving [used].  (The
    successor of the second block, if any, is taken to be allocated; a free
    one would be absorbed as well.) *)
Lemma coalesce_tail_then_head s bl L pa pb fuel :
  wf s bl L -> live s bl pa -> live s bl pb ->
  let a := pa - sizeof_md in
  let b := pb - sizeof_md in
  let sa := getf Fsize (memory s) a in
  let sb := getf Fsize (memory s) b in
  let s2 := myfree (myfree s pb) pa in
  b = a + sizeof_md + sa ->
  (base s + used s <= b + sizeof_md + sb \/
   getf Fcheck_free (memory s) (b + sizeof_md + sb) = 0) ->
  (0 < fuel)%nat ->
  getf Fsize (memory s2) a = sa + sizeof_md + sb /\
  getf Fcheck_free (memory s2) a <> 0 /\
  free_list s2 = a /\
  (exists s3,
     mymalloc fuel s2 (sa + sizeof_md + sb) = Some (s3, pa) /\
     used s3 = used s) /\
  (exists X Y,
     bl = X ++ a :: b :: Y /\
     wf s2 (X ++ a :: Y) (a :: L) /\
     ~ In b (X ++ a :: Y)) /\
  flist (memory s2) (free_list s2) (a :: L) /\
  ~ In b (a :: L) /\
  base s2 = base s /\ used s2 = used s.
Proof.
  intros W Ha Hb a b sa sb s2 Eadj Hsucc Hfuel.
  pose proof Ha as [Ha1 Ha2]. pose proof Hb as [Hb1 Hb2].
  fold a in Ha1, Ha2. fold b in Hb1, Hb2.
  pose proof (getf_range Fsize (memory s) a) as Rsa. fold sa in Rsa.
  assert (Hab : a <> b) by (unfold sizeof_md in Eadj; lia).
  (* first call: the tail block is only linked *)
  destruct (free_unmerged s bl L pb W Hb Hsucc) as [E1 W1]. fold b in E1, W1.
  destruct (free_frame s bl L pb W Hb) as (Eb1 & Eu1 & Ff1 & Fs1 & _).
  fold b in Ff1, Fs1.
  set (s1 := myfree s pb) in *.
  assert (Ha' : live s1 bl pa).
  { split; fold a; [exact Ha1|]. rewrite (Ff1 a Ha1).
    destruct (Z.eqb_spec a b); [contradiction|exact Ha2]. }
  assert (Esa : getf Fsize (memory s1) a = sa) by (apply Fs1; assumption).
  assert (Esb : getf Fsize (memory s1) b = sb).
  { rewrite E1. apply (free_insert_fields s bl L b W Hb1 Hb2 b Hb1). }
  (* second call: the head block absorbs it *)
  pose proof (wf_block_bounds _ _ _ W1 _ Hb1) as [_ Bb]. rewrite Esb in Bb.
  pose proof (getf_range Fsize (memory s) b) as Rsb. fold sb in Rsb.
  assert (Hlt : a + sizeof_md + getf Fsize (memory s1) a < base s1 + used s1).
  { rewrite Esa, <- Eadj. unfold sizeof_md in *. lia. }
  assert (Hfree : getf Fcheck_free (memory s1)
                    (a + sizeof_md + getf Fsize (memory s1) a) <> 0).
  { rewrite Esa, <- Eadj, (Ff1 b Hb1), Z.eqb_refl. lia. }
  destruct (free_merged s1 bl (b :: L) pa W1 Ha' Hlt Hfree)
    as (X & Y & A & B & Ebl & EL & _ & W2 & Esz).
  fold a in Ebl, EL, W2, Esz. fold s2 in W2, Esz.
  rewrite Esa, <- Eadj, Esb in Esz.
  destruct (free_frame s1 bl (b :: L) pa W1 Ha') as (Eb2 & Eu2 & Ff2 & _).
  fold a in Ff2. fold s2 in Eb2, Eu2, Ff2.
  (* the absorbed block was the head of the list, and occurs once *)
  rewrite Esa, <- Eadj in Ebl, EL.
  assert (HAB : A = [] /\ B = L).
  { pose proof (wf_flist _ _ _ W1) as (_ & _ & Hnd).
    destruct A as [|a0 A'].
    - cbn [app] in EL. injection EL as EL. auto.
    - cbn [app] in EL. injection EL as E0 EL'. subst a0.
      apply NoDup_cons_iff in Hnd. destruct Hnd as [Hnd _].
      exfalso. apply Hnd. rewrite EL'. apply in_or_app. right; left; reflexivity. }
  destruct HAB as [-> ->]. cbn [app] in W2.
  assert (HbL : ~ In b L).
  { intros Hin. apply (wf_member _ _ _ W) in Hin. destruct Hin as [_ Hin].
    contradiction. }
  split; [exact Esz|]. split; [rewrite (Ff2 a Ha1), Z.eqb_refl; lia|].
  split; [apply (flist_head _ _ _ (wf_flist _ _ _ W2))|].
  split; [|split; [|split; [|split; [|split]]]].
  - change (a :: L) with ([] ++ a :: L) in W2.
    eexists. split.
    + replace pa with (a + sizeof_md) by (unfold a; lia).
      apply (reuse_result s2 _ [] L a _ fuel W2).
      * intros y [].
      * rewrite Esz. lia.
      * exact Hfuel.
    + unfold with_mem. cbn [used].
      assert (Hx : In a (X ++ a :: Y))
        by (apply in_or_app; right; left; reflexivity).
      destruct (reuse_fields s2 _ [] L a W2 a Hx) as (_ & Eu3 & _).
      unfold with_mem in Eu3. cbn [used] in Eu3.
      rewrite Eu3, Eu2, Eu1. reflexivity.
  - exists X, Y. split; [exact Ebl|]. split; [exact W2|].
    pose proof (tiles_nodup _ _ _ _ (wf_tiles _ _ _ W)) as Hnd.
    rewrite Ebl in Hnd.
    change (X ++ a :: b :: Y) with (X ++ [a] ++ b :: Y) in Hnd.
    rewrite app_assoc in Hnd. apply NoDup_remove_2 in Hnd.
    intros Hin. apply Hnd. rewrite <- app_assoc. exact Hin.
  - apply (wf_flist _ _ _ W2).
  - intros [Hin|Hin]; [apply Hab; exact Hin|apply HbL; exact Hin].
  - rewrite Eb2. exact Eb1.
  - rewrite Eu2. exact Eu1.
Qed.

(** Tail-then-head coalescing on a concrete pool: the two blocks of
    [c7_state] are adjacent and allocated; freeing the second and then the
    first leaves one free block of size [16 + 32 + 16] at the head of the
    free list, and allocating exactly that size returns the first pointer
    with [used] unchanged. *)
Lemma coalesce_tail_then_head_witness :
  let s2 := myfree (myfree c7_state (pool_base + 80)) (pool_base + 32) in
  getf Fsize (memory s2) pool_base = 16 + sizeof_md + 16 /\
  flist (memory s2) (free_list s2) [pool_base] /\
  exists s3, mymalloc 1 s2 (16 + sizeof_md + 16) = Some (s3, pool_base + 32) /\
             used s3 = used c7_state.
Proof.
  assert (W : wf c7_state [pool_base; pool_base + 48] [])
    by (apply wf_check_sound; vm_compute; reflexivity).
  assert (Pa : live c7_state [pool_base; pool_base + 48] (pool_base + 32))
    by (split; [left|]; vm_compute; reflexivity).
  assert (Pb : live c7_state [pool_base; pool_base + 48] (pool_base + 80))
    by (split; [right; left|]; vm_compute; reflexivity).
  destruct (coalesce_tail_then_head c7_state _ _ _ _ 1 W Pa Pb)
    as (Es & _ & _ & (s3 & E & Eu) & _ & Fl & _).
  - vm_compute. reflexivity.
  - left. vm_compute. discriminate.
  - lia.
  - split; [exact Es|]. split.
    + exact Fl.
    + exists s3. split; [exact E|exact Eu].
Defined.

(** X4: in every state reached without wrap-around the scan of
    [mymalloc] ends: for every request that does not wrap there is a fuel
    with which [mymalloc] returns, either [NULL] with the state unchanged or
    a non-null pointer that was not live before, in a state that is again
    reached without wrap-around. *)
Theorem mymalloc_returns s lv n :
  reach no_wrap s lv -> is_size n -> used s + sizeof_md + n < modulus ->
  exists fuel s' q,
    mymalloc fuel s n = Some (s', q) /\
    ((q = NULL /\ s' = s) \/
     (q <> NULL /\ ~ In q lv /\ reach no_wrap s' (q :: lv))).
Proof.
  intros R Hn Hnw. destruct (reach_inv s lv R) as (bl & L & W & Hlv).
  destruct Hn as [Hn0 Hn1].
  destruct (malloc_summary s bl L n (S (length L)) W Hn0 Hnw ltac:(lia))
    as (s' & q & E & H).
  exists (S (length L)), s', q. split; [exact E|].
  destruct H as [H|(bl' & L' & W' & _ & _ & Hx & _ & _ & Hnew & _)];
    [left; exact H|right].
  assert (Hq : q <> NULL).
  { pose proof (good_hv _ (wf_hgood _ _ _ W') _ Hx). zsolve. }
  split; [exact Hq|]. split.
  - intros Hin. apply Hlv in Hin. destruct Hin as [H1 H2].
    destruct Hnew as [Hnew|Hnew]; contradiction.
  - apply (reach_step no_wrap s lv (Malloc n) s' (q :: lv) R Hnw).
    pose proof (step_malloc s lv n (S (length L)) s' q (conj Hn0 Hn1) E) as St.
    destruct (Z.eqb_spec q NULL); [contradiction|exact St].
Qed.

Lemma mymalloc_returns_witness :
  exists fuel s' q, mymalloc fuel c8_state 32 = Some (s', q).
Proof.
  assert (R : reach no_wrap c8_state [pool_base + 216; pool_base + 80]).
  { apply (run_no_wrap 2 [Malloc 16; Malloc 8; Malloc 64; Malloc 8;
                          Free (pool_base + 120); Free (pool_base + 32)]).
    vm_compute. reflexivity. }
  destruct (mymalloc_returns c8_state _ 32 R) as (fuel & s' & q & E & _).
  - split; vm_compute; [discriminate|reflexivity].
  - vm_compute. reflexivity.
  - exists fuel, s', q. exact E.
Defined.

(** ** [allocator_init] and [allocator_reset] *)

(** A state with [used = 0] and an empty free list: whatever the memory
    holds, the first allocation lands right after the first header. *)
Lemma fresh_malloc s n fuel :
  used s = 0 -> free_list s = NULL ->
  0 < base s -> base s + CAP < modulus ->
  0 <= n -> sizeof_md + n <= CAP -> (0 < fuel)%nat ->
  wf s [] [] /\
  exists s',
    mymalloc fuel s n = Some (s', base s + sizeof_md) /\
    base s' = base s /\ used s' = sizeof_md + n /\ free_list s' = NULL /\
    getf Fsize (memory s') (base s) = n /\
    getf Fcheck_free (memory s') (base s) = 0 /\
    wf s' [base s] [].
Proof.
  intros Hu Hf Hb Hp Hn Hroom Hfuel.
  pose proof (wf_empty s Hb Hp Hu Hf) as W. split; [exact W|].
  assert (Hnone : forall y, In y [] -> getf Fsize (memory s) y < n)
    by (intros y []).
  assert (Hnw : used s + sizeof_md + n < modulus) by (rewrite Hu; zsolve).
  assert (Hroom' : used s + sizeof_md + n <= CAP) by (rewrite Hu; lia).
  pose proof (bump_result s [] [] n fuel W Hnone Hfuel Hn Hnw Hroom') as E.
  pose proof (bump_header s [] [] n W Hn Hnw Hroom') as [Es Ef].
  pose proof (bump_wf s [] [] n W Hn Hnw Hroom') as W'.
  replace (base s + used s) with (base s) in E, Es, Ef, W' by (rewrite Hu; lia).
  eexists. split; [exact E|]. cbn [base used free_list].
  split; [reflexivity|]. split; [rewrite Hu; lia|]. split; [exact Hf|].
  split; [exact Es|]. split; [exact Ef|exact W'].
Qed.

(** X5: [allocator_reset] on any state (whatever its free list and
    headers look like, damaged or not) and [allocator_init] with any
    memory give a well-formed empty allocator, provided the pool is placed
    at a non-null base whose [CAP] bytes stay below [2^64]; the next
    [mymalloc(n)] with [sizeof(md) + n <= CAP] returns [base + sizeof(md)]
    and sets [used] to [sizeof(md) + n].  No free-list entry survives. *)
Theorem reset_and_init_start_afresh s newbase n fuel :
  0 <= n -> sizeof_md + n <= CAP -> (0 < fuel)%nat ->
  (0 < base s -> base s + CAP < modulus ->
     wf (allocator_reset s) [] [] /\
     memory (allocator_reset s) = memory s /\
     exists s',
       mymalloc fuel (allocator_reset s) n = Some (s', base s + sizeof_md) /\
       used s' = sizeof_md + n /\ free_list s' = NULL /\
       wf s' [base s] []) /\
  (0 < newbase -> newbase + CAP < modulus ->
     wf (allocator_init s newbase) [] [] /\
     memory (allocator_init s newbase) = memory s /\
     exists s',
       mymalloc fuel (allocator_init s newbase) n
         = Some (s', newbase + sizeof_md) /\
       used s' = sizeof_md + n /\ free_list s' = NULL /\
       wf s' [newbase] []).
Proof.
  intros Hn Hroom Hfuel. split; intros Hb Hp.
  - destruct (fresh_malloc (allocator_reset s) n fuel
                eq_refl eq_refl Hb Hp Hn Hroom Hfuel)
      as (W & s' & E & _ & Eu & Ef & _ & _ & W').
    split; [exact W|]. split; [reflexivity|].
    exists s'. cbn [allocator_reset base] in E, W'. auto.
  - destruct (fresh_malloc (allocator_init s newbase) n fuel
                eq_refl eq_refl Hb Hp Hn Hroom Hfuel)
      as (W & s' & E & _ & Eu & Ef & _ & _ & W').
    split; [exact W|]. split; [reflexivity|].
    exists s'. cbn [allocator_init base] in E, W'. auto.
Qed.

Lemma reset_and_init_start_afresh_witness :
  exists s',
    mymalloc 1 (allocator_reset c8_state) 100
      = Some (s', base c8_state + sizeof_md) /\
    used s' = sizeof_md + 100.
Proof.
  destruct (reset_and_init_start_afresh c8_state pool_base 100 1) as [H _].
  - lia.
  - vm_compute. discriminate.
  - lia.
  - destruct H as (_ & _ & s' & E & Eu & _).
    + reflexivity.
    + vm_compute. reflexivity.
    + exists s'. split; assumption.
Defined.

(** ** The free-list primitives *)

(** X6: on a well-formed state, [insert_into_free_list] of an allocated
    block pushes it at the head of the free list, in front of the old
    members in their old order; it sets that block's flag, changes no size
    and no other flag, writes no byte outside the block headers, and the
    result is well-formed again. *)
Theorem insert_into_free_list_pushes s bl L b :
  wf s bl L -> In b bl -> getf Fcheck_free (memory s) b = 0 ->
  let s' := insert_into_free_list s b in
  free_list s' = b /\ base s' = base s /\ used s' = used s /\
  flist (memory s') (free_list s') (b :: L) /\
  (forall a, In a bl ->
     getf Fsize (memory s') a = getf Fsize (memory s) a /\
     getf Fcheck_free (memory s') a =
       (if a =? b then 1 else getf Fcheck_free (memory s) a)) /\
  (forall y, outside bl y -> memory s' y = memory s y) /\
  wf s' bl (b :: L).
Proof.
  intros W Hb Hf s'.
  pose proof (free_insert_wf s bl L b W Hb Hf) as W'.
  split; [reflexivity|]. split; [reflexivity|]. split; [reflexivity|].
  split; [apply W'|]. split; [|split; [|exact W']].
  - intros a Ha. apply (free_insert_fields s bl L b W Hb Hf a Ha).
  - intros y Hy. apply (free_insert_outside s bl L b W Hb Hf y Hy).
Qed.

Lemma insert_into_free_list_pushes_witness :
  wf c7_state [pool_base; pool_base + 48] [] /\
  flist (memory (insert_into_free_list c7_state pool_base))
        pool_base [pool_base].
Proof.
  assert (W : wf c7_state [pool_base; pool_base + 48] [])
    by (apply wf_check_sound; vm_compute; reflexivity).
  split; [exact W|].
  destruct (insert_into_free_list_pushes c7_state _ _ pool_base W)
    as (_ & _ & _ & F & _).
  - left; reflexivity.
  - vm_compute. reflexivity.
  - exact F.
Defined.

(** X7: on a well-formed state, [remove_from_free_list] of a member [x]
    of the free list [A ++ x :: B] leaves the list [A ++ B]: the other
    members keep their order, the head pointer changes exactly when [x] was
    the head, no size or flag is written (the flag of [x] stays set: the
    callers clear it or absorb the block), and no byte outside the block
    headers changes. *)
Theorem remove_from_free_list_unlinks s bl A x B :
  wf s bl (A ++ x :: B) ->
  let s' := remove_from_free_list s x in
  flist (memory s') (free_list s') (A ++ B) /\
  free_list s' = hd NULL (A ++ B) /\
  (A <> [] -> free_list s' = free_list s) /\
  base s' = base s /\ used s' = used s /\
  (forall a, In a bl ->
     getf Fsize (memory s') a = getf Fsize (memory s) a /\
     getf Fcheck_free (memory s') a = getf Fcheck_free (memory s) a) /\
  getf Fcheck_free (memory s') x <> 0 /\
  (forall y, outside bl y -> memory s' y = memory s y).
Proof.
  intros W s'. pose proof (wf_hgood _ _ _ W) as HG.
  assert (Hx : In x bl).
  { apply (wf_sub _ _ _ W), in_or_app. right; left; reflexivity. }
  destruct (remove_pre bl HG _ _ _ _ _ (wf_flist _ _ _ W) (wf_sub _ _ _ W))
    as (_ & _ & _ & _ & Pg & Ng & Pne & Nne).
  pose proof (remove_flist bl HG s A x B (wf_flist _ _ _ W) (wf_sub _ _ _ W))
    as FL. fold s' in FL.
  assert (F : forall a, In a bl ->
            base s' = base s /\ used s' = used s /\
            getf Fsize (memory s') a = getf Fsize (memory s) a /\
            getf Fcheck_free (memory s') a = getf Fcheck_free (memory s) a).
  { intros a Ha. pose proof (remove_fields bl HG s x a Hx Ha Pg Ng Pne Nne) as R.
    cbv zeta in R. fold s' in R. tauto. }
  split; [exact FL|]. split; [apply (flist_head _ _ _ FL)|]. split.
  - intros HA. rewrite (flist_head _ _ _ FL), (flist_head _ _ _ (wf_flist _ _ _ W)).
    destruct A as [|a0 A']; [contradiction|reflexivity].
  - split; [apply (F x Hx)|]. split; [apply (F x Hx)|]. split; [|split].
    + intros a Ha. destruct (F a Ha) as (_ & _ & Fs & Ff). auto.
    + destruct (F x Hx) as (_ & _ & _ & ->).
      apply (wf_member _ _ _ W x), in_or_app. right; left; reflexivity.
    + intros y Hy. apply (remove_outside bl HG); assumption.
Qed.

Lemma remove_from_free_list_unlinks_witness :
  wf c8_state
     [pool_base; pool_base + 48; pool_base + 88; pool_base + 184]
     ([pool_base] ++ (pool_base + 88) :: []) /\
  flist (memory (remove_from_free_list c8_state (pool_base + 88)))
        (free_list (remove_from_free_list c8_state (pool_base + 88)))
        ([pool_base] ++ []).
Proof.
  assert (W : wf c8_state
                [pool_base; pool_base + 48; pool_base + 88; pool_base + 184]
                ([pool_base] ++ (pool_base + 88) :: []))
    by (apply wf_check_sound; vm_compute; reflexivity).
  split; [exact W|].
  destruct (remove_from_free_list_unlinks c8_state _ _ _ _ W) as (F & _).
  exact F.
Defined.

(** X8 (round trip): on a well-formed state, inserting an allocated block
    into the free list and removing it again gives back the old free list:
    the same head pointer, the same members in the same order, and every
    field of every other header as it was; [base], [used], all sizes and
    all bytes outside the headers are untouched.  Only the links and the
    flag of the block itself differ. *)
Theorem insert_then_remove_restores s bl L b :
  wf s bl L -> In b bl -> getf Fcheck_free (memory s) b = 0 ->
  let s2 := remove_from_free_list (insert_into_free_list s b) b in
  free_list s2 = free_list s /\ base s2 = base s /\ used s2 = used s /\
  flist (memory s2) (free_list s2) L /\
  (forall a f, In a bl -> a <> b ->
     getf f (memory s2) a = getf f (memory s) a) /\
  getf Fsize (memory s2) b = getf Fsize (memory s) b /\
  (forall y, outside bl y -> memory s2 y = memory s y).
Proof.
  intros W Hb Hf s2. pose proof (wf_hgood _ _ _ W) as HG.
  set (s1 := insert_into_free_list s b) in *.
  pose proof (free_insert_wf s bl L b W Hb Hf) as W1. fold s1 in W1.
  change (b :: L) with ([] ++ b :: L) in W1.
  destruct (insert_pre s bl L b W Hb Hf) as (_ & Hh & Hne).
  assert (I1 : forall a, In a bl ->
    getf Fsize (memory s1) a = getf Fsize (memory s) a /\
    getf Fcheck_free (memory s1) a =
      (if a =? b then 1 else getf Fcheck_free (memory s) a) /\
    getf Fnext (memory s1) a =
      (if a =? b then free_list s else getf Fnext (memory s) a) /\
    getf Fprev (memory s1) a =
      (if a =? b then NULL else if a =? free_list s then b
       else getf Fprev (memory s) a)).
  { intros a Ha. apply (insert_fields bl HG s b a Hb Ha Hh Hne). }
  destruct (remove_pre bl HG _ _ _ _ _ (wf_flist _ _ _ W1) (wf_sub _ _ _ W1))
    as (Ep & En & _ & _ & Pg & Ng & Pne & Nne).
  cbn [last] in Ep.
  assert (R : forall a, In a bl ->
    base s2 = base s1 /\ used s2 = used s1 /\
    free_list s2 = (if getf Fprev (memory s1) b =? NULL
                    then getf Fnext (memory s1) b else free_list s1) /\
    getf Fsize (memory s2) a = getf Fsize (memory s1) a /\
    getf Fcheck_free (memory s2) a = getf Fcheck_free (memory s1) a /\
    getf Fnext (memory s2) a =
      (if a =? getf Fprev (memory s1) b then getf Fnext (memory s1) b
       else getf Fnext (memory s1) a) /\
    getf Fprev (memory s2) a =
      (if a =? getf Fnext (memory s1) b then getf Fprev (memory s1) b
       else getf Fprev (memory s1) a)).
  { intros a Ha. apply (remove_fields bl HG s1 b a Hb Ha Pg Ng Pne Nne). }
  assert (Enx : getf Fnext (memory s1) b = free_list s).
  { destruct (I1 b Hb) as (_ & _ & -> & _). rewrite Z.eqb_refl. reflexivity. }
  pose proof (remove_flist bl HG s1 [] b L (wf_flist _ _ _ W1) (wf_sub _ _ _ W1))
    as FL. fold s2 in FL. cbn [app] in FL.
  destruct (R b Hb) as (Eb & Eu & Efl & Es & _).
  rewrite Ep, Enx in Efl. cbn [Z.eqb NULL] in Efl.
  split; [exact Efl|]. split; [exact Eb|]. split; [exact Eu|].
  split; [exact FL|]. split; [|split].
  - intros a f Ha Hab. destruct (R a Ha) as (_ & _ & _ & Rs & Rf & Rn & Rp).
    destruct (I1 a Ha) as (Is & If & In_ & Ip).
    apply Z.eqb_neq in Hab. rewrite Hab in If, In_, Ip.
    pose proof (good_nonnull _ HG _ Ha) as Ha0.
    destruct f.
    + rewrite Rs. exact Is.
    + rewrite Rf. exact If.
    + rewrite Rn, Ep.
      destruct (Z.eqb_spec a NULL); [contradiction|exact In_].
    + rewrite Rp, Enx, Ep, Ip.
      destruct (Z.eqb_spec a (free_list s)) as [E|_]; [|reflexivity].
      (* the old head had no predecessor *)
      destruct (wf_flist _ _ _ W) as (Hl & Hp & _).
      destruct L as [|h r]; cbn [lseg pseg] in Hl, Hp.
      * congruence.
      * destruct Hl as (Eh & _). destruct Hp as (Ep0 & _).
        rewrite E, Eh. symmetry. exact Ep0.
  - rewrite Es. apply (I1 b Hb).
  - intros y Hy.
    assert (E2 : memory s2 y = memory s1 y)
      by (apply (remove_outside bl HG); assumption).
    rewrite E2. apply (insert_outside bl HG); assumption.
Qed.

Lemma insert_then_remove_restores_witness :
  wf c10_state [pool_base; pool_base + 96] [pool_base] /\
  flist (memory (remove_from_free_list
                   (insert_into_free_list c10_state (pool_base + 96))
                   (pool_base + 96)))
        (free_list (remove_from_free_list
                      (insert_into_free_list c10_state (pool_base + 96))
                      (pool_base + 96)))
        [pool_base].
Proof.
  assert (W : wf c10_state [pool_base; pool_base + 96] [pool_base])
    by (apply wf_check_sound; vm_compute; reflexivity).
  split; [exact W|].
  destruct (insert_then_remove_restores c10_state _ _ (pool_base + 96) W)
    as (_ & _ & _ & F & _).
  - right; left; reflexivity.
  - vm_compute. reflexivity.
  - exact F.
Defined.

(** ** Coalescing *)

(** The forward merge keeps the invariant and keeps [b] at the head. *)
Lemma merge_next_wf t bl L b :
  wf t bl (b :: L) ->
  exists bl' L',
    wf (merge_next t b) bl' (b :: L') /\
    (forall a, In a bl' -> In a bl) /\ (forall a, In a L' -> In a L).
Proof.
  intros W. set (nb := b + sizeof_md + getf Fsize (memory t) b).
  destruct (Z_lt_le_dec nb (base t + used t)) as [Hlt|Hge];
    [destruct (Z.eq_dec (getf Fcheck_free (memory t) nb) 0) as [Hz|Hnz]|].
  - rewrite (merge_next_busy t bl L b W Hz). exists bl, L. auto.
  - pose proof (merge_next_absorb t bl L b W) as M. cbv zeta in M.
    destruct (M Hlt Hnz) as (X & Y & A & B & Ebl & EL & W' & _).
    exists (X ++ b :: Y), (A ++ B). split; [exact W'|]. split.
    + intros a Ha. rewrite Ebl. apply in_app_iff in Ha. apply in_app_iff.
      cbn [In] in Ha |- *. tauto.
    + intros a Ha. rewrite EL. apply in_app_iff in Ha. apply in_app_iff.
      cbn [In]. tauto.
  - destruct (merge_next_addr t bl L b W) as [_ Hle]. fold nb in Hle.
    rewrite (merge_next_last t bl L b W) by (fold nb; lia).
    exists bl, L. auto.
Qed.

(** X9: on a well-formed state whose free-list head is [block] (the
    situation in which [myfree] calls it), [merge_blocks] is its forward
    merge alone: after that step [block->prev] is still [NULL], so the
    test of the backward merge is false and its body never runs.  In
    particular [myfree(p)] for a live [p] never merges [p]'s block into a
    free block that precedes it. *)
Theorem backward_merge_never_fires t bl L b :
  wf t bl (b :: L) ->
  getf Fprev (memory (merge_next t b)) b = NULL /\
  merge_blocks t b = merge_next t b /\
  (forall s bl0 L0 p,
     wf s bl0 L0 -> live s bl0 p ->
     myfree s p = merge_next (insert_into_free_list s (p - sizeof_md))
                             (p - sizeof_md)).
Proof.
  intros W. destruct (merge_next_wf t bl L b W) as (bl' & L' & W' & _).
  split; [|split].
  - destruct (wf_flist _ _ _ W') as (_ & Hp & _). cbn [pseg] in Hp. apply Hp.
  - unfold merge_blocks. apply (merge_prev_head _ L' b). apply W'.
  - intros s bl0 L0 p W0 Hp.
    rewrite (free_unfold s bl0 L0 p W0 Hp).
    pose proof (free_s1_wf s bl0 L0 p W0 Hp) as W1.
    destruct (merge_next_wf _ _ _ _ W1) as (bl1 & L1 & W1' & _).
    apply (merge_prev_head _ L1 _). apply W1'.
Qed.

Lemma backward_merge_never_fires_witness :
  wf c10_state [pool_base; pool_base + 96] [pool_base] /\
  merge_blocks c10_state pool_base = merge_next c10_state pool_base.
Proof.
  assert (W : wf c10_state [pool_base; pool_base + 96] [pool_base])
    by (apply wf_check_sound; vm_compute; reflexivity).
  split; [exact W|].
  destruct (backward_merge_never_fires c10_state _ _ _ W) as (_ & E & _).
  exact E.
Defined.

(** X10 (head-then-tail): for two physically adjacent allocated blocks
    [a] and [b] (in address order), with the block after [b] allocated or
    absent, [myfree] of [a]'s pointer and then of [b]'s leaves both on the
    free list as separate blocks with their old sizes: the block layout is
    what it was, [b] heads the free list and [a] follows it.  Neither can
    serve a request larger than its own size. *)
Theorem head_then_tail_stays_split s bl L pa pb :
  wf s bl L -> live s bl pa -> live s bl pb ->
  let a := pa - sizeof_md in
  let b := pb - sizeof_md in
  let sa := getf Fsize (memory s) a in
  let sb := getf Fsize (memory s) b in
  let s2 := myfree (myfree s pa) pb in
  b = a + sizeof_md + sa ->
  (base s + used s <= b + sizeof_md + sb \/
   getf Fcheck_free (memory s) (b + sizeof_md + sb) = 0) ->
  wf s2 bl (b :: a :: L) /\
  getf Fsize (memory s2) a = sa /\ getf Fsize (memory s2) b = sb /\
  base s2 = base s /\ used s2 = used s.
Proof.
  intros W Ha Hb a b sa sb s2 Eadj Hsucc.
  pose proof Ha as [Ha1 Ha2]. pose proof Hb as [Hb1 Hb2].
  fold a in Ha1, Ha2. fold b in Hb1, Hb2.
  pose proof (getf_range Fsize (memory s) a) as Rsa. fold sa in Rsa.
  assert (Hab : a <> b) by (unfold sizeof_md in Eadj; lia).
  (* first call: the successor [b] is allocated *)
  assert (Hc1 : base s + used s <= a + sizeof_md + getf Fsize (memory s) a \/
                getf Fcheck_free (memory s) (a + sizeof_md + getf Fsize (memory s) a) = 0).
  { right. fold sa. rewrite <- Eadj. exact Hb2. }
  destruct (free_unmerged s bl L pa W Ha Hc1) as [E1 W1]. fold a in E1, W1.
  destruct (free_frame s bl L pa W Ha) as (Eb1 & Eu1 & Ff1 & Fs1 & _).
  fold a in Ff1, Fs1.
  set (s1 := myfree s pa) in *.
  assert (Esa : getf Fsize (memory s1) a = sa).
  { rewrite E1. apply (free_insert_fields s bl L a W Ha1 Ha2 a Ha1). }
  assert (Esb : getf Fsize (memory s1) b = sb).
  { apply Fs1; [exact Hb1|congruence]. }
  assert (Hb' : live s1 bl pb).
  { split; fold b; [exact Hb1|]. rewrite (Ff1 b Hb1).
    destruct (Z.eqb_spec b a); [congruence|exact Hb2]. }
  (* second call: the successor of [b] is as before *)
  assert (Hc2 : base s1 + used s1 <= b + sizeof_md + getf Fsize (memory s1) b \/
                getf Fcheck_free (memory s1)
                  (b + sizeof_md + getf Fsize (memory s1) b) = 0).
  { rewrite Esb, Eb1, Eu1.
    destruct (Z_lt_le_dec (b + sizeof_md + sb) (base s + used s)) as [Hlt|Hge];
      [|left; exact Hge].
    destruct Hsucc as [Hs|Hs]; [left; exact Hs|right].
    pose proof (tiles_succ _ _ _ _ _ (wf_tiles _ _ _ W) Hb1) as HS.
    cbv zeta in HS. fold sb in HS.
    destruct HS as [[E _]|[_ (X & Y & Ebl)]]; [lia|].
    assert (Hn : In (b + sizeof_md + sb) bl).
    { rewrite Ebl. apply in_or_app. right; right; left; reflexivity. }
    rewrite (Ff1 _ Hn).
    destruct (Z.eqb_spec (b + sizeof_md + sb) a) as [E|_]; [|exact Hs].
    pose proof (getf_range Fsize (memory s) b) as Rsb. fold sb in Rsb.
    unfold sizeof_md in *. lia. }
  destruct (free_unmerged s1 bl (a :: L) pb W1 Hb' Hc2) as [E2 W2].
  fold b in E2, W2. fold s2 in E2, W2.
  destruct (free_frame s1 bl (a :: L) pb W1 Hb') as (Eb2 & Eu2 & _ & Fs2 & _).
  fold b in Fs2. fold s2 in Eb2, Eu2, Fs2.
  split; [exact W2|]. split; [|split; [|split]].
  - rewrite (Fs2 a Ha1 Hab). exact Esa.
  - rewrite E2.
    destruct Hb' as [_ Hb2'].
    destruct (free_insert_fields s1 bl (a :: L) b W1 Hb1 Hb2' b Hb1) as [-> _].
    exact Esb.
  - rewrite Eb2. exact Eb1.
  - rewrite Eu2. exact Eu1.
Qed.

Lemma head_then_tail_stays_split_witness :
  wf (myfree (myfree c7_state (pool_base + 32)) (pool_base + 80))
     [pool_base; pool_base + 48] [pool_base + 48; pool_base].
Proof.
  assert (W : wf c7_state [pool_base; pool_base + 48] [])
    by (apply wf_check_sound; vm_compute; reflexivity).
  assert (Pa : live c7_state [pool_base; pool_base + 48] (pool_base + 32))
    by (split; [left|]; vm_compute; reflexivity).
  assert (Pb : live c7_state [pool_base; pool_base + 48] (pool_base + 80))
    by (split; [right; left|]; vm_compute; reflexivity).
  destruct (head_then_tail_stays_split c7_state _ _ _ _ W Pa Pb) as (W2 & _).
  - vm_compute. reflexivity.
  - left. vm_compute. discriminate.
  - exact W2.
Defined.

(** ** [myfree] followed by [mymalloc] *)

(** After [myfree(p)] the block of [p] heads the free list, at least as
    large as it was. *)
Lemma free_head s bl L p :
  wf s bl L -> live s bl p ->
  exists bl' L',
    wf (myfree s p) bl' (p - sizeof_md :: L') /\
    getf Fsize (memory s) (p - sizeof_md) <=
      getf Fsize (memory (myfree s p)) (p - sizeof_md) /\
    (forall a, In a bl' -> In a bl) /\
    (forall a, In a bl -> getf Fcheck_free (memory s) a = 0 -> In a bl').
Proof.
  intros W Hp. pose proof Hp as [H1 H2].
  set (b := p - sizeof_md) in *.
  set (nb := b + sizeof_md + getf Fsize (memory s) b).
  destruct (Z_lt_le_dec nb (base s + used s)) as [Hlt|Hge];
    [destruct (Z.eq_dec (getf Fcheck_free (memory s) nb) 0) as [Hz|Hnz]|].
  - destruct (free_unmerged s bl L p W Hp (or_intror Hz)) as [E W'].
    exists bl, L. split; [exact W'|]. split; [|auto].
    pose proof (free_s1_size s bl L p W Hp) as Es1. cbv zeta in Es1.
    fold b in E, Es1. rewrite E, Es1. lia.
  - destruct (free_merged s bl L p W Hp Hlt Hnz)
      as (X & Y & A & B & Ebl & EL & _ & W2 & Es).
    fold b in Ebl, W2, Es. fold nb in Ebl, EL, Es.
    exists (X ++ b :: Y), (A ++ B). split; [exact W2|]. split; [|split].
    + rewrite Es. pose proof (getf_range Fsize (memory s) nb).
      unfold sizeof_md. lia.
    + intros a Ha. rewrite Ebl. apply in_app_iff in Ha. apply in_app_iff.
      cbn [In] in Ha |- *. tauto.
    + intros a Ha Hf. rewrite Ebl in Ha. apply in_app_iff in Ha.
      apply in_app_iff. cbn [In] in Ha |- *.
      destruct Ha as [Ha|[Ha|[Ha|Ha]]]; auto. subst a. contradiction.
  - destruct (free_unmerged s bl L p W Hp (or_introl Hge)) as [E W'].
    exists bl, L. split; [exact W'|]. split; [|auto].
    pose proof (free_s1_size s bl L p W Hp) as Es1. cbv zeta in Es1.
    fold b in E, Es1. rewrite E, Es1. lia.
Qed.

(** X11 (free, then allocate again): on a well-formed state, freeing a
    live pointer [p] and then asking for any size up to the size of
    [p]'s block returns [p] itself, after a scan of one step: the freed
    block is the head of the free list and first-fit takes it.  [used] is
    what it was before the two calls, the payload bytes of the block are
    untouched, and exactly the pointers that were live are live again. *)
Theorem free_then_malloc_gives_back s bl L p n fuel :
  wf s bl L -> live s bl p ->
  0 <= n <= getf Fsize (memory s) (p - sizeof_md) -> (0 < fuel)%nat ->
  exists s',
    mymalloc fuel (myfree s p) n = Some (s', p) /\
    base s' = base s /\ used s' = used s /\
    (forall i, 0 <= i < getf Fsize (memory s) (p - sizeof_md) ->
       memory s' (p + i) = memory s (p + i)) /\
    exists bl' L',
      wf s' bl' L' /\ (forall q, live s' bl' q <-> live s bl q).
Proof.
  intros W Hp Hn Hfuel. pose proof Hp as [H1 H2].
  destruct (free_head s bl L p W Hp) as (bl' & L' & W' & Hsz & Sub & Keep).
  destruct (free_frame s bl L p W Hp) as (Eb & Eu & Ff & _ & Fo).
  set (b := p - sizeof_md) in *. set (t := myfree s p) in *.
  assert (Hb' : In b bl') by (apply Keep; assumption).
  assert (Hskip : forall y, In y (@nil Z) -> getf Fsize (memory t) y < n)
    by (intros y []).
  assert (Hfit : n <= getf Fsize (memory t) b) by lia.
  pose proof (reuse_result t bl' [] L' b n fuel W' Hskip Hfit Hfuel) as E.
  pose proof (reuse_fields t bl' [] L' b W') as F.
  pose proof (reuse_wf t bl' [] L' b W') as W2.
  pose proof (reuse_outside t bl' [] L' b W') as O.
  cbv zeta in F, W2, O.
  replace (b + sizeof_md) with p in E by (unfold b; lia).
  eexists. split; [exact E|].
  destruct (F b Hb') as (Fb & Fu & _ & _).
  split; [rewrite Fb; exact Eb|]. split; [rewrite Fu; exact Eu|]. split.
  - intros i Hi.
    assert (Hy : outside bl (p + i)).
    { assert (Ep : p = b + sizeof_md) by (unfold b; lia).
      apply (payload_outside s bl L b (p + i) W H1). lia. }
    rewrite O; [apply Fo; exact Hy|].
    intros a Ha. apply Hy, Sub, Ha.
  - exists bl', L'. split; [exact W2|].
    intros q. unfold live. split.
    + intros [Hin Hf]. destruct (F _ Hin) as (_ & _ & _ & Fq).
      rewrite Fq in Hf. pose proof (Sub _ Hin) as Hin0.
      split; [exact Hin0|].
      destruct (Z.eqb_spec (q - sizeof_md) b) as [Eq|Hne].
      * rewrite Eq. exact H2.
      * rewrite (Ff _ Hin0) in Hf.
        apply Z.eqb_neq in Hne. rewrite Hne in Hf. exact Hf.
    + intros [Hin Hf]. pose proof (Keep _ Hin Hf) as Hin'.
      split; [exact Hin'|]. destruct (F _ Hin') as (_ & _ & _ & ->).
      destruct (Z.eqb_spec (q - sizeof_md) b) as [Eq|Hne]; [reflexivity|].
      rewrite (Ff _ Hin). apply Z.eqb_neq in Hne. rewrite Hne. exact Hf.
Qed.

Lemma free_then_malloc_gives_back_witness :
  exists s',
    mymalloc 1 (myfree c7_state (pool_base + 32)) 9 = Some (s', pool_base + 32) /\
    used s' = used c7_state.
Proof.
  assert (W : wf c7_state [pool_base; pool_base + 48] [])
    by (apply wf_check_sound; vm_compute; reflexivity).
  assert (Pa : live c7_state [pool_base; pool_base + 48] (pool_base + 32))
    by (split; [left|]; vm_compute; reflexivity).
  destruct (free_then_malloc_gives_back c7_state _ _ (pool_base + 32) 9 1 W Pa)
    as (s' & E & _ & Eu & _).
  - vm_compute. split; discriminate.
  - lia.
  - exists s'. split; assumption.
Defined.

(** ** What a call leaves alone *)

Lemma same_block_refl s p : same_block s s p.
Proof. split; reflexivity. Qed.

Lemma malloc_keeps s bl L n fuel s' q r :
  wf s bl L -> 0 <= n -> used s + sizeof_md + n < modulus ->
  mymalloc fuel s n = Some (s', q) -> live s bl r ->
  same_block s s' r /\ r <> q.
Proof.
  intros W Hn Hnw E [Hr Hf].
  destruct (malloc_summary s bl L n (Nat.max fuel (S (length L))) W Hn Hnw ltac:(lia))
    as (s2 & q2 & E2 & H).
  rewrite (mymalloc_mono _ _ _ _ _ E (Nat.le_max_l _ _)) in E2.
  injection E2 as <- <-.
  destruct H as [[-> ->]|(bl' & L' & W' & _ & _ & Hx & _ & _ & Hnew & Hbl & Fs & _ & Fo)].
  - split; [apply same_block_refl|].
    apply (live_nonnull s bl L r W (conj Hr Hf)).
  - split.
    + split; [apply Fs; exact Hr|]. intros i Hi. apply Fo.
      apply (payload_outside s' bl' L' (r - sizeof_md)); [exact W'| |].
      * apply Hbl. left. exact Hr.
      * rewrite (Fs _ Hr). lia.
    + intros ->. destruct Hnew; auto.
Qed.

Lemma free_keeps s bl L p r :
  wf s bl L -> live s bl p -> live s bl r -> r <> p ->
  same_block s (myfree s p) r.
Proof.
  intros W Hp [Hr Hf] Hne.
  destruct (free_frame s bl L p W Hp) as (_ & _ & _ & Fs & Fo).
  split.
  - apply Fs; [exact Hr|lia].
  - intros i Hi. apply Fo.
    apply (payload_outside s bl L (r - sizeof_md)); [exact W|exact Hr|lia].
Qed.

Lemma realloc_keeps s bl L p n fuel s' q r :
  wf s bl L -> live s bl p -> 0 < n < modulus ->
  used s + sizeof_md + n < modulus -> p + n < modulus ->
  myrealloc fuel s p n = Some (s', q) -> live s bl r -> r <> p ->
  same_block s s' r /\ r <> q.
Proof.
  intros W Hp Hn Hnw Hnw2 E Hlr Hne. pose proof Hlr as [Hr Hfr].
  destruct (wf_live_ptr _ _ _ W _ Hp) as (Hpn & Hpr & Ew).
  pose proof Hp as [Hb Hf].
  set (b := p - sizeof_md) in *. set (rb := r - sizeof_md) in *.
  set (old := getf Fsize (memory s) b) in *.
  pose proof (wf_hgood _ _ _ W) as HG.
  pose proof (wf_block_bounds _ _ _ W _ Hb) as [B1 B2]. fold old in B2.
  pose proof (wf_top _ _ _ W) as Htop. pose proof (wf_base _ _ _ W) as Hbase.
  pose proof (getf_range Fsize (memory s) b) as Hold. fold old in Hold.
  assert (Er : r = rb + sizeof_md) by (unfold rb; lia).
  assert (Hrb : rb <> b) by (unfold rb, b; lia).
  assert (Hout : forall i, 0 <= i < getf Fsize (memory s) rb -> outside bl (r + i)).
  { intros i Hi. apply (payload_outside s bl L rb); [exact W|exact Hr|lia]. }
  unfold myrealloc in E.
  destruct (Z.eqb_spec n 0); [lia|].
  destruct (Z.eqb_spec p NULL); [contradiction|].
  fold b in E. rewrite Ew in E. fold old in E.
  rewrite (wf_wrap_end _ _ _ W) in E.
  rewrite (wrap_small (p + old)) in E by (unfold b, sizeof_md in *; lia).
  destruct (Z.eqb_spec (p + old) (base s + used s)) as [Ht|Hnt].
  - (* in place *)
    injection E as <- <-. split; [|exact Hne].
    split; cbn [memory]; fold rb.
    + rewrite (getf_setf_good bl HG) by
        first [assumption | apply fits_ptr; [discriminate|lia]].
      apply Z.eqb_neq in Hrb. rewrite Hrb. reflexivity.
    + intros i Hi. apply (setf_outside bl HG); [exact Hb|apply Hout; exact Hi].
  - (* allocate, copy, free *)
    destruct (mymalloc fuel s n) as [[s1 q1]|] eqn:Em; [|discriminate].
    destruct (malloc_keeps s bl L n fuel s1 q1 r W ltac:(lia) Hnw Em Hlr)
      as [[K1 K2] Kq]. fold rb in K1, K2.
    destruct (Z.eqb_spec q1 NULL) as [Eq|Hq].
    { injection E as <- <-. split; [split; assumption|exact Kq]. }
    injection E as <- <-. split; [|exact Kq].
    destruct (malloc_summary s bl L n (Nat.max fuel (S (length L))) W ltac:(lia) Hnw
                ltac:(lia)) as (s2 & q2 & E2 & H).
    rewrite (mymalloc_mono _ _ _ _ _ Em (Nat.le_max_l _ _)) in E2.
    injection E2 as <- <-.
    destruct H as [[-> _]|(bl1 & L1 & W1 & _ & _ & Hx & Hxf & Hxs & Hnew
                           & Hbl & Fs & Ff & Fo)]; [contradiction|].
    set (x := q1 - sizeof_md) in *.
    set (k := if old <? n then old else n) in *.
    assert (Hk : k <= n) by (unfold k; destruct (Z.ltb_spec old n); lia).
    set (m2 := memcpy (memory s1) q1 p k).
    set (s2 := with_mem s1 m2).
    assert (Hxb : x <> b).
    { intros Exb. rewrite Exb in Hnew. destruct Hnew; auto. }
    assert (Hxr : x <> rb).
    { intros Exr. rewrite Exr in Hnew. destruct Hnew as [Hnew|Hnew]; auto. }
    pose proof (wf_block_bounds _ _ _ W1 _ Hx) as [X1 X2].
    pose proof (wf_top _ _ _ W1) as Htop1.
    pose proof (wf_base _ _ _ W1) as Hbase1.
    assert (Hb1 : In b bl1) by (apply Hbl; left; exact Hb).
    assert (Hr1 : In rb bl1) by (apply Hbl; left; exact Hr).
    assert (Hdst : forall i, 0 <= i < k ->
              wrap (q1 + i) = q1 + i /\ outside bl1 (q1 + i)).
    { intros i Hi. split.
      - apply wrap_small. unfold x, sizeof_md in *. lia.
      - apply (payload_outside s1 bl1 L1 x); [exact W1|exact Hx|].
        unfold x, sizeof_md in *. lia. }
    destruct (wf_frame s1 bl1 L1 m2 W1) as [W2 F2].
    { intros a y Ha Hy. unfold m2. apply memcpy_other. intros i Hi.
      destruct (Hdst i Hi) as [-> Ho]. specialize (Ho a Ha). lia. }
    fold s2 in W2.
    assert (Hp2 : live s2 bl1 p).
    { split; fold b; [exact Hb1|]. unfold s2, with_mem. cbn [memory].
      rewrite (F2 b Fcheck_free Hb1), (Ff b Hb (not_eq_sym Hxb)). exact Hf. }
    destruct (free_frame s2 bl1 L1 p W2 Hp2) as (_ & _ & _ & Fs3 & Fo3).
    fold b in Fs3.
    assert (Hout1 : forall i, 0 <= i < getf Fsize (memory s) rb ->
              outside bl1 (r + i)).
    { intros i Hi. apply (payload_outside s1 bl1 L1 rb); [exact W1|exact Hr1|].
      rewrite K1. lia. }
    split; fold rb.
    + rewrite (Fs3 rb Hr1 Hrb). unfold s2, with_mem. cbn [memory].
      rewrite (F2 rb Fsize Hr1). exact K1.
    + intros i Hi. rewrite (Fo3 _ (Hout1 i Hi)).
      unfold s2, with_mem. cbn [memory]. unfold m2.
      rewrite memcpy_other; [apply K2; exact Hi|].
      intros j Hj. destruct (Hdst j Hj) as [-> _].
      destruct (tiles_cmp _ _ _ _ _ _ (wf_tiles _ _ _ W1) Hx Hr1) as [T|[T|T]];
        [contradiction| |]; rewrite ?K1 in T; unfold x, rb, sizeof_md in *; lia.
Qed.

(** X14 (calls do not touch other allocations): along a run without
    wrap-around, a call changes neither the recorded size nor any payload
    byte of a live block other than the one it is given: [mymalloc] leaves
    every live block as it is, [myfree(p)] and [myrealloc(p, n)] every live
    block but [p]'s, through first-fit reuse, bump allocation, forward
    merge, resize in place and allocate-copy-free alike.  Such a block is
    still live after the call, except after [allocator_reset], which
    forgets every block but also writes nothing. *)
Theorem calls_keep_other_blocks s lv c s' lv' r :
  reach no_wrap s lv -> no_wrap s c -> step (s, lv) c (s', lv') ->
  In r lv -> c <> Free r -> (forall n, c <> Realloc r n) ->
  same_block s s' r /\ (c = Reset \/ In r lv').
Proof.
  intros R Hok St Hr Hc1 Hc2.
  destruct (reach_inv s lv R) as (bl & L & W & Hlv).
  pose proof (proj1 (Hlv r) Hr) as Hlr.
  pose proof (live_nonnull s bl L r W Hlr) as Hrn.
  inversion St as [s0 lv0 n fuel s1 q Hn E|s0 lv0 p Ha|s0 lv0 p n fuel s1 q Ha Hn E|s0 lv0];
    subst; cbn [no_wrap] in Hok.
  - destruct Hn as [Hn0 Hn1].
    destruct (malloc_keeps s bl L n fuel s' q r W Hn0 Hok E Hlr) as [K Kq].
    split; [exact K|right]. destruct (q =? NULL); [exact Hr|right; exact Hr].
  - assert (Hne : r <> p) by congruence.
    split; [|right; apply drop_In; auto].
    destruct Ha as [->|Ha]; [apply same_block_refl|].
    apply (free_keeps s bl L p r W (proj1 (Hlv p) Ha) Hlr Hne).
  - assert (Hne : r <> p) by (intros ->; apply (Hc2 n); reflexivity).
    destruct (Z.eqb_spec n 0) as [->|Hn0].
    + cbn in E. injection E as <- <-.
      split; [|right; apply drop_In; auto].
      destruct Ha as [->|Ha]; [apply same_block_refl|].
      apply (free_keeps s bl L p r W (proj1 (Hlv p) Ha) Hlr Hne).
    + destruct Hok as [?|[Hnw1 Hnw2]]; [contradiction|]. destruct Hn as [Hn1 Hn2].
      assert (Hin' : In r (if q =? NULL then lv else q :: drop p lv)).
      { destruct (q =? NULL); [exact Hr|right; apply drop_In; auto]. }
      destruct Ha as [->|Ha].
      * assert (E' : mymalloc fuel s n = Some (s', q)).
        { unfold myrealloc in E. destruct (Z.eqb_spec n 0); [contradiction|exact E]. }
        destruct (malloc_keeps s bl L n fuel s' q r W Hn1 Hnw1 E' Hlr) as [K _].
        split; [exact K|right; exact Hin'].
      * destruct (realloc_keeps s bl L p n fuel s' q r W (proj1 (Hlv p) Ha)
                    ltac:(lia) Hnw1 Hnw2 E Hlr Hne) as [K _].
        split; [exact K|right; exact Hin'].
  - split; [split; reflexivity|left; reflexivity].
Qed.

Lemma calls_keep_other_blocks_witness :
  same_block c8_state (myfree c8_state (pool_base + 216)) (pool_base + 80).
Proof.
  assert (R : reach no_wrap c8_state [pool_base + 216; pool_base + 80]).
  { apply (run_no_wrap 2 [Malloc 16; Malloc 8; Malloc 64; Malloc 8;
                          Free (pool_base + 120); Free (pool_base + 32)]).
    vm_compute. reflexivity. }
  destruct (calls_keep_other_blocks c8_state _ (Free (pool_base + 216))
              (myfree c8_state (pool_base + 216))
              (drop (pool_base + 216) [pool_base + 216; pool_base + 80])
              (pool_base + 80) R) as [K _].
  - exact I.
  - apply step_free. right. left. reflexivity.
  - right. left. reflexivity.
  - vm_compute. discriminate.
  - intros n. discriminate.
  - exact K.
Defined.

(** ** The pool bounds *)

Lemma remove_base_used s x :
  base (remove_from_free_list s x) = base s /\
  used (remove_from_free_list s x) = used s.
Proof.
  unfold remove_from_free_list. cbv zeta.
  destruct (getf Fprev (memory s) x =? NULL);
    match goal with |- context [if ?c then _ else _] => destruct c end;
    cbn [base used with_mem]; auto.
Qed.




Lemma mymalloc_base_used fuel s n s' q :
  mymalloc fuel s n = Some (s', q) ->
  base s' = base s /\ (used s' = used s \/ 0 <= used s' <= CAP).
Proof.
  unfold mymalloc. cbv zeta.
  destruct (find_fit fuel (memory s) (free_list s) n) as [c|]; [|discriminate].
  destruct (negb (c =? NULL)).
  - intros E. injection E as <- <-. unfold with_mem. cbn [base used].
    destruct (remove_base_used s c) as [-> ->]. auto.
  - destruct (Z.ltb_spec CAP (wrap (used s + wrap (sizeof_md + n)))) as [Hlt|Hle].
    + intros E. injection E as <- <-. auto.
    + intros E. injection E as <- <-. split; [reflexivity|right].
      change (0 <= wrap (used s + wrap (sizeof_md + n)) <= CAP).
      pose proof (wrap_range (used s + wrap (sizeof_md + n))). lia.
Qed.

(** X12 (an allocation stays inside the pool): on a well-formed state
    with [used <= CAP], for a request that does not wrap, [mymalloc]
    returns, [used] is still at most [CAP], and a non-null result [q]
    denotes [n] bytes that start after a header inside the pool, end at or
    before [base + used], and overlap neither the header nor the payload of
    any block that was live before the call. *)
Theorem mymalloc_block_inside_pool s bl L n fuel :
  wf s bl L -> used s <= CAP -> 0 <= n ->
  used s + sizeof_md + n < modulus -> (length L < fuel)%nat ->
  exists s' q,
    mymalloc fuel s n = Some (s', q) /\ base s' = base s /\ used s' <= CAP /\
    (q <> NULL ->
       base s + sizeof_md <= q /\ q + n <= base s + used s' /\
       forall r, live s bl r ->
         r + getf Fsize (memory s) (r - sizeof_md) <= q - sizeof_md \/
         q + n <= r - sizeof_md).
Proof.
  intros W Hcap Hn Hnw Hfuel.
  destruct (malloc_summary s bl L n fuel W Hn Hnw Hfuel) as (s' & q & E & H).
  exists s', q. split; [exact E|].
  destruct (mymalloc_base_used fuel s n s' q E) as [Eb Hu].
  split; [exact Eb|]. split; [lia|]. intros Hq.
  destruct H as [[-> _]|(bl' & L' & W' & _ & _ & Hx & _ & Hxs & Hnew & Hbl & Fs & _)];
    [contradiction|].
  pose proof (wf_block_bounds _ _ _ W' _ Hx) as [X1 X2]. rewrite Eb in X1, X2.
  split; [lia|]. split; [lia|].
  intros r [Hr Hf].
  assert (Hr' : In (r - sizeof_md) bl') by (apply Hbl; left; exact Hr).
  destruct (tiles_cmp _ _ _ _ _ _ (wf_tiles _ _ _ W') Hr' Hx) as [T|[T|T]].
  - exfalso. rewrite <- T in Hnew. destruct Hnew; auto.
  - left. rewrite (Fs _ Hr) in T. lia.
  - right. lia.
Qed.

Lemma mymalloc_block_inside_pool_witness :
  exists s' q, mymalloc 3 c8_state 32 = Some (s', q) /\ used s' <= CAP.
Proof.
  assert (W : wf c8_state [pool_base; pool_base + 48; pool_base + 88; pool_base + 184]
                 [pool_base; pool_base + 88])
    by (apply wf_check_sound; vm_compute; reflexivity).
  destruct (mymalloc_block_inside_pool c8_state _ _ 32 3 W)
    as (s' & q & E & _ & Hu & _).
  - vm_compute. discriminate.
  - lia.
  - vm_compute. reflexivity.
  - cbn [length]. lia.
  - exists s', q. split; assumption.
Defined.


(** ** A bound on the scan *)

Lemma tiles_length m : forall bl a e,
  tiles m a bl e -> a + sizeof_md * Z.of_nat (length bl) <= e.
Proof.
  induction bl as [|b r IH]; intros a e H; cbn [tiles] in H.
  - cbn [length]. lia.
  - destruct H as [-> H]. apply IH in H.
    pose proof (getf_range Fsize m a). cbn [length].
    unfold sizeof_md in *. lia.
Qed.

(** X15 (the scan is bounded by the pool in use): in a well-formed state
    every block takes at least [sizeof(md)] bytes of [base, base + used),
    so the free list has at most [used / sizeof(md)] entries, and the
    [while] loop of [mymalloc] ends within [used / sizeof(md) + 1] tests,
    whatever the request: with that much fuel, computed from the state
    alone, an answer is returned for every size that does not wrap. *)
Theorem scan_bounded_by_used s bl L n :
  wf s bl L -> 0 <= n -> used s + sizeof_md + n < modulus ->
  Z.of_nat (length L) <= used s / sizeof_md /\
  exists s' q,
    mymalloc (S (Z.to_nat (used s / sizeof_md))) s n = Some (s', q).
Proof.
  intros W Hn Hnw.
  assert (Hlen : Z.of_nat (length L) <= used s / sizeof_md).
  { pose proof (tiles_length _ _ _ _ (wf_tiles _ _ _ W)) as Ht.
    assert (Hle : (length L <= length bl)%nat).
    { apply NoDup_incl_length; [apply (wf_flist _ _ _ W)|].
      intros x Hx. apply (wf_sub _ _ _ W), Hx. }
    apply Z.div_le_lower_bound; unfold sizeof_md in *; lia. }
  split; [exact Hlen|].
  destruct (malloc_summary s bl L n (S (Z.to_nat (used s / sizeof_md))) W Hn Hnw
              ltac:(lia)) as (s' & q & E & _).
  exists s', q. exact E.
Qed.

Lemma scan_bounded_by_used_witness :
  exists s' q, mymalloc (S (Z.to_nat (used c8_state / sizeof_md))) c8_state 100
               = Some (s', q).
Proof.
  assert (W : wf c8_state [pool_base; pool_base + 48; pool_base + 88; pool_base + 184]
                 [pool_base; pool_base + 88])
    by (apply wf_check_sound; vm_compute; reflexivity).
  destruct (scan_bounded_by_used c8_state _ _ 100 W) as [_ H].
  - lia.
  - vm_compute. reflexivity.
  - exact H.
Defined.

(** ** Resizing the last block in place *)

Lemma realloc_tail_frame s bl L p n fuel s' q :
  wf s bl L -> live s bl p -> 0 < n -> p + n < modulus ->
  p + getf Fsize (memory s) (p - sizeof_md) = base s + used s ->
  myrealloc fuel s p n = Some (s', q) ->
  (forall a, In a bl -> a <> p - sizeof_md ->
     getf Fsize (memory s') a = getf Fsize (memory s) a) /\
  (forall y, outside bl y -> memory s' y = memory s y).
Proof.
  intros W Hp Hn Hnw Ht E.
  destruct (wf_live_ptr _ _ _ W _ Hp) as (Hpn & Hpr & Ew).
  pose proof Hp as [Hb Hf]. pose proof (wf_hgood _ _ _ W) as HG.
  pose proof (wf_top _ _ _ W) as Htop.
  pose proof (getf_range Fsize (memory s) (p - sizeof_md)) as Hold.
  unfold myrealloc in E.
  destruct (Z.eqb_spec n 0); [lia|].
  destruct (Z.eqb_spec p NULL); [contradiction|].
  rewrite Ew, (wf_wrap_end _ _ _ W) in E.
  rewrite (wrap_small (p + _)) in E by lia.
  destruct (Z.eqb_spec (p + getf Fsize (memory s) (p - sizeof_md))
                       (base s + used s)); [|contradiction].
  injection E as <- <-. cbn [memory]. split.
  - intros a Ha Hne.
    rewrite (getf_setf_good bl HG) by
      first [assumption | apply fits_ptr; [discriminate|lia]].
    apply Z.eqb_neq in Hne. rewrite Hne. reflexivity.
  - intros y Hy. apply (setf_outside bl HG); assumption.
Qed.

(** X16 (resize in place and back): when [p] is the live last block of
    a well-formed state, with size [old > 0], [myrealloc(p, n)] followed by
    [myrealloc(p, old)] returns [p] both times and restores the allocator:
    [base], [used] and the free list are what they were, the invariant
    holds, the same pointers are live, and every live block, [p]'s
    included, has its size and all its payload bytes back.  In between,
    [used] has moved by exactly [n - old]. *)
Theorem resize_in_place_and_back s bl L p n fuel :
  wf s bl L -> live s bl p ->
  0 < getf Fsize (memory s) (p - sizeof_md) -> 0 < n -> p + n < modulus ->
  p + getf Fsize (memory s) (p - sizeof_md) = base s + used s ->
  exists s1 s2,
    myrealloc fuel s p n = Some (s1, p) /\
    myrealloc fuel s1 p (getf Fsize (memory s) (p - sizeof_md)) = Some (s2, p) /\
    used s1 = used s + n - getf Fsize (memory s) (p - sizeof_md) /\
    base s2 = base s /\ used s2 = used s /\ free_list s2 = free_list s /\
    wf s2 bl L /\
    (forall r, live s2 bl r <-> live s bl r) /\
    (forall r, live s bl r -> same_block s s2 r).
Proof.
  intros W Hp Hold Hn Hnw Ht.
  set (old := getf Fsize (memory s) (p - sizeof_md)) in *.
  pose proof (wf_top _ _ _ W) as Htop.
  destruct (realloc_tail_wf s bl L p n fuel W Hp Hn Hnw Ht)
    as (s1 & E1 & W1 & Hl1 & Eb1 & Ef1 & Eu1 & Es1).
  fold old in Eu1.
  destruct (realloc_tail_frame s bl L p n fuel s1 p W Hp Hn Hnw Ht E1) as [Fs1 Fo1].
  assert (Hp1 : live s1 bl p) by (apply Hl1; exact Hp).
  assert (Ht1 : p + getf Fsize (memory s1) (p - sizeof_md) = base s1 + used s1)
    by (rewrite Es1, Eb1, Eu1; lia).
  assert (Hnw1 : p + old < modulus) by lia.
  destruct (realloc_tail_wf s1 bl L p old fuel W1 Hp1 Hold Hnw1 Ht1)
    as (s2 & E2 & W2 & Hl2 & Eb2 & Ef2 & Eu2 & Es2).
  destruct (realloc_tail_frame s1 bl L p old fuel s2 p W1 Hp1 Hold Hnw1 Ht1 E2)
    as [Fs2 Fo2].
  exists s1, s2. split; [exact E1|]. split; [exact E2|]. split; [exact Eu1|].
  split; [congruence|]. split; [rewrite Eu2, Es1, Eu1; lia|].
  split; [congruence|]. split; [exact W2|]. split.
  - intros r. rewrite Hl2. apply Hl1.
  - intros r [Hr Hf]. split.
    + destruct (Z.eq_dec (r - sizeof_md) (p - sizeof_md)) as [Er|Hne].
      * rewrite Er, Es2. reflexivity.
      * rewrite (Fs2 _ Hr Hne). apply Fs1; assumption.
    + intros i Hi.
      assert (Ho : outside bl (r + i)).
      { apply (payload_outside s bl L (r - sizeof_md)); [exact W|exact Hr|lia]. }
      rewrite (Fo2 _ Ho). apply Fo1. exact Ho.
Qed.

Lemma resize_in_place_and_back_witness :
  exists s1 s2,
    myrealloc 1 c6_state (pool_base + 128) 40 = Some (s1, pool_base + 128) /\
    myrealloc 1 s1 (pool_base + 128) 16 = Some (s2, pool_base + 128) /\
    used s2 = used c6_state.
Proof.
  assert (W : wf c6_state [pool_base; pool_base + 96] [])
    by (apply wf_check_sound; vm_compute; reflexivity).
  assert (P : live c6_state [pool_base; pool_base + 96] (pool_base + 128))
    by (split; [right; left|]; vm_compute; reflexivity).
  assert (Eo : getf Fsize (memory c6_state) (pool_base + 128 - sizeof_md) = 16)
    by (vm_compute; reflexivity).
  destruct (resize_in_place_and_back c6_state _ _ (pool_base + 128) 40 1 W P)
    as (s1 & s2 & E1 & E2 & _ & _ & Eu & _).
  - rewrite Eo. lia.
  - lia.
  - vm_compute. reflexivity.
  - vm_compute. reflexivity.
  - rewrite Eo in E2. exists s1, s2. repeat split; assumption.
Defined.

(** ** [myrealloc] when nothing wraps *)

(** X17 (resize in place, without wrap-around): on a well-formed state,
    for a live [p] whose payload ends exactly at [base + used] and a new
    size [n > 0] with [p + n < 2^64], [myrealloc(p, n)] returns [p], moves
    [used] by exactly [n - old_size] (forward or back), sets the header's
    size to [n], and moves no data: [base], the free list, the size of
    every other block, every flag and every byte outside the block headers
    are as before, the invariant holds again and the same pointers are
    live.  There is no test against [CAP] on this path. *)
Theorem realloc_in_place_without_wrap s bl L p n fuel :
  wf s bl L -> live s bl p -> 0 < n -> p + n < modulus ->
  p + getf Fsize (memory s) (p - sizeof_md) = base s + used s ->
  exists s',
    myrealloc fuel s p n = Some (s', p) /\
    used s' = used s + n - getf Fsize (memory s) (p - sizeof_md) /\
    getf Fsize (memory s') (p - sizeof_md) = n /\
    base s' = base s /\ free_list s' = free_list s /\
    wf s' bl L /\
    (forall q, live s' bl q <-> live s bl q) /\
    (forall a, In a bl -> a <> p - sizeof_md ->
       getf Fsize (memory s') a = getf Fsize (memory s) a) /\
    (forall y, outside bl y -> memory s' y = memory s y) /\
    (forall i, 0 <= i < getf Fsize (memory s) (p - sizeof_md) ->
       memory s' (p + i) = memory s (p + i)).
Proof.
  intros W Hp Hn Hnw Ht.
  destruct (realloc_tail_wf s bl L p n fuel W Hp Hn Hnw Ht)
    as (s' & E & W' & Hl & Eb & Ef & Eu & Es).
  destruct (realloc_tail_frame s bl L p n fuel s' p W Hp Hn Hnw Ht E) as [Fs Fo].
  exists s'. split; [exact E|]. split; [exact Eu|]. split; [exact Es|].
  split; [exact Eb|]. split; [exact Ef|]. split; [exact W'|].
  split; [exact Hl|]. split; [exact Fs|]. split; [exact Fo|].
  intros i Hi. apply Fo. destruct Hp as [Hb _].
  apply (payload_outside s bl L (p - sizeof_md)); [exact W|exact Hb|lia].
Qed.

Lemma realloc_in_place_without_wrap_witness :
  exists s',
    myrealloc 1 c6_state (pool_base + 128) 100 = Some (s', pool_base + 128) /\
    used s' = 228 /\
    getf Fsize (memory s') (pool_base + 96) = 100.
Proof.
  assert (W : wf c6_state [pool_base; pool_base + 96] [])
    by (apply wf_check_sound; vm_compute; reflexivity).
  assert (P : live c6_state [pool_base; pool_base + 96] (pool_base + 128))
    by (split; [right; left|]; vm_compute; reflexivity).
  destruct (realloc_in_place_without_wrap c6_state _ _ (pool_base + 128) 100 1 W P)
    as (s' & E & Eu & Es & _).
  - lia.
  - vm_compute. reflexivity.
  - vm_compute. reflexivity.
  - exists s'. split; [exact E|]. split.
    + rewrite Eu. vm_compute. reflexivity.
    + exact Es.
Defined.

(** X18 (allocate, copy, free, without wrap-around): on a well-formed
    state, for a live [p] that is not the last block and a new size
    [n > 0] with [used + sizeof(md) + n < 2^64], [myrealloc(p, n)] returns
    what [mymalloc(n)] returns.  If that is [NULL] the state is exactly
    what it was: nothing is copied, the old block is not freed.  Otherwise
    the result [q] differs from [p], its block has at least [n] bytes, the
    first [min(old_size, n)] bytes at [q] are those that were at [p], the
    old block is free, the invariant holds, and the live pointers are the
    old ones without [p], plus [q]. *)
Theorem realloc_move_without_wrap s bl L p n fuel :
  wf s bl L -> live s bl p -> 0 < n ->
  used s + sizeof_md + n < modulus -> (length L < fuel)%nat ->
  p + getf Fsize (memory s) (p - sizeof_md) <> base s + used s ->
  exists s' q,
    myrealloc fuel s p n = Some (s', q) /\
    (exists s1, mymalloc fuel s n = Some (s1, q)) /\
    ((q = NULL /\ s' = s) \/
     (q <> NULL /\ q <> p /\ exists bl' L',
        wf s' bl' L' /\
        (forall r, live s' bl' r <-> (live s bl r /\ r <> p) \/ r = q) /\
        n <= getf Fsize (memory s') (q - sizeof_md) /\
        getf Fcheck_free (memory s') (p - sizeof_md) <> 0 /\
        (forall i, 0 <= i < Z.min (getf Fsize (memory s) (p - sizeof_md)) n ->
           memory s' (q + i) = memory s (p + i)))).
Proof.
  intros W Hp Hn Hnw Hfuel Hnt.
  apply (realloc_move s bl L p n fuel W Hp Hn Hnw Hfuel Hnt).
Qed.

(** On [c7_written] the first block holds the byte 7; moving it to a
    block of 40 bytes succeeds and the byte arrives at the new payload. *)
Lemma realloc_move_without_wrap_witness :
  exists s' q,
    myrealloc 1 c7_written (pool_base + 32) 40 = Some (s', q) /\
    q = pool_base + 128 /\ memory s' q = 7 /\
    getf Fcheck_free (memory s') pool_base <> 0.
Proof.
  assert (W : wf c7_written [pool_base; pool_base + 48] [])
    by (apply wf_check_sound; vm_compute; reflexivity).
  assert (P : live c7_written [pool_base; pool_base + 48] (pool_base + 32))
    by (split; [left|]; vm_compute; reflexivity).
  destruct (realloc_move_without_wrap c7_written _ _ (pool_base + 32) 40 1 W P)
    as (s' & q & E & _ & H).
  - lia.
  - vm_compute. reflexivity.
  - cbn [length]. lia.
  - vm_compute. discriminate.
  - assert (Hq : match myrealloc 1 c7_written (pool_base + 32) 40 with
                 | Some (_, r) => r
                 | None => NULL
                 end = pool_base + 128) by (vm_compute; reflexivity).
    rewrite E in Hq.
    destruct H as [[Hn _]|(_ & _ & bl' & L' & _ & _ & _ & Hf & Hc)].
    + exfalso. rewrite Hn in Hq. vm_compute in Hq. discriminate.
    + exists s', q. split; [exact E|]. split; [exact Hq|]. split.
      * rewrite <- (Z.add_0_r q). rewrite (Hc 0).
        -- vm_compute. reflexivity.
        -- replace (getf Fsize (memory c7_written) (pool_base + 32 - sizeof_md))
             with 16 by (vm_compute; reflexivity).
           lia.
      * replace (pool_base + 32 - sizeof_md) with pool_base in Hf
          by (vm_compute; reflexivity).
        exact Hf.
Defined.
